(** * The tiled-JPEG backend of OpenSlide (openslide-ops-jpeg.c)

    A shallow embedding of the backend that serves regions of a whole-slide
    image out of a pyramid of JPEG files with restart markers, and the
    properties of it that the specification states.

    Integers are [Z]; a conversion to a narrower or unsigned C type is written
    out with [int32], [uint32] or [uint8].  Signed arithmetic that overflows is
    undefined in C and is not given a meaning here.  C's [/] and [%] truncate
    toward zero: [Z.quot] and [Z.rem].  The [double] of [struct layer] is an
    IEEE 754 binary64 value of [SpecFloat].  A hash table is a [gmap], an array
    a list read with [!!] and written with [<[_:=_]>], with the out-of-range
    cases made explicit.  libjpeg and GLib are not part of the file: the
    decoder is a parameter, [g_list_sort] is the merge sort GLib documents. *)

From Stdlib Require Import ZArith Lia Bool.
From Stdlib Require Import Floats.SpecFloat.
From stdpp Require Import base decidable list gmap sorting.

Local Open Scope Z_scope.

(** ** Outcomes of a C function *)

(** The [g_assert]s of the file. *)
Inductive assertion :=
  | assert_zxy_successor      (* create_width_to_layer_map: fragment order *)
  | assert_jj                 (* generate_layers_into_map: g_assert(jj) *)
  | assert_widths_nonneg      (* width_compare: w1 >= 0 && w2 >= 0 *)
  | assert_offset_below_count (* compute_next_positions, header case *)
  | assert_offset_in_range    (* compute_next_positions, advance *)
  | assert_pos_le_stop.       (* fill_input_buffer: pos <= stop_position *)

(** What ends a run other than a normal return. *)
Inductive fault :=
  | AssertFailed (a : assertion)  (* g_assert aborts the process *)
  | OutOfBounds                   (* an array is indexed outside its extent *)
  | DivideByZero                  (* integer division by zero *)
  | BadConversion                 (* a double that does not fit the integer *)
  | InputEmpty                    (* ERREXIT(cinfo, JERR_INPUT_EMPTY) *)
  | NullDereference               (* a NULL pointer is read through *)
  | OutOfFuel.                    (* the loop bound of the model was reached *)

Inductive res (A : Type) : Type :=
  | Ok (a : A)
  | Err (f : fault).
Arguments Ok {A} a.
Arguments Err {A} f.

#[global] Instance res_ret : MRet res := fun A a => Ok a.
#[global] Instance res_bind : MBind res := fun A B k m =>
  match m with
  | Ok a => k a
  | Err f => Err f
  end.

Definition g_assert (a : assertion) (b : bool) : res unit :=
  if b then Ok tt else Err (AssertFailed a).

Definition is_ok {A} (r : res A) : bool :=
  match r with Ok _ => true | Err _ => false end.

(** ** C integer types *)

Module CInt.

Definition wrap_unsigned (bits z : Z) : Z := z mod 2 ^ bits.
Definition wrap_signed (bits z : Z) : Z :=
  (z + 2 ^ (bits - 1)) mod 2 ^ bits - 2 ^ (bits - 1).

Definition uint8 : Z -> Z := wrap_unsigned 8.
Definition uint32 : Z -> Z := wrap_unsigned 32.
Definition uint64 : Z -> Z := wrap_unsigned 64.
Definition int32 : Z -> Z := wrap_signed 32.

Definition INT32_MAX : Z := 2 ^ 31 - 1.
Definition INT64_MAX : Z := 2 ^ 63 - 1.
Definition INT64_MIN : Z := - 2 ^ 63.

(** [a / b] on signed operands. *)
Definition cdiv (a b : Z) : res Z :=
  if b =? 0 then Err DivideByZero else Ok (Z.quot a b).
(** [a % b] on signed operands. *)
Definition cmod (a b : Z) : res Z :=
  if b =? 0 then Err DivideByZero else Ok (Z.rem a b).

(** [MIN(a, b)] where [a] is an [int64_t] and [b] a [size_t]: the usual
    arithmetic conversions make the comparison unsigned, so a negative [a]
    is larger than any [b]. *)
Definition MIN_int64_size_t (a b : Z) : Z :=
  if uint64 a <? b then a else b.

End CInt.

(** ** IEEE 754 binary64 *)

Module Double.

Definition prec : Z := 53.
Definition emax : Z := 1024.

Definition double := spec_float.

(** [(double) i], rounding to nearest, ties to even. *)
Definition of_int64 (i : Z) : double := binary_normalize prec emax i 0 false.

Definition div (a b : double) : double := SFdiv prec emax a b.

(** [(int64_t) d]: the fractional part is discarded; the conversion is
    undefined when the result does not fit. *)
Definition to_int64 (d : double) : res Z :=
  match d with
  | S754_zero _ => Ok 0
  | S754_finite s m e =>
      let mag := if 0 <=? e then Z.pos m * 2 ^ e else Z.pos m / 2 ^ (- e) in
      let v := if s then - mag else mag in
      if (CInt.INT64_MIN <=? v) && (v <=? CInt.INT64_MAX) then Ok v
      else Err BadConversion
  | S754_infinity _ | S754_nan => Err BadConversion
  end.

End Double.

(** ** Data model (struct one_jpeg, struct layer, the fragments) *)

(** A file open for reading: its bytes and the position of the next read. *)
Record FILE := mkFILE {
  contents : list Z;
  fpos : Z
}.

(** [struct _openslide_jpeg_fragment] (declared in openslide-private.h): the
    file and its place [(z, x, y)] in the pyramid. *)
Record fragment := mkFragment {
  fr_f : list Z;
  fr_x : Z;
  fr_y : Z;
  fr_z : Z
}.

(** [struct one_jpeg] without its [comment]; [f] is the contents of the file. *)
Record one_jpeg := mkOneJpeg {
  f : list Z;
  mcu_starts_count : Z;
  mcu_starts : list Z;
  tile_width : Z;
  tile_height : Z;
  width : Z;
  height : Z
}.

(** [layer_jpegs] holds pointers into the flat array [all_jpegs]: indices. *)
Record layer := mkLayer {
  layer_jpegs : list nat;
  pixel_w : Z;
  pixel_h : Z;
  jpegs_across : Z;
  jpegs_down : Z;
  image00_w : Z;
  image00_h : Z;
  scale_denom : Z;
  no_scale_denom_downsample : Double.double
}.

(** The [openslide_t] with its [struct jpegops_data]. *)
Record openslide := mkOpenslide {
  layer_count : Z;
  all_jpegs : list one_jpeg;
  layers : list layer
}.

(** [a[i]] for an array of [count] elements. *)
Definition array_get {A} (a : list A) (count i : Z) : res A :=
  if (0 <=? i) && (i <? count) then
    match a !! Z.to_nat i with
    | Some v => Ok v
    | None => Err OutOfBounds
    end
  else Err OutOfBounds.

(** [a[i] = v] for an array of [count] elements. *)
Definition array_set {A} (a : list A) (count i : Z) (v : A) : res (list A) :=
  if (0 <=? i) && (i <? count) && (i <? Z.of_nat (length a))
  then Ok (<[Z.to_nat i := v]> a)
  else Err OutOfBounds.

(** ** Pyramid builder *)

Module Pyramid.

Definition is_zxy_successor (pz px py z x y : Z) : bool :=
  if z =? pz + 1 then (x =? 0) && (y =? 0)
  else if negb (z =? pz) then false
  else if y =? py + 1 then x =? 0
  else if negb (y =? py) then false
  else x =? px + 1.

(** The [for] loop that copies [num_jpegs] pointers out of the list. *)
Fixpoint copy_layer_jpegs (num_jpegs : nat) (jj : list nat) : res (list nat) :=
  match num_jpegs with
  | O => Ok []
  | S n =>
      match jj with
      | [] => Err (AssertFailed assert_jj)
      | data :: next => rest ← copy_layer_jpegs n next; Ok (data :: rest)
      end
  end.

(** One turn of the [while (scale_denom <= 8)] loop: the layer and its key. *)
Definition make_layer (jpegs : list nat) (jpegs_across jpegs_down : Z)
    (pixel_w pixel_h image00_w image00_h layer0_w scale_denom : Z)
    : res (Z * layer) :=
  let num_jpegs := jpegs_across * jpegs_down in
  lj ← copy_layer_jpegs (Z.to_nat num_jpegs) jpegs;
  let l := {| layer_jpegs := lj;
              pixel_w := pixel_w; pixel_h := pixel_h;
              jpegs_across := jpegs_across; jpegs_down := jpegs_down;
              image00_w := image00_w; image00_h := image00_h;
              scale_denom := scale_denom;
              no_scale_denom_downsample :=
                Double.div (Double.of_int64 layer0_w) (Double.of_int64 pixel_w) |} in
  (* *key = l->pixel_w / l->scale_denom *)
  Ok (Z.quot pixel_w scale_denom, l).

Fixpoint generate_layers_loop (fuel : nat) (scale_denom : Z)
    (jpegs : list nat) (jpegs_across jpegs_down : Z)
    (pixel_w pixel_h image00_w image00_h layer0_w : Z)
    (width_to_layer_map : gmap Z layer) : res (gmap Z layer) :=
  match fuel with
  | O => Err OutOfFuel
  | S fuel' =>
      if scale_denom <=? 8 then
        '(key, l) ← make_layer jpegs jpegs_across jpegs_down
                      pixel_w pixel_h image00_w image00_h layer0_w scale_denom;
        generate_layers_loop fuel' (Z.shiftl scale_denom 1)
          jpegs jpegs_across jpegs_down
          pixel_w pixel_h image00_w image00_h layer0_w
          (<[key := l]> width_to_layer_map)
      else Ok width_to_layer_map
  end.

Definition generate_layers_into_map (jpegs : list nat)
    (jpegs_across jpegs_down pixel_w pixel_h image00_w image00_h layer0_w : Z)
    (width_to_layer_map : gmap Z layer) : res (gmap Z layer) :=
  generate_layers_loop 5 1 jpegs jpegs_across jpegs_down
    pixel_w pixel_h image00_w image00_h layer0_w width_to_layer_map.

(** The locals of [create_width_to_layer_map] that live across iterations. *)
Record builder := mkBuilder {
  prev_z : Z;
  prev_x : Z;
  prev_y : Z;
  layer_jpegs_tmp : list nat;
  l_pw : Z;
  l_ph : Z;
  img00_w : Z;
  img00_h : Z;
  layer0_w : Z;
  width_to_layer_map : gmap Z layer
}.

Definition builder_init : builder :=
  {| prev_z := -1; prev_x := -1; prev_y := -1;
     layer_jpegs_tmp := [];
     l_pw := 0; l_ph := 0; img00_w := 0; img00_h := 0; layer0_w := 0;
     width_to_layer_map := ∅ |}.

(** The body of the [for] loop at index [i]; [next] is [fragments[i + 1]]
    when [i] is not [count - 1]. *)
Definition builder_step (jpegs : list one_jpeg) (i : nat) (fr : fragment)
    (next : option fragment) (b : builder) : res builder :=
  _ ← g_assert assert_zxy_successor
        (is_zxy_successor b.(prev_z) b.(prev_x) b.(prev_y)
           fr.(fr_z) fr.(fr_x) fr.(fr_y));
  (* the store of 0 into prev_z, prev_x, prev_y when prev_z == -1 is
     overwritten at the end of the body before it is read *)
  oj ← array_get jpegs (Z.of_nat (length jpegs)) (Z.of_nat i);
  let '(i00w, i00h) :=
    if (fr.(fr_x) =? 0) && (fr.(fr_y) =? 0)
    then (oj.(width), oj.(height)) else (b.(img00_w), b.(img00_h)) in
  let pw := if fr.(fr_y) =? 0 then b.(l_pw) + oj.(width) else b.(l_pw) in
  let ph := if fr.(fr_x) =? 0 then b.(l_ph) + oj.(height) else b.(l_ph) in
  let tmp := i :: b.(layer_jpegs_tmp) in
  let last :=
    match next with
    | None => true
    | Some nx => negb (nx.(fr_z) =? fr.(fr_z))
    end in
  if last then
    let tmp := reverse tmp in
    let l0w := if fr.(fr_z) =? 0 then pw else b.(layer0_w) in
    m ← generate_layers_into_map tmp
          (fr.(fr_x) + 1) (fr.(fr_y) + 1)
          pw ph i00w i00h l0w b.(width_to_layer_map);
    Ok {| prev_z := fr.(fr_z); prev_x := fr.(fr_x); prev_y := fr.(fr_y);
          layer_jpegs_tmp := [];
          l_pw := 0; l_ph := 0; img00_w := 0; img00_h := 0;
          layer0_w := l0w;
          width_to_layer_map := m |}
  else
    Ok {| prev_z := fr.(fr_z); prev_x := fr.(fr_x); prev_y := fr.(fr_y);
          layer_jpegs_tmp := tmp;
          l_pw := pw; l_ph := ph; img00_w := i00w; img00_h := i00h;
          layer0_w := b.(layer0_w);
          width_to_layer_map := b.(width_to_layer_map) |}.

Fixpoint builder_loop (jpegs : list one_jpeg) (i : nat)
    (fragments : list fragment) (b : builder) : res builder :=
  match fragments with
  | [] => Ok b
  | fr :: rest =>
      b' ← builder_step jpegs i fr (head rest) b;
      builder_loop jpegs (S i) rest b'
  end.

Definition create_width_to_layer_map (fragments : list fragment)
    (jpegs : list one_jpeg) : res (gmap Z layer) :=
  b ← builder_loop jpegs 0 fragments builder_init;
  Ok b.(width_to_layer_map).

Definition width_compare (w1 w2 : Z) : res Z :=
  _ ← g_assert assert_widths_nonneg ((0 <=? w1) && (0 <=? w2));
  Ok (Z.b2z (w1 <? w2) - Z.b2z (w1 >? w2)).

(** GLib's [g_list_sort]: a top-down merge sort that takes the element of
    the first list when [compare_func] returns a value [<= 0]. *)
Section g_list_sort.
Context {A : Type} (compare_func : A -> A -> res Z).

Fixpoint g_list_sort_merge (l1 : list A) : list A -> res (list A) :=
  fix merge_aux (l2 : list A) : res (list A) :=
    match l1, l2 with
    | [], _ => Ok l2
    | _, [] => Ok l1
    | x1 :: l1', x2 :: l2' =>
        cmp ← compare_func x1 x2;
        if cmp <=? 0
        then r ← g_list_sort_merge l1' l2; Ok (x1 :: r)
        else r ← merge_aux l2'; Ok (x2 :: r)
    end.

Fixpoint g_list_sort_real (fuel : nat) (l : list A) : res (list A) :=
  match l with
  | [] => Ok []
  | [a] => Ok [a]
  | _ =>
      match fuel with
      | O => Err OutOfFuel
      | S fuel' =>
          let half := (length l / 2)%nat in
          s1 ← g_list_sort_real fuel' (take half l);
          s2 ← g_list_sort_real fuel' (drop half l);
          g_list_sort_merge s1 s2
      end
  end.

Definition g_list_sort (l : list A) : res (list A) :=
  g_list_sort_real (length l) l.
End g_list_sort.

(** [g_hash_table_foreach(width_to_layer_map, get_keys, &layer_keys)]: the
    table is walked in an order of its own and each key is prepended. *)
Definition get_keys (m : gmap Z layer) : list Z :=
  foldl (fun keys kv => kv.1 :: keys) [] (map_to_list m).

(** The [while (tmp_list != NULL)] loop that copies the layers out of the
    table in the order of the sorted keys, stealing each entry. *)
Fixpoint load_layers (m : gmap Z layer) (tmp_list : list Z) : res (list layer) :=
  match tmp_list with
  | [] => Ok []
  | data :: tl =>
      match m !! data with
      | None => Err NullDereference
      | Some l => rest ← load_layers (delete data m) tl; Ok (l :: rest)
      end
  end.

(** [_openslide_add_jpeg_ops] for a non-NULL [osr]; [jpegs] is [all_jpegs]
    as the loop over [init_one_jpeg] leaves it (see [Index]). *)
Definition _openslide_add_jpeg_ops (fragments : list fragment)
    (jpegs : list one_jpeg) : res openslide :=
  m ← create_width_to_layer_map fragments jpegs;
  layer_keys ← g_list_sort width_compare (get_keys m);
  ls ← load_layers m layer_keys;
  Ok {| layer_count := Z.of_nat (size m);
        all_jpegs := jpegs;
        layers := ls |}.

(** The width a layer is published with (what [get_dimensions] returns). *)
Definition published_width (l : layer) : Z := Z.quot l.(pixel_w) l.(scale_denom).
Definition published_height (l : layer) : Z := Z.quot l.(pixel_h) l.(scale_denom).

End Pyramid.

(** ** The fancy source (struct my_src_mgr) *)

Module FancySrc.

Definition INPUT_BUF_SIZE : Z := 4096.
Definition JPEG_EOI : Z := 0xD9.

(** *** stdio on a [FILE] *)

Definition ftello (file : FILE) : Z := file.(fpos).

(** [fseeko(file, offset, SEEK_SET)]; a negative offset is refused. *)
Definition fseeko (file : FILE) (offset : Z) : FILE :=
  if offset <? 0 then file
  else {| contents := file.(contents); fpos := offset |}.

Definition rewind (file : FILE) : FILE :=
  {| contents := file.(contents); fpos := 0 |}.

(** [fseek(file, offset, SEEK_CUR)]. *)
Definition fseek_cur (file : FILE) (offset : Z) : FILE :=
  fseeko file (file.(fpos) + offset).

(** [fread(ptr, 1, n, file)]: the bytes read and the file after reading. *)
Definition fread (n : Z) (file : FILE) : list Z * FILE :=
  let got := take (Z.to_nat n) (drop (Z.to_nat file.(fpos)) file.(contents)) in
  (got, {| contents := file.(contents);
           fpos := file.(fpos) + Z.of_nat (length got) |}).

(** [pub.next_input_byte] is kept as an index into [buffer]; the field
    [header_length] is never read or written and is left out. *)
Record my_src_mgr := mkSrc {
  next_input_byte : Z;
  bytes_in_buffer : Z;
  infile : FILE;
  buffer : list Z;
  start_of_file : bool;
  next_restart_marker : Z;
  next_start_offset : Z;
  next_start_position : Z;
  stop_position : Z;
  start_positions : list Z;
  start_positions_count : Z;
  topleft : Z;
  width : Z;
  stride : Z
}.

Definition set_positions (src : my_src_mgr) (offset position stop : Z) : my_src_mgr :=
  {| next_input_byte := src.(next_input_byte);
     bytes_in_buffer := src.(bytes_in_buffer);
     infile := src.(infile);
     buffer := src.(buffer);
     start_of_file := src.(start_of_file);
     next_restart_marker := src.(next_restart_marker);
     next_start_offset := offset;
     next_start_position := position;
     stop_position := stop;
     start_positions := src.(start_positions);
     start_positions_count := src.(start_positions_count);
     topleft := src.(topleft);
     width := src.(width);
     stride := src.(stride) |}.

Definition set_infile (src : my_src_mgr) (file : FILE) : my_src_mgr :=
  {| next_input_byte := src.(next_input_byte);
     bytes_in_buffer := src.(bytes_in_buffer);
     infile := file;
     buffer := src.(buffer);
     start_of_file := src.(start_of_file);
     next_restart_marker := src.(next_restart_marker);
     next_start_offset := src.(next_start_offset);
     next_start_position := src.(next_start_position);
     stop_position := src.(stop_position);
     start_positions := src.(start_positions);
     start_positions_count := src.(start_positions_count);
     topleft := src.(topleft);
     width := src.(width);
     stride := src.(stride) |}.

(** The stores that end [fill_input_buffer]. *)
Definition set_filled (src : my_src_mgr) (file : FILE) (buf : list Z)
    (nbytes marker : Z) : my_src_mgr :=
  {| next_input_byte := 0;
     bytes_in_buffer := nbytes;
     infile := file;
     buffer := buf;
     start_of_file := false;
     next_restart_marker := marker;
     next_start_offset := src.(next_start_offset);
     next_start_position := src.(next_start_position);
     stop_position := src.(stop_position);
     start_positions := src.(start_positions);
     start_positions_count := src.(start_positions_count);
     topleft := src.(topleft);
     width := src.(width);
     stride := src.(stride) |}.

(** The decoder takes one byte: [*(next_input_byte++)], [bytes_in_buffer--]. *)
Definition set_consumed (src : my_src_mgr) : my_src_mgr :=
  {| next_input_byte := src.(next_input_byte) + 1;
     bytes_in_buffer := src.(bytes_in_buffer) - 1;
     infile := src.(infile);
     buffer := src.(buffer);
     start_of_file := src.(start_of_file);
     next_restart_marker := src.(next_restart_marker);
     next_start_offset := src.(next_start_offset);
     next_start_position := src.(next_start_position);
     stop_position := src.(stop_position);
     start_positions := src.(start_positions);
     start_positions_count := src.(start_positions_count);
     topleft := src.(topleft);
     width := src.(width);
     stride := src.(stride) |}.

(** [start_positions[i]]. *)
Definition position_at (src : my_src_mgr) (i : Z) : res Z :=
  array_get src.(start_positions) src.(start_positions_count) i.

Definition compute_next_positions (src : my_src_mgr) : res my_src_mgr :=
  if src.(start_positions_count) =? 0 then
    Ok (set_positions src src.(next_start_offset) 0 CInt.INT64_MAX)
  else if src.(start_of_file) then
    let offset := src.(topleft) - src.(stride) in
    stop ← position_at src 0;
    _ ← g_assert assert_offset_below_count (offset <? src.(start_positions_count));
    Ok (set_positions src offset 0 stop)
  else
    let offset := src.(next_start_offset) + src.(stride) in
    _ ← g_assert assert_offset_in_range
          ((0 <=? offset) && (offset <? src.(start_positions_count)));
    position ← position_at src offset;
    let stop_offset := offset + src.(width) in
    stop ← (if stop_offset <? src.(start_positions_count)
            then position_at src stop_offset
            else Ok CInt.INT64_MAX);
    Ok (set_positions src offset position stop).

(** [_openslide_jpeg_fancy_src]; [buf] is what the buffer holds when it is
    allocated. *)
Definition _openslide_jpeg_fancy_src (file : FILE) (buf : list Z)
    (positions : list Z) (count topleft_ : Z) (width_ stride_ : Z) : my_src_mgr :=
  {| next_input_byte := 0;
     bytes_in_buffer := 0;
     infile := file;
     buffer := buf;
     start_of_file := false;
     next_restart_marker := 0;
     next_start_offset := 0;
     next_start_position := 0;
     stop_position := 0;
     start_positions := positions;
     start_positions_count := count;
     topleft := topleft_;
     width := width_;
     stride := stride_ |}.

Definition init_source (src : my_src_mgr) : res my_src_mgr :=
  compute_next_positions
    {| next_input_byte := src.(next_input_byte);
       bytes_in_buffer := src.(bytes_in_buffer);
       infile := src.(infile);
       buffer := src.(buffer);
       start_of_file := true;
       next_restart_marker := 0;
       next_start_offset := src.(next_start_offset);
       next_start_position := src.(next_start_position);
       stop_position := src.(stop_position);
       start_positions := src.(start_positions);
       start_positions_count := src.(start_positions_count);
       topleft := src.(topleft);
       width := src.(width);
       stride := src.(stride) |}.

Definition is_restart_marker (b : Z) : bool := (0xD0 <=? b) && (b <? 0xD8).

(** The [for (i = 0; i < nbytes; i++)] loop that renumbers the restart
    markers; [n] is [nbytes - i]. *)
Fixpoint rewrite_markers_loop (n : nat) (i : nat) (buf : list Z)
    (last_was_ff : bool) (marker : Z) : list Z * bool * Z :=
  match n with
  | O => (buf, last_was_ff, marker)
  | S n' =>
      let b := nth i buf 0 in
      if last_was_ff && is_restart_marker b then
        rewrite_markers_loop n' (S i)
          (<[i := CInt.uint8 (Z.lor 0xD0 marker)]> buf)
          (b =? 0xFF)
          (CInt.uint8 (Z.rem (marker + 1) 8))
      else
        rewrite_markers_loop n' (S i) buf (b =? 0xFF) marker
  end.

(** [fill_input_buffer] up to the [fread]: whether the markers are to be
    renumbered, the source after the jump (if the file is at
    [stop_position]) and the number of bytes to ask for. *)
Definition fill_seek (src : my_src_mgr) : res (bool * my_src_mgr * Z) :=
  let pos := ftello src.(infile) in
  rewrite_markers ←
    (if src.(start_positions_count) =? 0 then Ok false
     else p0 ← position_at src 0; Ok (negb (pos <? p0)));
  _ ← g_assert assert_pos_le_stop (pos <=? src.(stop_position));
  if pos <? src.(stop_position) then
    Ok (rewrite_markers, src,
        CInt.MIN_int64_size_t (src.(stop_position) - pos) INPUT_BUF_SIZE)
  else if pos =? src.(stop_position) then
    src' ← compute_next_positions src;
    Ok (rewrite_markers,
        set_infile src' (fseeko src'.(infile) src'.(next_start_position)),
        CInt.MIN_int64_size_t
          (src'.(stop_position) - src'.(next_start_position)) INPUT_BUF_SIZE)
  else Ok (rewrite_markers, src, INPUT_BUF_SIZE).

(** [fill_input_buffer] from the [fread] on: [got] are the bytes that were
    read and [file] is the file after the read. *)
Definition fill_store (rewrite_markers : bool) (src : my_src_mgr)
    (got : list Z) (file : FILE) : res my_src_mgr :=
  let buf := got ++ drop (length got) src.(buffer) in
  let nbytes := Z.of_nat (length got) in
  if nbytes <=? 0 then
    if src.(start_of_file) then Err InputEmpty
    else
      Ok (set_filled src file ([0xFF; JPEG_EOI] ++ drop 2 buf) 2
            src.(next_restart_marker))
  else if rewrite_markers then
    let '(buf', last_was_ff, marker) :=
      rewrite_markers_loop (length got) 0 buf false src.(next_restart_marker) in
    if last_was_ff && (nbytes >? 1)
    then Ok (set_filled src (fseek_cur file (-1)) buf' (nbytes - 1) marker)
    else Ok (set_filled src file buf' nbytes marker)
  else
    Ok (set_filled src file buf nbytes src.(next_restart_marker)).

Definition fill_input_buffer (src : my_src_mgr) : res my_src_mgr :=
  '(rewrite_markers, src1, bytes_to_read) ← fill_seek src;
  let '(got, file) := fread bytes_to_read src1.(infile) in
  fill_store rewrite_markers src1 got file.

(** What the decoder does between two fills does not reach the fields that
    [fill_input_buffer] reads: a decode drives the source through a
    sequence of fills. *)
Fixpoint fill_n (n : nat) (src : my_src_mgr) : res my_src_mgr :=
  match n with
  | O => Ok src
  | S n' => src' ← fill_input_buffer src; fill_n n' src'
  end.

(** A fill that finds the file at [stop_position] after the header pass
    moves to the next row of tiles. *)
Definition advances (src : my_src_mgr) : bool :=
  negb (src.(start_positions_count) =? 0)
  && negb src.(start_of_file)
  && (ftello src.(infile) =? src.(stop_position)).

(** The number of such moves among the first [n] fills. *)
Fixpoint jumps (n : nat) (src : my_src_mgr) : nat :=
  match n with
  | O => O
  | S n' =>
      match fill_input_buffer src with
      | Ok src' => ((if advances src then 1 else 0) + jumps n' src')%nat
      | Err _ => if advances src then 1%nat else 0%nat
      end
  end.

Definition _openslide_jpeg_fancy_src_get_filepos (src : my_src_mgr) : Z :=
  ftello src.(infile) - src.(bytes_in_buffer).

(** The stores that end [skip_input_data]:
    [next_input_byte += num_bytes], [bytes_in_buffer -= num_bytes]. *)
Definition set_skipped (src : my_src_mgr) (num_bytes : Z) : my_src_mgr :=
  {| next_input_byte := src.(next_input_byte) + num_bytes;
     bytes_in_buffer := src.(bytes_in_buffer) - num_bytes;
     infile := src.(infile);
     buffer := src.(buffer);
     start_of_file := src.(start_of_file);
     next_restart_marker := src.(next_restart_marker);
     next_start_offset := src.(next_start_offset);
     next_start_position := src.(next_start_position);
     stop_position := src.(stop_position);
     start_positions := src.(start_positions);
     start_positions_count := src.(start_positions_count);
     topleft := src.(topleft);
     width := src.(width);
     stride := src.(stride) |}.

(** The [while (num_bytes > (long) src->pub.bytes_in_buffer)] loop of
    [skip_input_data]. *)
Fixpoint skip_loop (fuel : nat) (num_bytes : Z) (src : my_src_mgr)
    : res (Z * my_src_mgr) :=
  if num_bytes >? src.(bytes_in_buffer) then
    match fuel with
    | O => Err OutOfFuel
    | S fuel' =>
        src' ← fill_input_buffer src;
        skip_loop fuel' (num_bytes - src.(bytes_in_buffer)) src'
    end
  else Ok (num_bytes, src).

(** Every fill hands out a byte at least, so the loop takes [num_bytes]
    turns at most. *)
Definition skip_input_data (src : my_src_mgr) (num_bytes : Z) : res my_src_mgr :=
  if num_bytes >? 0 then
    '(num_bytes, src) ← skip_loop (Z.to_nat num_bytes) num_bytes src;
    Ok (set_skipped src num_bytes)
  else Ok src.

End FancySrc.

(** ** The index pass over one file *)

Module Index.
(** What libjpeg reports after [jpeg_start_decompress]. *)
Record jpeg_decompress_struct := mkCinfo {
  MCUs_per_row : Z;
  MCU_rows_in_scan : Z;
  restart_interval : Z;
  output_width : Z;
  output_height : Z
}.

(** The [while (marker < *mcu_starts_count)] loop. *)
Fixpoint scan_loop (fuel : nat) (count : Z) (src : FancySrc.my_src_mgr)
    (starts : list Z) (marker : Z) (last_was_ff : bool) : res (list Z) :=
  match fuel with
  | O => Err OutOfFuel
  | S fuel' =>
      if marker <? count then
        src ← (if src.(FancySrc.bytes_in_buffer) =? 0 then FancySrc.fill_input_buffer src else Ok src);
        let b := nth (Z.to_nat src.(FancySrc.next_input_byte)) src.(FancySrc.buffer) 0 in
        let src := FancySrc.set_consumed src in
        if last_was_ff then
          if b =? FancySrc.JPEG_EOI then Ok starts
          else if FancySrc.is_restart_marker b then
            starts' ← array_set starts count (1 + marker)
                        (FancySrc._openslide_jpeg_fancy_src_get_filepos src);
            scan_loop fuel' count src starts' (marker + 1) (b =? 0xFF)
          else scan_loop fuel' count src starts marker (b =? 0xFF)
        else scan_loop fuel' count src starts marker (b =? 0xFF)
      else Ok starts
  end.

(** Every turn of the loop takes one byte, and past the end of the file the
    source hands out the two bytes of an EOI. *)
Definition scan_fuel (src : FancySrc.my_src_mgr) : nat :=
  (Z.to_nat src.(FancySrc.bytes_in_buffer)
   + (length src.(FancySrc.infile).(contents) - Z.to_nat src.(FancySrc.infile).(fpos)) + 3)%nat.

(** [compute_optimization]; [src] is the source as [jpeg_read_header] and
    [jpeg_start_decompress] leave it. *)
Definition compute_optimization (cinfo : jpeg_decompress_struct)
    (src : FancySrc.my_src_mgr) : res (Z * list Z) :=
  let MCUs := CInt.uint32 (cinfo.(MCUs_per_row) * cinfo.(MCU_rows_in_scan)) in
  count ← CInt.cdiv MCUs cinfo.(restart_interval);
  let starts := replicate (Z.to_nat count) 0 in
  starts ← array_set starts count 0 (FancySrc._openslide_jpeg_fancy_src_get_filepos src);
  starts ← scan_loop (scan_fuel src) count src starts 0 false;
  Ok (count, starts).

(** [a / b] on [unsigned int] operands. *)
Definition udiv32 (a b : Z) : res Z :=
  if CInt.uint32 b =? 0 then Err DivideByZero
  else Ok (CInt.uint32 a / CInt.uint32 b).

(** [init_one_jpeg] without the comment. *)
Definition init_one_jpeg (file : list Z) (cinfo : jpeg_decompress_struct)
    (src : FancySrc.my_src_mgr) : res one_jpeg :=
  '(count, starts) ← compute_optimization cinfo src;
  let w := CInt.int32 cinfo.(output_width) in
  let h := CInt.int32 cinfo.(output_height) in
  per_row ← udiv32 cinfo.(MCUs_per_row) cinfo.(restart_interval);
  tw ← udiv32 w per_row;
  th ← udiv32 h cinfo.(MCU_rows_in_scan);
  Ok {| f := file;
        mcu_starts_count := count;
        mcu_starts := starts;
        tile_width := CInt.int32 tw;
        tile_height := CInt.int32 th;
        width := w;
        height := h |}.

End Index.

(** ** Reading: the one-JPEG reader and the region router *)

Module Ops.

(** What libjpeg hands back for one decode: the width of a scanline in
    pixels, and the groups of scanlines that the successive calls of
    [jpeg_read_scanlines] return until [output_scanline] reaches
    [output_height].  A scanline is [3 * output_width] samples. *)
Record decoded := mkDecoded {
  output_width : Z;
  scanlines : list (list (list Z))
}.

(** A store [dest[i] = v]: the index counts 32-bit words from the start of
    the buffer that the caller of [read_region] passed. *)
Definition store : Type := Z * Z.

(** The [dest], [rows_left] and [rows_to_skip] of [read_from_one_jpeg]. *)
Record cursor := mkCursor {
  dest : Z;
  rows_left : Z;
  rows_to_skip : Z
}.

(** One call of [read_from_one_jpeg] as [read_region] issues it, with the
    place [(file_x, file_y)] of the file in the grid of the layer. *)
Record jpeg_call := mkCall {
  c_file_x : Z;
  c_file_y : Z;
  c_jpeg : nat;
  c_dest : Z;
  c_x : Z;
  c_y : Z;
  c_scale_denom : Z;
  c_w : Z;
  c_h : Z;
  c_stride : Z
}.

(** [buffer[cur_buffer][k]], a [JSAMPLE]. *)
Definition sample (row : list Z) (k : Z) : res Z :=
  v ← array_get row (Z.of_nat (length row)) k; Ok (CInt.uint8 v).

(** The word stored for the pixel in column [col] of a scanline. *)
Definition pixel (row : list Z) (col : Z) : res Z :=
  r ← sample row (col * 3 + 0);
  g ← sample row (col * 3 + 1);
  b ← sample row (col * 3 + 2);
  Ok (CInt.uint32
        (Z.lor (Z.lor (Z.lor 0xFF000000 (Z.shiftl r 16)) (Z.shiftl g 8)) b)).

(** The [for (i = 0; i < w && i < output_width - d_x; i++)] loop. *)
Fixpoint copy_row (fuel : nat) (i w ow d_x dst : Z) (row : list Z)
    : res (list store) :=
  match fuel with
  | O => Ok []
  | S fuel' =>
      if (i <? w) && (i <? CInt.int32 ow - d_x) then
        p ← pixel row (d_x + i);
        rest ← copy_row fuel' (i + 1) w ow d_x dst row;
        Ok ((dst + i, p) :: rest)
      else Ok []
  end.

(** The [while (rows_read > 0 && rows_left > 0)] loop over one group. *)
Fixpoint copy_rows (w ow d_x stride : Z) (group : list (list Z)) (c : cursor)
    : res (list store * cursor) :=
  match group with
  | [] => Ok ([], c)
  | row :: rest =>
      if c.(rows_left) >? 0 then
        out ← (if c.(rows_to_skip) =? 0
               then copy_row (Z.to_nat w) 0 w ow d_x c.(dest) row
               else Ok []);
        let c' :=
          if c.(rows_to_skip) >? 0
          then {| dest := c.(dest); rows_left := c.(rows_left);
                  rows_to_skip := c.(rows_to_skip) - 1 |}
          else {| dest := c.(dest) + stride; rows_left := c.(rows_left) - 1;
                  rows_to_skip := c.(rows_to_skip) |} in
        '(out', c'') ← copy_rows w ow d_x stride rest c';
        Ok (out ++ out', c'')
      else Ok ([], c)
  end.

(** The [while (output_scanline < output_height && rows_left > 0)] loop. *)
Fixpoint read_scanlines_loop (w ow d_x stride : Z)
    (groups : list (list (list Z))) (c : cursor) : res (list store) :=
  match groups with
  | [] => Ok []
  | group :: rest =>
      if c.(rows_left) >? 0 then
        '(out, c') ← copy_rows w ow d_x stride group c;
        out' ← read_scanlines_loop w ow d_x stride rest c';
        Ok (out ++ out')
      else Ok []
  end.

Section decoder.

(** libjpeg behind the fancy source: what it decodes from a file when the
    source is set to [(topleft, width, stride)], the scale to
    [scale_denom] and the image size to [(image_width, image_height)]. *)
Variable jpeg_decompress :
  one_jpeg -> Z -> Z -> Z -> Z -> Z -> Z -> decoded.

(** [read_from_one_jpeg] up to [jpeg_start_decompress]: the tiles to
    decode are worked out, the source is set to them and the decoder is
    started. *)
Definition start_decompress (jpeg : one_jpeg)
    (x y scale_denom w h : Z) : res decoded :=
  tile_y ← CInt.cdiv y jpeg.(tile_height);
  tile_x ← CInt.cdiv x jpeg.(tile_width);
  stride_in_tiles ← CInt.cdiv jpeg.(width) jpeg.(tile_width);
  img_height_in_tiles ← CInt.cdiv jpeg.(height) jpeg.(tile_height);
  x_in_tile ← CInt.cmod x jpeg.(tile_width);
  y_in_tile ← CInt.cmod y jpeg.(tile_height);
  quot ← CInt.cdiv (w * scale_denom + x_in_tile) jpeg.(tile_width);
  rem ← CInt.cmod (w * scale_denom + x_in_tile) jpeg.(tile_width);
  let width_in_tiles := CInt.int32 (quot + (if rem =? 0 then 0 else 1)) in
  quot ← CInt.cdiv (h * scale_denom + y_in_tile) jpeg.(tile_height);
  rem ← CInt.cmod (h * scale_denom + y_in_tile) jpeg.(tile_height);
  let height_in_tiles := CInt.int32 (quot + (if rem =? 0 then 0 else 1)) in
  let width_in_tiles := Z.min width_in_tiles (stride_in_tiles - tile_x) in
  let height_in_tiles := Z.min height_in_tiles (img_height_in_tiles - tile_y) in
  Ok (jpeg_decompress jpeg (tile_y * stride_in_tiles + tile_x)
        width_in_tiles stride_in_tiles scale_denom
        (width_in_tiles * jpeg.(tile_width))
        (height_in_tiles * jpeg.(tile_height))).

Definition read_from_one_jpeg (jpeg : one_jpeg) (dst : Z)
    (x y scale_denom w h stride : Z) : res (list store) :=
  cinfo ← start_decompress jpeg x y scale_denom w h;
  x_in_tile ← CInt.cmod x jpeg.(tile_width);
  d_x ← CInt.cdiv x_in_tile scale_denom;
  y_in_tile ← CInt.cmod y jpeg.(tile_height);
  d_y ← CInt.cdiv y_in_tile scale_denom;
  read_scanlines_loop w cinfo.(output_width) d_x stride cinfo.(scanlines)
    {| dest := dst; rows_left := h; rows_to_skip := d_y |}.

(** [int64_t src = v / rel_downsample;
     src = (src / scale_denom) * scale_denom;] *)
Definition src_start (v : Z) (rel_downsample : Double.double)
    (scale_denom : Z) : res Z :=
  src ← Double.to_int64 (Double.div (Double.of_int64 v) rel_downsample);
  q ← CInt.cdiv src scale_denom;
  Ok (q * scale_denom).

(** The [while (src_x < end_src_x)] loop. *)
Fixpoint route_row (fuel : nat) (l : layer) (w : Z)
    (file_y start_in_src_segment_y dest_h dest_y : Z)
    (src_x end_src_x dest_x : Z) : res (list jpeg_call) :=
  if src_x <? end_src_x then
    match fuel with
    | O => Err OutOfFuel
    | S fuel' =>
        q ← CInt.cdiv src_x l.(image00_w);
        let file_x := CInt.int32 q in
        let origin_src_segment_x := file_x * l.(image00_w) in
        let end_in_src_segment_x :=
          CInt.int32 (Z.min ((file_x + 1) * l.(image00_w)) end_src_x
                      - origin_src_segment_x) in
        let start_in_src_segment_x :=
          CInt.int32 (src_x - origin_src_segment_x) in
        dest_w ← CInt.cdiv (end_in_src_segment_x - start_in_src_segment_x)
                   l.(scale_denom);
        jpeg ← array_get l.(layer_jpegs) (Z.of_nat (length l.(layer_jpegs)))
                 (file_y * l.(jpegs_across) + file_x);
        rest ← route_row fuel' l w file_y start_in_src_segment_y dest_h dest_y
                 (end_in_src_segment_x + origin_src_segment_x) end_src_x
                 (dest_x + dest_w);
        Ok ({| c_file_x := file_x; c_file_y := file_y; c_jpeg := jpeg;
               c_dest := dest_y * w + dest_x;
               c_x := start_in_src_segment_x; c_y := start_in_src_segment_y;
               c_scale_denom := l.(scale_denom);
               c_w := dest_w; c_h := dest_h; c_stride := w |} :: rest)
    end
  else Ok [].

(** The [while (src_y < end_src_y)] loop. *)
Fixpoint route_rows (fuel : nat) (l : layer) (x w : Z)
    (src_y end_src_y dest_y : Z) : res (list jpeg_call) :=
  if src_y <? end_src_y then
    match fuel with
    | O => Err OutOfFuel
    | S fuel' =>
        q ← CInt.cdiv src_y l.(image00_h);
        let file_y := CInt.int32 q in
        let origin_src_segment_y := file_y * l.(image00_h) in
        let end_in_src_segment_y :=
          CInt.int32 (Z.min ((file_y + 1) * l.(image00_h)) end_src_y
                      - origin_src_segment_y) in
        let start_in_src_segment_y :=
          CInt.int32 (src_y - origin_src_segment_y) in
        dest_h ← CInt.cdiv (end_in_src_segment_y - start_in_src_segment_y)
                   l.(scale_denom);
        src_x ← src_start x l.(no_scale_denom_downsample) l.(scale_denom);
        let end_src_x := Z.min (src_x + w * l.(scale_denom)) l.(pixel_w) in
        row ← route_row (Z.to_nat (end_src_x - src_x)) l w
                file_y start_in_src_segment_y dest_h dest_y
                src_x end_src_x 0;
        rest ← route_rows fuel' l x w
                 (end_in_src_segment_y + origin_src_segment_y) end_src_y
                 (dest_y + dest_h);
        Ok (row ++ rest)
    end
  else Ok [].

(** The calls of [read_from_one_jpeg] that [read_region] issues for a
    layer, in order. *)
Definition route_region (l : layer) (x y w h : Z) : res (list jpeg_call) :=
  src_y ← src_start y l.(no_scale_denom_downsample) l.(scale_denom);
  let end_src_y := Z.min (src_y + h * l.(scale_denom)) l.(pixel_h) in
  route_rows (Z.to_nat (end_src_y - src_y)) l x w src_y end_src_y 0.

Fixpoint read_calls (jpegs : list one_jpeg) (calls : list jpeg_call)
    : res (list store) :=
  match calls with
  | [] => Ok []
  | c :: rest =>
      jpeg ← array_get jpegs (Z.of_nat (length jpegs)) (Z.of_nat c.(c_jpeg));
      out ← read_from_one_jpeg jpeg c.(c_dest) c.(c_x) c.(c_y)
              c.(c_scale_denom) c.(c_w) c.(c_h) c.(c_stride);
      out' ← read_calls jpegs rest;
      Ok (out ++ out')
  end.

(** [read_region]: the stores into [dest], in order. *)
Definition read_region (osr : openslide) (x y layer w h : Z)
    : res (list store) :=
  l ← array_get osr.(layers) (Z.of_nat (length osr.(layers))) layer;
  calls ← route_region l x y w h;
  read_calls osr.(all_jpegs) calls.

End decoder.

Definition get_dimensions (osr : openslide) (layer : Z) : res (Z * Z) :=
  if layer >=? osr.(layer_count) then Ok (0, 0)
  else
    l ← array_get osr.(layers) (Z.of_nat (length osr.(layers))) layer;
    w ← CInt.cdiv l.(pixel_w) l.(scale_denom);
    h ← CInt.cdiv l.(pixel_h) l.(scale_denom);
    Ok (w, h).

End Ops.

(** ** The specification's formulas, as it words them *)

Module Spec.

(** "[(pz, px, py) → (z, x, y)] is valid iff one of ..." *)
Definition zxy_successor (pz px py z x y : Z) : Prop :=
  (z = pz + 1 ∧ x = 0 ∧ y = 0)
  ∨ (z = pz ∧ y = py + 1 ∧ x = 0)
  ∨ (z = pz ∧ y = py ∧ x = px + 1).

(** Every consecutive pair of the list, entered from [(pz, px, py)], is in
    the successor relation. *)
Fixpoint zxy_chain (pz px py : Z) (fragments : list fragment) : Prop :=
  match fragments with
  | [] => True
  | fr :: rest =>
      zxy_successor pz px py fr.(fr_z) fr.(fr_x) fr.(fr_y)
      ∧ zxy_chain fr.(fr_z) fr.(fr_x) fr.(fr_y) rest
  end.

(** "emit four Level records with scale_denom ∈ {1, 2, 4, 8} sharing all
    fields except scale_denom, keyed ... by published width". *)
Definition emitted_levels (jpegs : list nat)
    (jpegs_across jpegs_down pixel_w pixel_h image00_w image00_h layer0_w : Z)
    : list (Z * layer) :=
  (fun scale_denom =>
     (Z.quot pixel_w scale_denom,
      {| layer_jpegs := jpegs;
         pixel_w := pixel_w; pixel_h := pixel_h;
         jpegs_across := jpegs_across; jpegs_down := jpegs_down;
         image00_w := image00_w; image00_h := image00_h;
         scale_denom := scale_denom;
         no_scale_denom_downsample :=
           Double.div (Double.of_int64 layer0_w) (Double.of_int64 pixel_w) |}))
  <$> [1; 2; 4; 8].

(** "collisions overwrite (last writer wins)". *)
Definition insert_all (m : gmap Z layer) (kls : list (Z * layer)) : gmap Z layer :=
  foldl (fun m kl => <[kl.1 := kl.2]> m) m kls.

(** "each two-byte sequence FF Dn with n in 0..7": position [i] of the
    freshly read bytes holds the second byte of such a sequence. *)
Definition marker_at (raw : list Z) (i : nat) : bool :=
  match i with
  | O => false
  | S j => (nth j raw 0 =? 0xFF) && FancySrc.is_restart_marker (nth i raw 0)
  end.

(** The number of such sequences that end before position [i]. *)
Fixpoint markers_before (raw : list Z) (i : nat) : nat :=
  match i with
  | O => O
  | S j => (markers_before raw j + (if marker_at raw j then 1 else 0))%nat
  end.

(** "overwrite the second byte with D0 | (next_restart_marker & 7), then
    increment next_restart_marker modulo 8": the byte at position [i] after
    the fill, when the counter is [marker] before it. *)
Definition renumbered (raw : list Z) (marker : Z) (i : nat) : Z :=
  if marker_at raw i
  then Z.lor 0xD0 (Z.land ((marker + Z.of_nat (markers_before raw i)) mod 8) 7)
  else nth i raw 0.

(** "the last byte of the buffer is FF and the buffer has length > 1". *)
Definition ends_on_ff (raw : list Z) : bool :=
  (nth (length raw - 1) raw 0 =? 0xFF) && (1 <? Z.of_nat (length raw)).

(** "0xFF000000 | (R<<16) | (G<<8) | B". *)
Definition argb (r g b : Z) : Z :=
  Z.lor (Z.lor (Z.lor 0xFF000000 (Z.shiftl r 16)) (Z.shiftl g 8)) b.

(** "copy starting at column dx, emit exactly min(w, output_width − dx)
    pixels per row": the stores for one scanline, to [dst] onwards. *)
Definition row_stores (w ow d_x dst : Z) (row : list Z) : list (Z * Z) :=
  (fun i =>
     (dst + i,
      argb (nth (Z.to_nat ((d_x + i) * 3)) row 0)
           (nth (Z.to_nat ((d_x + i) * 3 + 1)) row 0)
           (nth (Z.to_nat ((d_x + i) * 3 + 2)) row 0)))
  <$> seqZ 0 (Z.min w (ow - d_x)).

(** "Skip dy output rows ... Stop after h rows written or when the decoder
    runs out": the scanlines that are emitted. *)
Definition emitted_rows (h d_y : Z) (rows : list (list Z)) : list (list Z) :=
  take (Z.to_nat h) (drop (Z.to_nat d_y) rows).

(** "advance destination by stride words": the stores for the emitted
    scanlines, the first to [dst] onwards. *)
Definition region_stores (w ow d_x stride dst : Z) (rows : list (list Z))
    : list (Z * Z) :=
  concat (imap (fun k row => row_stores w ow d_x (dst + Z.of_nat k * stride) row)
            rows).

(** "src_x = floor(x × d / s) × s" with [d = level0_pixel_w / pixel_w]. *)
Definition claimed_src_start (v level0_pixel_w pixel_w scale_denom : Z) : Z :=
  (v * level0_pixel_w) / (pixel_w * scale_denom) * scale_denom.

(** What the specification says of a fill after the header pass that read
    the bytes [got] and left the file as [file]: every restart marker in
    them is renumbered from the counter, the counter has advanced by their
    number modulo 8, and a final FF is given back to the file unless it is
    the only byte. *)
Definition fill_renumbers (src : FancySrc.my_src_mgr) (got : list Z)
    (file : FILE) (src' : FancySrc.my_src_mgr) : Prop :=
  (∀ i, (i < length got)%nat →
     nth i src'.(FancySrc.buffer) 0
     = renumbered got src.(FancySrc.next_restart_marker) i)
  ∧ src'.(FancySrc.next_restart_marker)
    = (src.(FancySrc.next_restart_marker)
       + Z.of_nat (markers_before got (length got))) mod 8
  ∧ if ends_on_ff got
    then src'.(FancySrc.bytes_in_buffer) = Z.of_nat (length got) - 1
         ∧ FancySrc.ftello src'.(FancySrc.infile) = FancySrc.ftello file - 1
    else src'.(FancySrc.bytes_in_buffer) = Z.of_nat (length got)
         ∧ src'.(FancySrc.infile) = file.

(** A fill after the header pass, whatever it read: when bytes were read
    they are renumbered as above; when none was read there is no marker to
    renumber and no FF to give back, the counter and the file stay as they
    are (the source hands out an EOI, or the decoder exits on an empty
    input). *)
Definition fill_outcome (src : FancySrc.my_src_mgr) (got : list Z)
    (file : FILE) (r : res FancySrc.my_src_mgr) : Prop :=
  match got with
  | [] =>
      match r with
      | Ok src' =>
          src'.(FancySrc.next_restart_marker) = src.(FancySrc.next_restart_marker)
          ∧ src'.(FancySrc.bytes_in_buffer) = 2
          ∧ take 2 src'.(FancySrc.buffer) = [0xFF; FancySrc.JPEG_EOI]
          ∧ src'.(FancySrc.infile) = file
      | Err e => e = InputEmpty
      end
  | _ :: _ => ∃ src', r = Ok src' ∧ fill_renumbers src got file src'
  end.

(** The order in which the fragments of a pyramid come: by depth, within a
    depth by row, within a row by column. *)
Definition zyx_lt (a b : fragment) : Prop :=
  a.(fr_z) < b.(fr_z)
  ∨ (a.(fr_z) = b.(fr_z)
     ∧ (a.(fr_y) < b.(fr_y) ∨ (a.(fr_y) = b.(fr_y) ∧ a.(fr_x) < b.(fr_x)))).

(** The restart markers of a scan: for the bytes [bytes] that start at
    offset [pos] of the file, the offsets of the bytes that follow an
    [FF Dn], [n] in 0..7, up to the first EOI [FF D9]. *)
Fixpoint restart_offsets (bytes : list Z) (pos : Z) (last_was_ff : bool)
    : list Z :=
  match bytes with
  | [] => []
  | b :: rest =>
      if last_was_ff && (b =? FancySrc.JPEG_EOI) then []
      else if last_was_ff && FancySrc.is_restart_marker b
           then (pos + 1) :: restart_offsets rest (pos + 1) (b =? 0xFF)
           else restart_offsets rest (pos + 1) (b =? 0xFF)
  end.

(** A depth of a well-formed pyramid: a grid of [g_across × g_down] files
    of [g_width × g_height] pixels each. *)
Record depth_shape := mkShape {
  g_across : Z;
  g_down : Z;
  g_width : Z;
  g_height : Z
}.

Definition g_count (s : depth_shape) : nat := Z.to_nat (s.(g_across) * s.(g_down)).

(** The places [(z, x, y)] of the files of a depth: file number [t],
    counted row by row, is in column [t mod g_across] of row
    [t / g_across]. *)
Definition grid_coords (z : Z) (s : depth_shape) : list (Z * Z * Z) :=
  (fun t : nat => (z, Z.of_nat t mod s.(g_across), Z.of_nat t / s.(g_across)))
  <$> seq 0 (g_count s).

(** The places of the files of a pyramid whose first depth is [z]. *)
Fixpoint pyramid_coords (z : Z) (shape : list depth_shape) : list (Z * Z * Z) :=
  match shape with
  | [] => []
  | s :: rest => grid_coords z s ++ pyramid_coords (z + 1) rest
  end.

(** The sizes [(width, height)] of its files. *)
Definition pyramid_dims (shape : list depth_shape) : list (Z * Z) :=
  s ← shape; replicate (g_count s) (s.(g_width), s.(g_height)).

(** The levels of its depths with their keys, in the order in which they
    are put into the map; the files of the first depth start at index
    [off]. *)
Fixpoint pyramid_levels (off : nat) (layer0_w : Z) (shape : list depth_shape)
    : list (Z * layer) :=
  match shape with
  | [] => []
  | s :: rest =>
      emitted_levels (seq off (g_count s)) s.(g_across) s.(g_down)
        (s.(g_across) * s.(g_width)) (s.(g_down) * s.(g_height))
        s.(g_width) s.(g_height) layer0_w
      ++ pyramid_levels (off + g_count s) layer0_w rest
  end.

Definition pyramid_map (shape : list depth_shape) : gmap Z layer :=
  match shape with
  | [] => ∅
  | s :: _ =>
      insert_all ∅ (pyramid_levels 0 (s.(g_across) * s.(g_width)) shape)
  end.

End Spec.

(** ** Invariants *)

Module Inv.

(** Every layer of the map sits under its published width. *)
Definition keyed (m : gmap Z layer) : Prop :=
  ∀ k l, m !! k = Some l → Pyramid.published_width l = k.

(** What holds of the renumbering loop when it is about to look at
    position [i]: [buf0] is the buffer and [marker0] the counter when the
    loop starts. *)
Definition renumbering (buf0 : list Z) (marker0 : Z) (i : nat)
    (buf : list Z) (last_was_ff : bool) (marker : Z) : Prop :=
  length buf = length buf0
  ∧ (∀ j, (j < i)%nat → nth j buf 0 = Spec.renumbered buf0 marker0 j)
  ∧ (∀ j, (i ≤ j)%nat → nth j buf 0 = nth j buf0 0)
  ∧ last_was_ff = match i with O => false | S j => nth j buf0 0 =? 0xFF end
  ∧ marker = (marker0 + Z.of_nat (Spec.markers_before buf0 i)) mod 8.

(** Two states of a source with the same file contents and the same
    configuration. *)
Definition same_config (a b : FancySrc.my_src_mgr) : Prop :=
  b.(FancySrc.infile).(contents) = a.(FancySrc.infile).(contents)
  ∧ b.(FancySrc.start_positions) = a.(FancySrc.start_positions)
  ∧ b.(FancySrc.start_positions_count) = a.(FancySrc.start_positions_count)
  ∧ b.(FancySrc.topleft) = a.(FancySrc.topleft)
  ∧ b.(FancySrc.width) = a.(FancySrc.width)
  ∧ b.(FancySrc.stride) = a.(FancySrc.stride).

(** The counter of restart markers stays below 8 and the file position is
    never negative. *)
Definition src_ok (src : FancySrc.my_src_mgr) : Prop :=
  0 ≤ src.(FancySrc.next_restart_marker) < 8
  ∧ 0 ≤ src.(FancySrc.infile).(fpos).

(** The window of [height] rows of [width] tiles at tile [(tile_x, tile_y)]
    lies in the grid of [rows] rows of [stride] tiles that the table of
    positions describes. *)
Definition window_in_grid (src : FancySrc.my_src_mgr)
    (tile_x tile_y height rows : Z) : Prop :=
  0 ≤ tile_x ∧ 0 < src.(FancySrc.width)
  ∧ tile_x + src.(FancySrc.width) ≤ src.(FancySrc.stride)
  ∧ 0 ≤ tile_y ∧ 0 < height ∧ tile_y + height ≤ rows
  ∧ src.(FancySrc.topleft) = tile_y * src.(FancySrc.stride) + tile_x
  ∧ src.(FancySrc.start_positions_count) = rows * src.(FancySrc.stride)
  ∧ Z.of_nat (length src.(FancySrc.start_positions))
    = src.(FancySrc.start_positions_count).


(** Scanlines as a decoder returns them: [3 * ow] samples of 8 bits. *)
Definition scanlines_ok (ow : Z) (rows : list (list Z)) : Prop :=
  Forall (fun row =>
            Z.of_nat (length row) = 3 * ow
            ∧ Forall (fun v => 0 ≤ v < 256) row) rows.


(** A layer as the pyramid builder makes it: one of the four scales, one
    file reference per cell of its grid, each into the array of [count]
    files. *)
Definition built_layer (count : nat) (l : layer) : Prop :=
  l.(scale_denom) ∈ [1; 2; 4; 8]
  ∧ length l.(layer_jpegs) = Z.to_nat (l.(jpegs_across) * l.(jpegs_down))
  ∧ Forall (fun i => (i < count)%nat) l.(layer_jpegs).

Definition built_map (count : nat) (m : gmap Z layer) : Prop :=
  ∀ k l, m !! k = Some l → built_layer count l.

(** A store that falls in the rectangle of [h] rows of [w] words which
    starts at word [dst] of a buffer whose rows are [stride] words apart. *)
Definition in_rectangle (dst w h stride : Z) (s : Z * Z) : Prop :=
  ∃ k i, 0 ≤ k < h ∧ 0 ≤ i < w ∧ s.1 = dst + k * stride + i.

(** A stored word of 32 bits whose top byte, the alpha channel, is FF. *)
Definition opaque_word (s : Z * Z) : Prop := 0xFF000000 ≤ s.2 < 2 ^ 32.



(** A table of positions in a file, in ascending order. *)
Definition ascending (positions : list Z) : Prop :=
  Forall (fun p => 0 ≤ p ≤ CInt.INT64_MAX) positions
  ∧ StronglySorted Z.le positions.

(** The file is at or before [stop_position], the table of positions is in
    ascending order, and the buffer has its [INPUT_BUF_SIZE] bytes. *)
Definition within_stop (src : FancySrc.my_src_mgr) : Prop :=
  0 ≤ src.(FancySrc.infile).(fpos) ≤ src.(FancySrc.stop_position)
  ∧ src.(FancySrc.stop_position) ≤ CInt.INT64_MAX
  ∧ ascending src.(FancySrc.start_positions)
  ∧ 0 ≤ src.(FancySrc.width)
  ∧ FancySrc.INPUT_BUF_SIZE ≤ Z.of_nat (length src.(FancySrc.buffer)).

(** A source without a table of positions, past its first fill, whose
    [bytes_in_buffer] bytes from [next_input_byte] on are the bytes of the
    file that end at the position of the file. *)
Definition passthrough (src : FancySrc.my_src_mgr) : Prop :=
  src.(FancySrc.start_positions_count) = 0
  ∧ src.(FancySrc.stop_position) = CInt.INT64_MAX
  ∧ src.(FancySrc.start_of_file) = false
  ∧ Z.of_nat (length src.(FancySrc.infile).(contents)) < CInt.INT64_MAX
  ∧ 0 ≤ src.(FancySrc.next_input_byte)
  ∧ 0 ≤ src.(FancySrc.bytes_in_buffer) ≤ src.(FancySrc.infile).(fpos)
  ∧ src.(FancySrc.infile).(fpos) ≤ Z.of_nat (length src.(FancySrc.infile).(contents))
  ∧ ∀ k : nat, Z.of_nat k < src.(FancySrc.bytes_in_buffer) →
      nth (Z.to_nat src.(FancySrc.next_input_byte) + k) src.(FancySrc.buffer) 0
      = nth (Z.to_nat (src.(FancySrc.infile).(fpos) - src.(FancySrc.bytes_in_buffer)) + k)
          src.(FancySrc.infile).(contents) 0.


(** The source after [k] moves to a next row of tiles: it reads the header
    ([k = 0]) up to the first position of the table, or the row [k - 1] of
    its window, from the position of the first tile of the row up to the
    position of the tile that follows the last one (the end of the file
    when there is none). *)
Definition on_row (k : nat) (src : FancySrc.my_src_mgr) : Prop :=
  src.(FancySrc.next_start_offset)
  = src.(FancySrc.topleft) + (Z.of_nat k - 1) * src.(FancySrc.stride)
  ∧ (k = O →
     src.(FancySrc.next_start_position) = 0
     ∧ src.(FancySrc.start_positions) !! O = Some src.(FancySrc.stop_position))
  ∧ (k ≠ O →
     0 ≤ src.(FancySrc.next_start_offset)
     ∧ src.(FancySrc.start_positions) !! Z.to_nat src.(FancySrc.next_start_offset)
       = Some src.(FancySrc.next_start_position)
     ∧ if src.(FancySrc.next_start_offset) + src.(FancySrc.width)
          <? src.(FancySrc.start_positions_count)
       then src.(FancySrc.start_positions)
              !! Z.to_nat (src.(FancySrc.next_start_offset) + src.(FancySrc.width))
            = Some src.(FancySrc.stop_position)
       else src.(FancySrc.stop_position) = CInt.INT64_MAX)
  ∧ src.(FancySrc.next_start_position) ≤ src.(FancySrc.infile).(fpos)
  ∧ src.(FancySrc.infile).(fpos) ≤ src.(FancySrc.stop_position)
  ∧ (src.(FancySrc.start_of_file) = true → k = O).

(** The locals of [create_width_to_layer_map] when [t] files of a depth
    [z] of shape [s] have gone through the loop, the first of them file
    number [off]; [b] holds the locals at the start of the depth. *)
Definition depth_state (b : Pyramid.builder) (z : Z) (s : Spec.depth_shape)
    (off t : nat) : Pyramid.builder :=
  {| Pyramid.prev_z := match t with O => b.(Pyramid.prev_z) | S _ => z end;
     Pyramid.prev_x :=
       match t with
       | O => b.(Pyramid.prev_x)
       | S t' => Z.of_nat t' mod s.(Spec.g_across)
       end;
     Pyramid.prev_y :=
       match t with
       | O => b.(Pyramid.prev_y)
       | S t' => Z.of_nat t' / s.(Spec.g_across)
       end;
     Pyramid.layer_jpegs_tmp := reverse (seq off t);
     Pyramid.l_pw := Z.min (Z.of_nat t) s.(Spec.g_across) * s.(Spec.g_width);
     Pyramid.l_ph :=
       (Z.of_nat t / s.(Spec.g_across)
        + (if Z.of_nat t mod s.(Spec.g_across) =? 0 then 0 else 1))
       * s.(Spec.g_height);
     Pyramid.img00_w :=
       match t with O => b.(Pyramid.img00_w) | S _ => s.(Spec.g_width) end;
     Pyramid.img00_h :=
       match t with O => b.(Pyramid.img00_h) | S _ => s.(Spec.g_height) end;
     Pyramid.layer0_w := b.(Pyramid.layer0_w);
     Pyramid.width_to_layer_map := b.(Pyramid.width_to_layer_map) |}.

End Inv.

(** ** Concrete inputs *)

Module Examples.

Definition fragment_at (z x y : Z) : fragment :=
  {| fr_f := []; fr_x := x; fr_y := y; fr_z := z |}.

(** A file of [w × h] pixels cut in tiles of 8 × 8 (the table of positions
    plays no part in the pyramid). *)
Definition jpeg_of (w h : Z) : one_jpeg :=
  {| f := []; mcu_starts_count := 0; mcu_starts := [];
     tile_width := 8; tile_height := 8; width := w; height := h |}.

(** Two depths: two files of 64 × 64 side by side, then one of 32 × 32. *)
Definition two_depths : list fragment :=
  [fragment_at 0 0 0; fragment_at 0 1 0; fragment_at 1 0 0].
Definition two_depths_jpegs : list one_jpeg :=
  [jpeg_of 64 64; jpeg_of 64 64; jpeg_of 32 32].

Definition no_slide : openslide :=
  {| layer_count := 0; all_jpegs := []; layers := [] |}.

Definition two_depths_osr : openslide :=
  match Pyramid._openslide_add_jpeg_ops two_depths two_depths_jpegs with
  | Ok osr => osr
  | Err _ => no_slide
  end.

(** A single fragment whose depth is [-1]. *)
Definition below_zero : list fragment := [fragment_at (-1) 0 0].
Definition below_zero_jpegs : list one_jpeg := [jpeg_of 64 64].

(** A file with a header of two bytes and three tiles, the first two
    closed by the markers RST3 and RST5, the last byte an FF; the source is
    set to the one row of three tiles. *)
Definition marked_file : FILE :=
  {| contents := [0xFF; 0xD8; 0x11; 0xFF; 0xD3; 0x22; 0xFF; 0xD5; 0x33; 0xFF];
     fpos := 10 |}.
Definition marked_positions : list Z := [2; 5; 8].

Definition marked_src : res FancySrc.my_src_mgr :=
  FancySrc.init_source
    (FancySrc._openslide_jpeg_fancy_src (FancySrc.rewind marked_file)
       (replicate 16 0) marked_positions 3 0 3 3).

Definition after_fills (n : nat) (start : res FancySrc.my_src_mgr)
    : FancySrc.my_src_mgr :=
  match start ≫= FancySrc.fill_n n with
  | Ok src => src
  | Err _ =>
      FancySrc._openslide_jpeg_fancy_src (FancySrc.rewind marked_file) [] [] 0 0 0 0
  end.

(** The same file with the source set to the first two tiles of its one
    row: the row ends before the end of the file. *)
Definition marked_src_two_tiles : res FancySrc.my_src_mgr :=
  FancySrc.init_source
    (FancySrc._openslide_jpeg_fancy_src (FancySrc.rewind marked_file)
       (replicate 16 0) marked_positions 3 0 2 3).

(** The source of the index pass (no table of positions) once libjpeg has
    read a header of [header] bytes of [file] through it. *)
Definition header_read (file : FILE) (header : nat) : res FancySrc.my_src_mgr :=
  s ← FancySrc.init_source
        (FancySrc._openslide_jpeg_fancy_src (FancySrc.rewind file)
           (replicate 16 0) [] 0 0 0 0);
  s ← FancySrc.fill_input_buffer s;
  Ok (Nat.iter header FancySrc.set_consumed s).

(** Three MCUs in one row and a restart interval of two: the scan holds one
    restart marker. *)
Definition odd_cinfo : Index.jpeg_decompress_struct :=
  {| Index.MCUs_per_row := 3; Index.MCU_rows_in_scan := 1;
     Index.restart_interval := 2;
     Index.output_width := 24; Index.output_height := 8 |}.
Definition odd_file : FILE :=
  {| contents := [0xFF; 0xD8; 0x11; 0xFF; 0xD0; 0x22; 0xFF; 0xD9]; fpos := 0 |}.
Definition odd_src : FancySrc.my_src_mgr := after_fills 0 (header_read odd_file 2).


(** Two rows of four MCUs of 8 × 8 pixels and a restart interval of two:
    four runs, three restart markers, tiles of 16 × 8 pixels. *)
Definition regular_cinfo : Index.jpeg_decompress_struct :=
  {| Index.MCUs_per_row := 4; Index.MCU_rows_in_scan := 2;
     Index.restart_interval := 2;
     Index.output_width := 32; Index.output_height := 16 |}.
Definition regular_file : FILE :=
  {| contents := [0xFF; 0xD8; 0x11; 0xFF; 0xD0; 0x22; 0xFF; 0xD1;
                  0x33; 0xFF; 0xD2; 0x44; 0xFF; 0xD9];
     fpos := 0 |}.
Definition regular_src : FancySrc.my_src_mgr :=
  after_fills 0 (header_read regular_file 2).

(** The level of [two_depths_osr] at index [i]. *)
Definition level (i : nat) : layer :=
  match two_depths_osr.(layers) !! i with
  | Some l => l
  | None =>
      {| layer_jpegs := []; pixel_w := 0; pixel_h := 0;
         jpegs_across := 0; jpegs_down := 0; image00_w := 0; image00_h := 0;
         scale_denom := 0; no_scale_denom_downsample := S754_nan |}
  end.

(** The level of width 32 and scale 1: it is cut from the depth of a quarter
    of the full width. *)
Definition quarter_level : layer := level 2.

(** The call that a request of 4 × 4 pixels at [(8, 8)] makes on it. *)
Definition quarter_call : Ops.jpeg_call :=
  match Ops.route_region quarter_level 8 8 4 4 with
  | Ok (c :: _) => c
  | _ =>
      {| Ops.c_file_x := 0; Ops.c_file_y := 0; Ops.c_jpeg := 0;
         Ops.c_dest := 0; Ops.c_x := 0; Ops.c_y := 0;
         Ops.c_scale_denom := 0; Ops.c_w := 0; Ops.c_h := 0;
         Ops.c_stride := 0 |}
  end.

(** A file of one tile of 2 × 3 pixels, and a decoder that returns its
    three scanlines in a group of two and a group of one. *)
Definition tiny_jpeg : one_jpeg :=
  {| f := []; mcu_starts_count := 1; mcu_starts := [2];
     tile_width := 2; tile_height := 3; width := 2; height := 3 |}.
Definition tiny_decoded : Ops.decoded :=
  {| Ops.output_width := 2;
     Ops.scanlines := [[[1; 2; 3; 4; 5; 6]; [7; 8; 9; 10; 11; 12]];
                       [[13; 14; 15; 16; 17; 18]]] |}.
Definition tiny_decompress (jpeg : one_jpeg)
    (topleft width_in_tiles stride_in_tiles scale_denom : Z)
    (image_width image_height : Z) : Ops.decoded :=
  tiny_decoded.

(** [marked_src] with a buffer of [INPUT_BUF_SIZE] bytes. *)
Definition marked_src_full : res FancySrc.my_src_mgr :=
  FancySrc.init_source
    (FancySrc._openslide_jpeg_fancy_src (FancySrc.rewind marked_file)
       (replicate 4096 0) marked_positions 3 0 3 3).

(** A file of 2 × 2 tiles of 8 × 8 pixels with its table of positions. *)
Definition tiled_jpeg : one_jpeg :=
  {| f := []; mcu_starts_count := 4; mcu_starts := [2; 5; 8; 11];
     tile_width := 8; tile_height := 8; width := 16; height := 16 |}.

(** What the index pass makes of [regular_file]: 2 × 2 tiles of 16 × 8
    pixels. *)
Definition regular_jpeg : one_jpeg :=
  {| f := []; mcu_starts_count := 4; mcu_starts := [2; 5; 8; 11];
     tile_width := 16; tile_height := 8; width := 32; height := 16 |}.

End Examples.

(** * Properties *)

(** ** The error monad *)

Lemma bind_Ok {A B} (m : res A) (k : A -> res B) (b : B) :
  (m ≫= k) = Ok b ↔ ∃ a, m = Ok a ∧ k a = Ok b.
Proof.
  destruct m as [a|e]; simpl; split.
  - intros H. exists a. auto.
  - intros (a' & Ha & Hk). injection Ha as ->. exact Hk.
  - discriminate.
  - intros (a' & Ha & _). discriminate.
Qed.

Lemma Ok_inj {A} (a b : A) : Ok a = Ok b → a = b.
Proof. intros H. injection H as H. exact H. Qed.

Lemma g_assert_Ok a b u : g_assert a b = Ok u ↔ b = true.
Proof. unfold g_assert. destruct b, u; split; intros; congruence. Qed.

(** Splits a hypothesis [(x ← m; k) = Ok v] into its two halves. *)
Ltac inv_bind H :=
  let a := fresh "a" in
  let Ha := fresh "Ha" in
  apply bind_Ok in H; destruct H as (a & Ha & H).

Tactic Notation "inv_res" hyp(H) "as" ident(a) ident(Ha) :=
  apply bind_Ok in H; destruct H as (a & Ha & H).

(** ** Fragment order *)

Section fragment_order.
Import Pyramid.

Lemma is_zxy_successor_spec pz px py z x y :
  is_zxy_successor pz px py z x y = true ↔ Spec.zxy_successor pz px py z x y.
Proof.
  unfold is_zxy_successor, Spec.zxy_successor.
  destruct (Z.eqb_spec z (pz + 1)) as [->|Hz1].
  { rewrite andb_true_iff, !Z.eqb_eq. split; [intros []; auto | ].
    intros [(_ & -> & ->) | [(Hz & _) | (Hz & _)]]; [auto | lia | lia]. }
  destruct (Z.eqb_spec z pz) as [->|Hz]; simpl.
  2:{ split; [discriminate | intros [(? & _) | [(? & _) | (? & _)]]; lia]. }
  destruct (Z.eqb_spec y (py + 1)) as [->|Hy1].
  { rewrite Z.eqb_eq. split; [auto | ].
    intros [(? & _) | [(_ & _ & ->) | (_ & ? & _)]]; [lia | auto | lia]. }
  destruct (Z.eqb_spec y py) as [->|Hy]; simpl.
  2:{ split; [discriminate | intros [(? & _) | [(_ & ? & _) | (_ & ? & _)]]; lia]. }
  rewrite Z.eqb_eq. split; [auto | ].
  intros [(? & _) | [(_ & ? & _) | (_ & _ & ->)]]; [lia | lia | auto].
Qed.

Lemma builder_step_prev jpegs i fr next b b' :
  builder_step jpegs i fr next b = Ok b' →
  Spec.zxy_successor b.(prev_z) b.(prev_x) b.(prev_y)
    fr.(fr_z) fr.(fr_x) fr.(fr_y)
  ∧ b'.(prev_z) = fr.(fr_z) ∧ b'.(prev_x) = fr.(fr_x) ∧ b'.(prev_y) = fr.(fr_y).
Proof.
  unfold builder_step. intros H.
  inv_bind H. apply g_assert_Ok, is_zxy_successor_spec in Ha.
  split; [exact Ha | ].
  inv_bind H. clear Ha0.
  destruct ((fr_x fr =? 0) && (fr_y fr =? 0)).
  all: destruct (match next with None => true | Some nx => _ end).
  all: try (inv_bind H); injection H as <-; auto.
Qed.

(** A list that the builder takes is a chain of successors. *)
Lemma builder_loop_chain jpegs fragments : ∀ i b b',
  builder_loop jpegs i fragments b = Ok b' →
  Spec.zxy_chain b.(prev_z) b.(prev_x) b.(prev_y) fragments.
Proof.
  induction fragments as [|fr rest IH]; intros i b b' H; simpl in *; [exact I | ].
  inv_bind H. apply builder_step_prev in Ha as (Hs & Hz & Hx & Hy).
  split; [exact Hs | ].
  apply IH in H. rewrite Hz, Hx, Hy in H. exact H.
Qed.

(** With coordinates that are not negative, a list that
    [create_width_to_layer_map] takes starts at [(0, 0, 0)] and every
    consecutive pair is in the successor relation; a list that is not such a
    chain is refused. *)
Lemma create_width_to_layer_map_order fragments jpegs :
  (∃ m, create_width_to_layer_map fragments jpegs = Ok m) →
  Spec.zxy_chain (-1) (-1) (-1) fragments
  ∧ ∀ fr, head fragments = Some fr → 0 ≤ fr.(fr_z) →
      fr.(fr_z) = 0 ∧ fr.(fr_x) = 0 ∧ fr.(fr_y) = 0.
Proof.
  intros [m H]. unfold create_width_to_layer_map in H. inv_bind H.
  apply builder_loop_chain in Ha. simpl in Ha.
  split; [exact Ha | ].
  intros fr Hhd Hz. destruct fragments as [|fr' rest]; [discriminate | ].
  injection Hhd as ->. destruct Ha as [Hs _].
  destruct Hs as [(? & ? & ?) | [(? & _) | (? & _)]]; lia.
Qed.

Lemma create_width_to_layer_map_rejects fragments jpegs :
  ¬ Spec.zxy_chain (-1) (-1) (-1) fragments →
  ∃ e, create_width_to_layer_map fragments jpegs = Err e.
Proof.
  intros Hn. destruct (create_width_to_layer_map fragments jpegs) as [m|e] eqn:E.
  - exfalso. apply Hn.
    apply (create_width_to_layer_map_order fragments jpegs). eauto.
  - eauto.
Qed.

End fragment_order.

(** ** The four levels of a depth *)

Section emitted_levels.
Import Pyramid.

Lemma generate_layers_into_map_eq jpegs across down pw ph iw ih l0w m :
  generate_layers_into_map jpegs across down pw ph iw ih l0w m
  = (lj ← copy_layer_jpegs (Z.to_nat (across * down)) jpegs;
     Ok (Spec.insert_all m (Spec.emitted_levels lj across down pw ph iw ih l0w))).
Proof.
  unfold generate_layers_into_map, generate_layers_loop, make_layer.
  destruct (copy_layer_jpegs (Z.to_nat (across * down)) jpegs) as [lj|e];
    reflexivity.
Qed.

(** The copy of the pointers succeeds exactly when the list is long enough,
    and takes its first [num_jpegs] elements. *)
Lemma copy_layer_jpegs_take n : ∀ jj,
  (n ≤ length jj)%nat → copy_layer_jpegs n jj = Ok (take n jj).
Proof.
  induction n as [|n IH]; intros jj Hn; simpl; [reflexivity | ].
  destruct jj as [|d next]; simpl in *; [lia | ].
  rewrite IH by lia. reflexivity.
Qed.

Lemma copy_layer_jpegs_short n : ∀ jj,
  (length jj < n)%nat → copy_layer_jpegs n jj = Err (AssertFailed assert_jj).
Proof.
  induction n as [|n IH]; intros jj Hn; simpl; [lia | ].
  destruct jj as [|d next]; simpl in *; [reflexivity | ].
  rewrite IH by lia. reflexivity.
Qed.


End emitted_levels.

(** ** Every entry of the map is keyed by its published width *)

Section keyed.
Import Pyramid Inv.

Lemma keyed_empty : keyed ∅.
Proof. intros k l H. rewrite lookup_empty in H. discriminate. Qed.

Lemma keyed_insert m k l :
  keyed m → published_width l = k → keyed (<[k := l]> m).
Proof.
  intros Hm Hk k' l' H. destruct (decide (k = k')) as [<-|Hne].
  - rewrite lookup_insert_eq in H. injection H as <-. exact Hk.
  - rewrite lookup_insert_ne in H by exact Hne. apply Hm, H.
Qed.

Lemma keyed_delete m k : keyed m → keyed (delete k m).
Proof.
  intros Hm k' l' H. destruct (decide (k = k')) as [<-|Hne].
  - rewrite lookup_delete_eq in H. discriminate.
  - rewrite lookup_delete_ne in H by exact Hne. apply Hm, H.
Qed.

Lemma keyed_insert_all kls : ∀ m,
  keyed m → Forall (fun kl => published_width kl.2 = kl.1) kls →
  keyed (Spec.insert_all m kls).
Proof.
  unfold Spec.insert_all.
  induction kls as [|kl kls IH]; intros m Hm Hk; simpl; [exact Hm | ].
  inversion Hk; subst. apply IH; [ | assumption]. apply keyed_insert; assumption.
Qed.

Lemma generate_layers_into_map_keyed jpegs across down pw ph iw ih l0w m m' :
  keyed m →
  generate_layers_into_map jpegs across down pw ph iw ih l0w m = Ok m' →
  keyed m'.
Proof.
  intros Hm H. rewrite generate_layers_into_map_eq in H.
  destruct (copy_layer_jpegs (Z.to_nat (across * down)) jpegs) as [lj|e];
    [ | discriminate].
  apply Ok_inj in H. subst m'. apply keyed_insert_all; [exact Hm | ].
  unfold Spec.emitted_levels, published_width. simpl. repeat constructor.
Qed.

Lemma builder_step_keyed jpegs i fr next b b' :
  keyed b.(width_to_layer_map) →
  builder_step jpegs i fr next b = Ok b' →
  keyed b'.(width_to_layer_map).
Proof.
  unfold builder_step. intros Hm H.
  inv_bind H. clear Ha. inv_bind H. clear Ha.
  destruct ((fr_x fr =? 0) && (fr_y fr =? 0)).
  all: destruct (match next with None => true | Some nx => _ end).
  all: try (inv_bind H; apply generate_layers_into_map_keyed in Ha; [ | exact Hm]).
  all: injection H as <-; simpl; assumption.
Qed.

Lemma builder_loop_keyed jpegs fragments : ∀ i b b',
  keyed b.(width_to_layer_map) →
  builder_loop jpegs i fragments b = Ok b' →
  keyed b'.(width_to_layer_map).
Proof.
  induction fragments as [|fr rest IH]; intros i b b' Hm H; simpl in H.
  - injection H as <-. exact Hm.
  - inv_bind H. eapply IH; [ | exact H]. eapply builder_step_keyed; eauto.
Qed.

Lemma create_width_to_layer_map_keyed fragments jpegs m :
  create_width_to_layer_map fragments jpegs = Ok m → keyed m.
Proof.
  unfold create_width_to_layer_map. intros H. inv_bind H. injection H as <-.
  eapply builder_loop_keyed; [ | exact Ha]. apply keyed_empty.
Qed.

Lemma load_layers_keyed keys : ∀ m ls,
  keyed m → load_layers m keys = Ok ls →
  Forall2 (fun k l => published_width l = k) keys ls.
Proof.
  induction keys as [|k keys IH]; intros m ls Hm H; simpl in H.
  - injection H as <-. constructor.
  - destruct (m !! k) as [l|] eqn:E; [ | discriminate].
    inv_bind H. injection H as <-. constructor.
    + apply Hm in E. exact E.
    + eapply IH; [ | exact Ha]. apply keyed_delete, Hm.
Qed.

End keyed.

(** ** g_list_sort *)

Section sort_facts.
Import Pyramid.
Context {A : Type} (compare_func : A -> A -> res Z) (R : relation A).
Hypothesis compare_le : ∀ a b c, compare_func a b = Ok c → c ≤ 0 → R a b.
Hypothesis compare_gt : ∀ a b c, compare_func a b = Ok c → 0 < c → R b a.

Lemma g_list_sort_merge_cons x1 l1 x2 l2 :
  g_list_sort_merge compare_func (x1 :: l1) (x2 :: l2)
  = (cmp ← compare_func x1 x2;
     if cmp <=? 0
     then r ← g_list_sort_merge compare_func l1 (x2 :: l2); Ok (x1 :: r)
     else r ← g_list_sort_merge compare_func (x1 :: l1) l2; Ok (x2 :: r)).
Proof. reflexivity. Qed.

Lemma g_list_sort_merge_nil_r l1 : g_list_sort_merge compare_func l1 [] = Ok l1.
Proof. destruct l1; reflexivity. Qed.

Lemma g_list_sort_merge_sorted l1 : ∀ l2 r,
  Sorted R l1 → Sorted R l2 →
  g_list_sort_merge compare_func l1 l2 = Ok r →
  r ≡ₚ l1 ++ l2
  ∧ Sorted R r
  ∧ ∀ a, HdRel R a l1 → HdRel R a l2 → HdRel R a r.
Proof.
  induction l1 as [|x1 l1 IH1].
  { intros l2 r _ H2 H. simpl in H. destruct l2; apply Ok_inj in H; subst r; auto. }
  induction l2 as [|x2 l2 IH2]; intros r H1 H2 H.
  { rewrite g_list_sort_merge_nil_r in H. apply Ok_inj in H. subst r.
    rewrite app_nil_r. auto. }
  rewrite g_list_sort_merge_cons in H. inv_bind H.
  destruct (Z.leb_spec a 0) as [Hc|Hc].
  - inv_bind H. apply Ok_inj in H. subst r.
    apply Sorted_inv in H1 as [H1 Hh1].
    destruct (IH1 _ _ H1 H2 Ha0) as (Hp & Hs & Hh).
    split; [simpl; rewrite Hp; reflexivity | ].
    split.
    + constructor; [exact Hs | ]. apply Hh; [exact Hh1 | ].
      constructor. eapply compare_le; eauto.
    + intros b Hb _. inversion Hb; subst. constructor. assumption.
  - inv_bind H. apply Ok_inj in H. subst r.
    pose proof H2 as H2'. apply Sorted_inv in H2' as [H2' Hh2].
    destruct (IH2 _ H1 H2' Ha0) as (Hp & Hs & Hh).
    split; [rewrite Hp; apply Permutation_middle | ].
    split.
    + constructor; [exact Hs | ]. apply Hh; [ | exact Hh2].
      constructor. eapply compare_gt; eauto.
    + intros b _ Hb. inversion Hb; subst. constructor. assumption.
Qed.

Lemma g_list_sort_real_sorted fuel : ∀ l r,
  g_list_sort_real compare_func fuel l = Ok r → r ≡ₚ l ∧ Sorted R r.
Proof.
  induction fuel as [|fuel IH]; intros l r H.
  - destruct l as [|a [|b l]]; simpl in H; try discriminate.
    all: apply Ok_inj in H; subst r; split; [reflexivity | repeat constructor].
  - destruct l as [|a [|b l]].
    1,2: simpl in H; apply Ok_inj in H; subst r; split;
      [reflexivity | repeat constructor].
    remember (a :: b :: l) as l0 eqn:El0.
    assert (Hstep : g_list_sort_real compare_func (S fuel) l0
              = (s1 ← g_list_sort_real compare_func fuel (take (length l0 / 2) l0);
                 s2 ← g_list_sort_real compare_func fuel (drop (length l0 / 2) l0);
                 g_list_sort_merge compare_func s1 s2))
      by (subst l0; reflexivity).
    rewrite Hstep in H. clear Hstep.
    inv_bind H. inv_bind H.
    apply IH in Ha as [Hp1 Hs1]. apply IH in Ha0 as [Hp2 Hs2].
    destruct (g_list_sort_merge_sorted _ _ _ Hs1 Hs2 H) as (Hp & Hs & _).
    split; [ | exact Hs].
    rewrite Hp, Hp1, Hp2. rewrite take_drop. reflexivity.
Qed.

Lemma g_list_sort_sorted l r :
  g_list_sort compare_func l = Ok r → r ≡ₚ l ∧ Sorted R r.
Proof. apply g_list_sort_real_sorted. Qed.


End sort_facts.

(** ** The level array *)

Section level_array.
Import Pyramid Inv.

Lemma width_compare_le a b c : width_compare a b = Ok c → c ≤ 0 → b ≤ a.
Proof.
  unfold width_compare. intros H Hc. inv_bind H. apply Ok_inj in H. subst c.
  destruct (Z.ltb_spec a b); [ | lia].
  rewrite Z.gtb_ltb in Hc. destruct (Z.ltb_spec b a); simpl in Hc; lia.
Qed.

Lemma width_compare_gt a b c : width_compare a b = Ok c → 0 < c → a ≤ b.
Proof.
  unfold width_compare. intros H Hc. inv_bind H. apply Ok_inj in H. subst c.
  destruct (Z.ltb_spec a b); [lia | ].
  rewrite Z.gtb_ltb in Hc. destruct (Z.ltb_spec b a); simpl in Hc; lia.
Qed.

Lemma sorted_keys_descending keys sorted :
  g_list_sort width_compare keys = Ok sorted →
  sorted ≡ₚ keys ∧ StronglySorted (fun a b => b ≤ a) sorted.
Proof.
  intros H.
  apply (g_list_sort_sorted width_compare (fun a b => b ≤ a)) in H as [Hp Hs].
  - split; [exact Hp | ]. apply Sorted_StronglySorted; [ | exact Hs].
    intros a b c ? ?. lia.
  - apply width_compare_le.
  - intros a b c Hc ?. eapply width_compare_gt; eauto.
Qed.

Lemma StronglySorted_lookup {A} (R : relation A) (l : list A) :
  StronglySorted R l →
  ∀ (i j : nat) a b, (i < j)%nat → l !! i = Some a → l !! j = Some b → R a b.
Proof.
  induction 1 as [|x l Hs IH Hall]; intros i j a b Hij Hi Hj.
  - rewrite lookup_nil in Hi. discriminate.
  - destruct j as [|j]; [lia | ]. simpl in Hj. destruct i as [|i]; simpl in Hi.
    + injection Hi as <-. rewrite Forall_forall in Hall. apply Hall.
      eapply list_elem_of_lookup_2. exact Hj.
    + eapply IH; [ | exact Hi | exact Hj]. lia.
Qed.

(** C6.  When [_openslide_add_jpeg_ops] completes, the layer array is in
    descending order of published width [pixel_w / scale_denom]: for
    indices [i < j] the published width of [layers[i]] is at least that of
    [layers[j]]. *)
Theorem layers_sorted_by_published_width fragments jpegs osr :
  _openslide_add_jpeg_ops fragments jpegs = Ok osr →
  ∀ (i j : nat) li lj, (i < j)%nat →
    osr.(layers) !! i = Some li → osr.(layers) !! j = Some lj →
    published_width lj ≤ published_width li.
Proof.
  unfold _openslide_add_jpeg_ops. intros H i j li lj Hij Hi Hj.
  inv_res H as m Hm. apply create_width_to_layer_map_keyed in Hm.
  inv_res H as keys Hkeys. apply sorted_keys_descending in Hkeys as [_ Hs].
  inv_res H as ls Hls. apply Ok_inj in H. subst osr. simpl in Hi, Hj.
  pose proof (load_layers_keyed _ _ _ Hm Hls) as Hk.
  destruct (Forall2_lookup_r _ _ _ _ _ Hk Hi) as (ki & Hki & Hwi).
  destruct (Forall2_lookup_r _ _ _ _ _ Hk Hj) as (kj & Hkj & Hwj).
  rewrite Hwi, Hwj.
  exact (StronglySorted_lookup _ _ Hs i j ki kj Hij Hki Hkj).
Qed.

End level_array.


(** A run of [_openslide_add_jpeg_ops] on two depths: the first and the last
    of its six levels. *)
Lemma layers_sorted_by_published_width_witness :
  Pyramid.published_width (Examples.level 5)
  ≤ Pyramid.published_width (Examples.level 0).
Proof.
  apply (layers_sorted_by_published_width
           Examples.two_depths Examples.two_depths_jpegs
           Examples.two_depths_osr) with (i := 0%nat) (j := 5%nat).
  - vm_compute. reflexivity.
  - lia.
  - vm_compute. reflexivity.
  - vm_compute. reflexivity.
Defined.


(** C4 (the code on the failing input).  [_openslide_add_jpeg_ops] takes the
    list whose only fragment is [(z, x, y) = (-1, 0, 0)]: against the initial
    [prev_z = prev_x = prev_y = -1], [is_zxy_successor] finds [z == pz] and
    [y == py + 1] and [x == 0].  So an accepted list need not start at
    [(0, 0, 0)]. *)
Theorem setup_accepts_first_fragment_below_zero :
  is_ok (Pyramid._openslide_add_jpeg_ops
           Examples.below_zero Examples.below_zero_jpegs) = true
  ∧ ∀ fr, head Examples.below_zero = Some fr → fr.(fr_z) ≠ 0.
Proof.
  split; [vm_compute; reflexivity | ].
  intros fr H. injection H as <-. discriminate.
Qed.

(** ** Renumbering the restart markers *)

Section renumbering.
Import FancySrc Inv.

Lemma nth_insert_eq (l : list Z) (i : nat) (x d : Z) :
  (i < length l)%nat → nth i (<[i := x]> l) d = x.
Proof. intros H. rewrite nth_lookup, list_lookup_insert_eq by exact H. reflexivity. Qed.

Lemma nth_insert_ne (l : list Z) (i j : nat) (x d : Z) :
  i ≠ j → nth j (<[i := x]> l) d = nth j l d.
Proof. intros H. rewrite !nth_lookup, list_lookup_insert_ne by exact H. reflexivity. Qed.

Lemma below_8_cases (m : Z) :
  0 ≤ m < 8 → m = 0 ∨ m = 1 ∨ m = 2 ∨ m = 3 ∨ m = 4 ∨ m = 5 ∨ m = 6 ∨ m = 7.
Proof. lia. Qed.

Lemma marker_byte (m : Z) :
  0 ≤ m < 8 → CInt.uint8 (Z.lor 0xD0 m) = Z.lor 0xD0 (Z.land m 7).
Proof.
  intros H. apply below_8_cases in H.
  repeat (destruct H as [->|H]; [reflexivity | ]). subst m. reflexivity.
Qed.

Lemma marker_next (m : Z) :
  0 ≤ m < 8 → CInt.uint8 (Z.rem (m + 1) 8) = (m + 1) mod 8.
Proof.
  intros H. apply below_8_cases in H.
  repeat (destruct H as [->|H]; [reflexivity | ]). subst m. reflexivity.
Qed.

Lemma rewrite_markers_loop_renumbering buf0 marker0 n : ∀ i buf lwf marker,
  (i + n ≤ length buf0)%nat →
  renumbering buf0 marker0 i buf lwf marker →
  ∀ buf' lwf' marker',
    rewrite_markers_loop n i buf lwf marker = (buf', lwf', marker') →
    renumbering buf0 marker0 (i + n) buf' lwf' marker'.
Proof.
  induction n as [|n IH]; intros i buf lwf marker Hlen Hinv buf' lwf' marker' H.
  { simpl in H. injection H as <- <- <-. rewrite Nat.add_0_r. exact Hinv. }
  simpl in H. destruct Hinv as (Hl & Hlt & Hge & Hff & Hm).
  replace (i + S n)%nat with (S i + n)%nat by lia.
  assert (Hb : nth i buf 0 = nth i buf0 0) by (apply Hge; lia).
  assert (Hat : lwf && is_restart_marker (nth i buf 0) = Spec.marker_at buf0 i).
  { rewrite Hb, Hff. destruct i; reflexivity. }
  assert (Hrange : 0 ≤ marker < 8) by (rewrite Hm; apply Z.mod_pos_bound; lia).
  rewrite Hat in H. destruct (Spec.marker_at buf0 i) eqn:Em.
  - eapply IH; [lia | | exact H]. repeat split.
    + rewrite length_insert. exact Hl.
    + intros j Hj. destruct (decide (j = i)) as [->|Hne].
      * rewrite nth_insert_eq by lia. unfold Spec.renumbered. rewrite Em.
        rewrite marker_byte by exact Hrange. rewrite Hm. reflexivity.
      * rewrite nth_insert_ne by auto. apply Hlt. lia.
    + intros j Hj. rewrite nth_insert_ne by lia. apply Hge. lia.
    + rewrite Hb. reflexivity.
    + rewrite marker_next by exact Hrange. simpl. rewrite Em, Hm.
      rewrite Z.add_mod_idemp_l by lia. f_equal. lia.
  - eapply IH; [lia | | exact H]. repeat split.
    + exact Hl.
    + intros j Hj. destruct (decide (j = i)) as [->|Hne].
      * unfold Spec.renumbered. rewrite Em. exact Hb.
      * apply Hlt. lia.
    + intros j Hj. apply Hge. lia.
    + rewrite Hb. reflexivity.
    + simpl. rewrite Em, Hm. f_equal. lia.
Qed.

(** A byte sequence and its extension agree on where the markers are. *)
Lemma marker_at_app got tail i :
  (i < length got)%nat → Spec.marker_at (got ++ tail) i = Spec.marker_at got i.
Proof.
  intros H. destruct i as [|j]; [reflexivity | ]. simpl.
  rewrite !app_nth1 by lia. reflexivity.
Qed.

Lemma markers_before_app got tail i :
  (i ≤ length got)%nat →
  Spec.markers_before (got ++ tail) i = Spec.markers_before got i.
Proof.
  induction i as [|i IH]; intros H; [reflexivity | ]. simpl.
  rewrite IH by lia. rewrite marker_at_app by lia. reflexivity.
Qed.

Lemma renumbered_app got tail marker i :
  (i < length got)%nat →
  Spec.renumbered (got ++ tail) marker i = Spec.renumbered got marker i.
Proof.
  intros H. unfold Spec.renumbered.
  rewrite marker_at_app, markers_before_app, app_nth1 by lia. reflexivity.
Qed.

(** The loop as [fill_input_buffer] runs it on the bytes just read. *)
Lemma rewrite_markers_loop_spec got tail marker buf' lwf' marker' :
  0 ≤ marker < 8 →
  rewrite_markers_loop (length got) 0 (got ++ tail) false marker
    = (buf', lwf', marker') →
  (∀ i, (i < length got)%nat → nth i buf' 0 = Spec.renumbered got marker i)
  ∧ marker' = (marker + Z.of_nat (Spec.markers_before got (length got))) mod 8
  ∧ lwf' && (Z.of_nat (length got) >? 1) = Spec.ends_on_ff got.
Proof.
  intros Hm H.
  apply (rewrite_markers_loop_renumbering (got ++ tail) marker) in H.
  - simpl in H. destruct H as (_ & Hlt & _ & Hff & Hmk). repeat split.
    + intros i Hi. rewrite Hlt by exact Hi. apply renumbered_app, Hi.
    + rewrite Hmk, markers_before_app by lia. reflexivity.
    + rewrite Hff. unfold Spec.ends_on_ff. rewrite Z.gtb_ltb.
      destruct (length got) as [|k] eqn:Ek.
      { apply length_zero_iff_nil in Ek. subst got. reflexivity. }
      replace (S k - 1)%nat with k by lia.
      rewrite app_nth1 by lia. reflexivity.
  - rewrite length_app. lia.
  - repeat split; try reflexivity; try lia.
    simpl. rewrite Z.add_0_r, Z.mod_small by lia. reflexivity.
Qed.

End renumbering.

(** ** What a fill keeps *)

Section fill_keeps.
Import FancySrc Inv.

Lemma same_config_refl src : same_config src src.
Proof. repeat split. Qed.

Lemma same_config_trans a b c : same_config a b → same_config b c → same_config a c.
Proof.
  unfold same_config. intros (? & ? & ? & ? & ? & ?) (? & ? & ? & ? & ? & ?).
  repeat split; congruence.
Qed.

Lemma compute_next_positions_keeps src src' :
  compute_next_positions src = Ok src' →
  same_config src src'
  ∧ src'.(infile) = src.(infile)
  ∧ src'.(buffer) = src.(buffer)
  ∧ src'.(start_of_file) = src.(start_of_file)
  ∧ src'.(next_restart_marker) = src.(next_restart_marker).
Proof.
  unfold compute_next_positions. intros H.
  destruct (start_positions_count src =? 0).
  { apply Ok_inj in H. subst src'. repeat split. }
  destruct (start_of_file src) eqn:Es.
  { inv_bind H. inv_bind H. apply Ok_inj in H. subst src'.
    repeat split. simpl. congruence. }
  inv_bind H. inv_bind H. inv_bind H. apply Ok_inj in H. subst src'.
  repeat split. simpl. congruence.
Qed.

Lemma fseeko_fpos file offset : 0 ≤ file.(fpos) → 0 ≤ (fseeko file offset).(fpos).
Proof.
  intros H. unfold fseeko. destruct (Z.ltb_spec offset 0); simpl; lia.
Qed.

Lemma fseeko_contents file offset : (fseeko file offset).(contents) = file.(contents).
Proof. unfold fseeko. destruct (offset <? 0); reflexivity. Qed.

Lemma fill_seek_keeps src rw src1 n :
  fill_seek src = Ok (rw, src1, n) →
  same_config src src1
  ∧ src1.(buffer) = src.(buffer)
  ∧ src1.(start_of_file) = src.(start_of_file)
  ∧ src1.(next_restart_marker) = src.(next_restart_marker)
  ∧ (0 ≤ src.(infile).(fpos) → 0 ≤ src1.(infile).(fpos)).
Proof.
  unfold fill_seek. intros H. inv_bind H. inv_bind H.
  destruct (ftello (infile src) <? stop_position src).
  { injection H as _ <- _. repeat split. auto. }
  destruct (ftello (infile src) =? stop_position src).
  2:{ injection H as _ <- _. repeat split. auto. }
  inv_bind H. injection H as _ <- _.
  apply compute_next_positions_keeps in Ha1 as (Hc & Hf & Hb & Hs & Hm).
  simpl. repeat split; try apply Hc; try assumption.
  - simpl. rewrite fseeko_contents, Hf. reflexivity.
  - intros Hp. apply fseeko_fpos. rewrite Hf. exact Hp.
Qed.

(** After the header pass the markers are renumbered: the flag that
    [fill_input_buffer] computes is set exactly when a table of positions
    is configured and the file is at or past [start_positions[0]]. *)
Lemma fill_seek_rewrite_markers src rw src1 n :
  fill_seek src = Ok (rw, src1, n) →
  rw = true ↔
    src.(start_positions_count) ≠ 0
    ∧ ∃ p0, position_at src 0 = Ok p0 ∧ p0 ≤ ftello src.(infile).
Proof.
  unfold fill_seek. intros H. inv_res H as rw' Hrw.
  assert (rw = rw') as ->.
  { inv_bind H.
    destruct (ftello (infile src) <? stop_position src); [congruence | ].
    destruct (ftello (infile src) =? stop_position src); [ | congruence].
    inv_bind H. congruence. }
  clear H. destruct (Z.eqb_spec (start_positions_count src) 0) as [E|E].
  - apply Ok_inj in Hrw. subst rw'. split; [discriminate | intros [? _]; contradiction].
  - inv_res Hrw as p0 Hp0. apply Ok_inj in Hrw. subst rw'.
    split.
    + intros Hlt. split; [exact E | ]. exists p0. split; [exact Hp0 | ].
      destruct (Z.ltb_spec (ftello (infile src)) p0); [discriminate | lia].
    + intros (_ & p & Hp & Hle). rewrite Hp0 in Hp. apply Ok_inj in Hp. subst p.
      destruct (Z.ltb_spec (ftello (infile src)) p0); [lia | reflexivity].
Qed.

Lemma fread_fpos n file : 0 ≤ file.(fpos) → 0 ≤ (fread n file).2.(fpos).
Proof. intros H. unfold fread. simpl. lia. Qed.

Lemma fread_contents n file : (fread n file).2.(contents) = file.(contents).
Proof. reflexivity. Qed.

Lemma fill_store_keeps rw src got file src' :
  fill_store rw src got file = Ok src' →
  src'.(start_positions) = src.(start_positions)
  ∧ src'.(start_positions_count) = src.(start_positions_count)
  ∧ src'.(topleft) = src.(topleft)
  ∧ src'.(width) = src.(width)
  ∧ src'.(stride) = src.(stride)
  ∧ src'.(next_start_offset) = src.(next_start_offset)
  ∧ src'.(next_start_position) = src.(next_start_position)
  ∧ src'.(stop_position) = src.(stop_position)
  ∧ src'.(start_of_file) = false
  ∧ src'.(infile).(contents) = file.(contents)
  ∧ (0 ≤ file.(fpos) → 0 ≤ src'.(infile).(fpos)).
Proof.
  unfold fill_store. intros H.
  destruct (Z.of_nat (length got) <=? 0).
  { destruct (start_of_file src); [discriminate | ].
    apply Ok_inj in H. subst src'. repeat split. auto. }
  destruct rw.
  2:{ apply Ok_inj in H. subst src'. repeat split. auto. }
  destruct (rewrite_markers_loop _ _ _ _ _) as [[buf' lwf'] marker'].
  destruct (lwf' && (Z.of_nat (length got) >? 1)).
  - apply Ok_inj in H. subst src'. simpl. repeat split.
    + apply fseeko_contents.
    + intros Hp. apply fseeko_fpos, Hp.
  - apply Ok_inj in H. subst src'. repeat split. auto.
Qed.

Lemma fill_store_marker rw src got file src' :
  0 ≤ src.(next_restart_marker) < 8 →
  fill_store rw src got file = Ok src' →
  0 ≤ src'.(next_restart_marker) < 8.
Proof.
  unfold fill_store. intros Hm H.
  destruct (Z.of_nat (length got) <=? 0).
  { destruct (start_of_file src); [discriminate | ].
    apply Ok_inj in H. subst src'. exact Hm. }
  destruct rw.
  2:{ apply Ok_inj in H. subst src'. exact Hm. }
  destruct (rewrite_markers_loop _ _ _ _ _) as [[buf' lwf'] marker'] eqn:E.
  apply rewrite_markers_loop_spec in E as (_ & -> & _); [ | exact Hm].
  assert (Hr : 0 ≤ (next_restart_marker src
                    + Z.of_nat (Spec.markers_before got (length got))) mod 8 < 8)
    by (apply Z.mod_pos_bound; lia).
  destruct (lwf' && (Z.of_nat (length got) >? 1));
    apply Ok_inj in H; subst src'; exact Hr.
Qed.

Lemma fill_input_buffer_keeps src src' :
  fill_input_buffer src = Ok src' →
  same_config src src' ∧ (src_ok src → src_ok src').
Proof.
  unfold fill_input_buffer. intros H. inv_bind H.
  destruct a as [[rw src1] n].
  destruct (fread n (infile src1)) as [got file] eqn:Er.
  pose proof (fill_seek_keeps _ _ _ _ Ha) as (Hc & Hb & Hs & Hm & Hp).
  pose proof (fill_store_keeps _ _ _ _ _ H)
    as (H1 & H2 & H3 & H4 & H5 & _ & _ & _ & _ & H6 & H7).
  assert (Hfile : file = (fread n (infile src1)).2) by (rewrite Er; reflexivity).
  split.
  - destruct Hc as (? & ? & ? & ? & ? & ?).
    repeat split; try congruence.
    rewrite H6, Hfile, fread_contents. assumption.
  - intros [Hmk Hpos]. split.
    + eapply fill_store_marker; [ | exact H]. rewrite Hm. exact Hmk.
    + apply H7. rewrite Hfile. apply fread_fpos. auto.
Qed.

Lemma fill_n_keeps n : ∀ src src',
  fill_n n src = Ok src' → same_config src src' ∧ (src_ok src → src_ok src').
Proof.
  induction n as [|n IH]; intros src src' H; simpl in H.
  - apply Ok_inj in H. subst src'. split; [apply same_config_refl | auto].
  - inv_bind H. apply fill_input_buffer_keeps in Ha as [Hc Hk].
    apply IH in H as [Hc' Hk']. split; [eapply same_config_trans; eauto | auto].
Qed.

Lemma init_source_src_ok file buf positions count tl w st s1 :
  init_source (_openslide_jpeg_fancy_src (rewind file) buf positions count tl w st)
    = Ok s1 →
  src_ok s1.
Proof.
  unfold init_source. intros H.
  apply compute_next_positions_keeps in H as (_ & Hf & _ & _ & Hm).
  split; [rewrite Hm; simpl; lia | rewrite Hf; simpl; lia].
Qed.

End fill_keeps.

Section fill_renumbers.
Import FancySrc Inv.

(** C3.  On every fill after the header pass (a table of positions is set
    and the file has reached [start_positions[0]]), every [FF Dn], [n] in
    0..7, among the bytes just read has its second byte replaced by
    [D0 | (next_restart_marker & 7)] with the counter advanced modulo 8 at
    each, the other bytes are stored as read; and when the last byte read is
    FF and more than one byte was read, the count of bytes is one less and
    the file is moved back by one byte.  A fill that reads nothing changes
    neither the counter nor the file.  The source is any state reached from
    [init_source] by fills. *)
Theorem fill_input_buffer_renumbers
    file buf positions count tl w st n s1 src p0 rw src1 bytes_to_read :
  init_source (_openslide_jpeg_fancy_src (rewind file) buf positions count tl w st)
    = Ok s1 →
  fill_n n s1 = Ok src →
  src.(start_positions_count) ≠ 0 →
  position_at src 0 = Ok p0 →
  p0 ≤ ftello src.(infile) →
  fill_seek src = Ok (rw, src1, bytes_to_read) →
  Spec.fill_outcome src (fread bytes_to_read src1.(infile)).1
    (fread bytes_to_read src1.(infile)).2 (fill_input_buffer src).
Proof.
  intros Hinit Hfill Hcount Hp0 Hpos Hseek.
  apply init_source_src_ok in Hinit.
  apply fill_n_keeps in Hfill as [_ Hok]. specialize (Hok Hinit).
  destruct Hok as [Hmk Hfp].
  assert (rw = true) as ->.
  { apply (fill_seek_rewrite_markers _ _ _ _ Hseek). eauto. }
  pose proof (fill_seek_keeps _ _ _ _ Hseek) as (_ & Hb & _ & Hm & Hp).
  specialize (Hp Hfp).
  unfold fill_input_buffer. rewrite Hseek. cbn [mbind res_bind].
  pose proof (fread_fpos bytes_to_read (infile src1) Hp) as Hfp'.
  assert (Hfp2 : (fread bytes_to_read (infile src1)).2.(fpos)
                 = src1.(infile).(fpos)
                   + Z.of_nat (length (fread bytes_to_read (infile src1)).1))
    by reflexivity.
  destruct (fread bytes_to_read (infile src1)) as [got file'].
  cbn [fst snd] in *.
  unfold fill_store, Spec.fill_outcome.
  destruct got as [|b got].
  { cbn [length Z.of_nat Z.leb Z.compare]. destruct (start_of_file src1);
      [reflexivity | ]. cbn. rewrite Hm. repeat split. }
  remember (b :: got) as bytes eqn:Eb.
  assert (Hlen : (0 < length bytes)%nat) by (subst bytes; simpl; lia).
  destruct (Z.leb_spec (Z.of_nat (length bytes)) 0) as [|_]; [lia | ].
  destruct (rewrite_markers_loop _ _ _ _ _) as [[buf' lwf'] marker'] eqn:E.
  apply rewrite_markers_loop_spec in E as (Hbytes & Hmarker & Hend);
    [ | rewrite Hm; exact Hmk].
  rewrite Hm in Hbytes, Hmarker. rewrite Hend.
  unfold Spec.fill_renumbers.
  destruct (Spec.ends_on_ff bytes) eqn:Eff.
  - eexists. split; [reflexivity | ]. cbn. repeat split; try assumption.
    unfold Spec.ends_on_ff in Eff. apply andb_true_iff in Eff as [_ Hgt].
    apply Z.ltb_lt in Hgt.
    unfold fseek_cur, fseeko, ftello.
    destruct (Z.ltb_spec (fpos file' + -1) 0); simpl; lia.
  - eexists. split; [reflexivity | ]. cbn. repeat split; assumption.
Qed.

(** The fill that follows the header pass of [Examples.marked_src]. *)
Lemma fill_input_buffer_renumbers_witness :
  Spec.fill_outcome (Examples.after_fills 1 Examples.marked_src)
    [0x11; 0xFF; 0xD3; 0x22; 0xFF; 0xD5; 0x33; 0xFF]
    {| contents := Examples.marked_file.(contents); fpos := 10 |}
    (fill_input_buffer (Examples.after_fills 1 Examples.marked_src)).
Proof.
  refine (fill_input_buffer_renumbers
            Examples.marked_file (replicate 16 0) Examples.marked_positions
            3 0 3 3 1
            (Examples.after_fills 0 Examples.marked_src)
            (Examples.after_fills 1 Examples.marked_src)
            2 true
            (set_infile
               (set_positions (Examples.after_fills 1 Examples.marked_src)
                  0 2 CInt.INT64_MAX)
               {| contents := Examples.marked_file.(contents); fpos := 2 |})
            4096 _ _ _ _ _ _).
  - vm_compute. reflexivity.
  - vm_compute. reflexivity.
  - vm_compute. discriminate.
  - vm_compute. reflexivity.
  - vm_compute. discriminate.
  - vm_compute. reflexivity.
Defined.

End fill_renumbers.

(** ** The indices into the table of positions *)

Section index_bounds.
Import FancySrc Inv.


Lemma window_in_grid_config a b tile_x tile_y height rows :
  same_config a b →
  window_in_grid a tile_x tile_y height rows →
  window_in_grid b tile_x tile_y height rows.
Proof.
  unfold same_config, window_in_grid.
  intros (_ & -> & -> & -> & -> & ->). auto.
Qed.





Lemma fill_store_error rw src got file e :
  fill_store rw src got file = Err e → e = InputEmpty.
Proof.
  unfold fill_store. intros H.
  destruct (Z.of_nat (length got) <=? 0).
  { destruct (start_of_file src); [congruence | discriminate]. }
  destruct rw; [ | discriminate].
  destruct (rewrite_markers_loop _ _ _ _ _) as [[buf' lwf'] marker'].
  destruct (lwf' && (Z.of_nat (length got) >? 1)); discriminate.
Qed.





End index_bounds.

Section index_bounds_examples.
Import FancySrc Inv.


(** Why the number of moves is bounded by the rows of the window: when the
    window is the first two tiles of the one row of three, a fill asked for
    at the end of that row moves to a row that the table does not have, and
    the assertion on [next_start_offset] fails. *)
Example fill_past_the_window :
  Examples.marked_src_two_tiles ≫= fill_n 2 ≠ Err (AssertFailed assert_offset_in_range)
  ∧ Examples.marked_src_two_tiles ≫= fill_n 3
    = Err (AssertFailed assert_offset_in_range)
  ∧ jumps 3 (Examples.after_fills 0 Examples.marked_src_two_tiles) = 2%nat.
Proof. vm_compute. repeat split. discriminate. Qed.

End index_bounds_examples.

(** ** The index pass *)

Section index_pass.
Import Index.

Lemma uint32_small z : 0 ≤ z < 2 ^ 32 → CInt.uint32 z = z.
Proof. intros H. unfold CInt.uint32, CInt.wrap_unsigned. apply Z.mod_small, H. Qed.

Lemma int32_small z : - 2 ^ 31 ≤ z < 2 ^ 31 → CInt.int32 z = z.
Proof.
  intros H. unfold CInt.int32, CInt.wrap_signed.
  change (2 ^ (32 - 1)) with (2 ^ 31). rewrite Z.mod_small; lia.
Qed.

Lemma array_set_length {A} (a : list A) count i v a' :
  array_set a count i v = Ok a' → length a' = length a.
Proof.
  unfold array_set. intros H.
  destruct ((0 <=? i) && (i <? count) && (i <? Z.of_nat (length a)));
    [ | discriminate].
  apply Ok_inj in H. subst a'. apply length_insert.
Qed.

(** The scan writes into the table and never resizes it. *)
Lemma scan_loop_length fuel : ∀ count src starts marker lwf starts',
  scan_loop fuel count src starts marker lwf = Ok starts' →
  length starts' = length starts.
Proof.
  induction fuel as [|fuel IH]; intros count src starts marker lwf starts' H;
    simpl in H; [discriminate | ].
  destruct (marker <? count); [ | apply Ok_inj in H; congruence].
  inv_res H as src1 Hsrc1.
  destruct lwf.
  - destruct (_ =? FancySrc.JPEG_EOI); [apply Ok_inj in H; congruence | ].
    destruct (FancySrc.is_restart_marker _).
    + inv_res H as starts1 Hset. apply array_set_length in Hset.
      apply IH in H. congruence.
    + apply IH in H. exact H.
  - apply IH in H. exact H.
Qed.

Lemma compute_optimization_length cinfo src count starts :
  compute_optimization cinfo src = Ok (count, starts) →
  0 ≤ count →
  Z.of_nat (length starts) = count
  ∧ CInt.cdiv (CInt.uint32 (cinfo.(MCUs_per_row) * cinfo.(MCU_rows_in_scan)))
      cinfo.(restart_interval) = Ok count.
Proof.
  unfold compute_optimization. intros H Hc.
  inv_res H as c Hcount. inv_res H as s0 Hs0. inv_res H as s1 Hs1.
  injection H as <- <-.
  apply scan_loop_length in Hs1. apply array_set_length in Hs0.
  rewrite Hs1, Hs0, length_replicate. split; [lia | exact Hcount].
Qed.

(** C9 (the code on the failing input).  With three MCUs and a restart
    interval of two, [mcu_starts] has [3 / 2 = 1] entry; the scan finds the
    restart marker of the stream while [marker = 0 < 1] and stores its
    position at index [1 + marker = 1], outside the table. *)
Theorem compute_optimization_writes_past_table :
  CInt.cdiv (CInt.uint32 (Examples.odd_cinfo.(MCUs_per_row)
                          * Examples.odd_cinfo.(MCU_rows_in_scan)))
    Examples.odd_cinfo.(restart_interval) = Ok 1
  ∧ compute_optimization Examples.odd_cinfo Examples.odd_src = Err OutOfBounds.
Proof. split; vm_compute; reflexivity. Qed.





End index_pass.

(** ** The one-JPEG reader *)

Section reader.
Import Ops Inv.

Lemma lor_below n a b :
  0 ≤ n → 0 ≤ a < 2 ^ n → 0 ≤ b < 2 ^ n → 0 ≤ Z.lor a b < 2 ^ n.
Proof.
  intros Hn Ha Hb.
  assert (H0 : 0 ≤ Z.lor a b) by (apply Z.lor_nonneg; lia).
  split; [exact H0 | ].
  destruct (Z.eq_dec (Z.lor a b) 0) as [->|Hne];
    [apply Z.pow_pos_nonneg; lia | ].
  apply Z.log2_lt_pow2; [lia | ].
  rewrite Z.log2_lor by lia.
  destruct (Z.eq_dec a 0) as [->|Ha0]; destruct (Z.eq_dec b 0) as [->|Hb0].
  - exfalso. apply Hne. reflexivity.
  - rewrite Z.max_r by (apply Z.log2_nonneg). apply Z.log2_lt_pow2; lia.
  - rewrite Z.max_l by (apply Z.log2_nonneg). apply Z.log2_lt_pow2; lia.
  - apply Z.max_lub_lt; apply Z.log2_lt_pow2; lia.
Qed.

Lemma argb_below r g b :
  0 ≤ r < 256 → 0 ≤ g < 256 → 0 ≤ b < 256 → 0 ≤ Spec.argb r g b < 2 ^ 32.
Proof.
  intros Hr Hg Hb. unfold Spec.argb.
  rewrite !Z.shiftl_mul_pow2 by lia.
  repeat apply lor_below; lia.
Qed.

Lemma sample_byte row k :
  0 ≤ k < Z.of_nat (length row) → Forall (fun v => 0 ≤ v < 256) row →
  sample row k = Ok (nth (Z.to_nat k) row 0)
  ∧ 0 ≤ nth (Z.to_nat k) row 0 < 256.
Proof.
  intros Hk Hb. unfold sample, array_get.
  destruct (Z.leb_spec 0 k); [ | lia].
  destruct (Z.ltb_spec k (Z.of_nat (length row))); [ | lia]. cbn [andb].
  destruct (row !! Z.to_nat k) as [v|] eqn:E.
  2:{ apply lookup_ge_None in E. lia. }
  rewrite (nth_lookup_Some _ _ _ _ E). cbn [mbind res_bind].
  assert (Hv : 0 ≤ v < 256).
  { rewrite Forall_forall in Hb. apply Hb. eapply list_elem_of_lookup_2, E. }
  split; [ | exact Hv].
  unfold CInt.uint8, CInt.wrap_unsigned.
  rewrite Z.mod_small by (change (2 ^ 8) with 256; lia).
  reflexivity.
Qed.

Lemma pixel_argb ow row col :
  0 ≤ col < ow → Z.of_nat (length row) = 3 * ow →
  Forall (fun v => 0 ≤ v < 256) row →
  pixel row col
  = Ok (Spec.argb (nth (Z.to_nat (col * 3)) row 0)
                  (nth (Z.to_nat (col * 3 + 1)) row 0)
                  (nth (Z.to_nat (col * 3 + 2)) row 0)).
Proof.
  intros Hc Hl Hb. unfold pixel.
  destruct (sample_byte row (col * 3 + 0) ltac:(lia) Hb) as [-> Hr].
  destruct (sample_byte row (col * 3 + 1) ltac:(lia) Hb) as [-> Hg].
  destruct (sample_byte row (col * 3 + 2) ltac:(lia) Hb) as [-> Hbl].
  cbn [mbind res_bind]. rewrite Z.add_0_r in *.
  change (Z.lor (Z.lor (Z.lor 4278190080 (Z.shiftl ?r 16)) (Z.shiftl ?g 8)) ?b)
    with (Spec.argb r g b).
  unfold CInt.uint32, CInt.wrap_unsigned.
  rewrite Z.mod_small by (apply argb_below; assumption). reflexivity.
Qed.

(** The loop over the pixels of a scanline, from column [i] on. *)
Lemma copy_row_from w ow d_x dst row fuel : ∀ i,
  0 ≤ d_x → 0 ≤ ow < 2 ^ 31 →
  Z.of_nat (length row) = 3 * ow → Forall (fun v => 0 ≤ v < 256) row →
  0 ≤ i → w - i ≤ Z.of_nat fuel →
  copy_row fuel i w ow d_x dst row
  = Ok ((fun j =>
           (dst + j,
            Spec.argb (nth (Z.to_nat ((d_x + j) * 3)) row 0)
                      (nth (Z.to_nat ((d_x + j) * 3 + 1)) row 0)
                      (nth (Z.to_nat ((d_x + j) * 3 + 2)) row 0)))
        <$> seqZ i (Z.min w (ow - d_x) - i)).
Proof.
  induction fuel as [|fuel IH]; intros i Hdx How Hlen Hb Hi Hfuel.
  - simpl. rewrite seqZ_nil by lia. reflexivity.
  - simpl. rewrite int32_small by lia.
    destruct (Z.ltb_spec i w) as [Hiw|Hiw];
      destruct (Z.ltb_spec i (ow - d_x)) as [Hio|Hio]; cbn [andb].
    2,3,4: rewrite seqZ_nil by lia; reflexivity.
    rewrite (pixel_argb ow) by (auto; lia). cbn [mbind res_bind].
    rewrite IH by (auto; lia). cbn [mbind res_bind].
    rewrite (seqZ_cons i) by lia. cbn [fmap list_fmap].
    replace (Z.pred (Z.min w (ow - d_x) - i)) with (Z.min w (ow - d_x) - (i + 1))
      by lia.
    reflexivity.
Qed.

Lemma copy_row_stores w ow d_x dst row :
  0 ≤ d_x → 0 ≤ ow < 2 ^ 31 →
  Z.of_nat (length row) = 3 * ow → Forall (fun v => 0 ≤ v < 256) row →
  copy_row (Z.to_nat w) 0 w ow d_x dst row = Ok (Spec.row_stores w ow d_x dst row).
Proof.
  intros Hdx How Hl Hb. rewrite copy_row_from by (auto; lia).
  unfold Spec.row_stores. rewrite Z.sub_0_r. reflexivity.
Qed.

Lemma region_stores_cons w ow d_x stride dst row rows :
  Spec.region_stores w ow d_x stride dst (row :: rows)
  = Spec.row_stores w ow d_x dst row
    ++ Spec.region_stores w ow d_x stride (dst + stride) rows.
Proof.
  unfold Spec.region_stores. rewrite imap_cons. cbn [concat].
  rewrite Z.mul_0_l, Z.add_0_r. f_equal. f_equal.
  apply imap_ext. intros k r _. cbn. f_equal. lia.
Qed.

Lemma region_stores_app w ow d_x stride rows1 : ∀ dst rows2,
  Spec.region_stores w ow d_x stride dst (rows1 ++ rows2)
  = Spec.region_stores w ow d_x stride dst rows1
    ++ Spec.region_stores w ow d_x stride
         (dst + Z.of_nat (length rows1) * stride) rows2.
Proof.
  induction rows1 as [|row rows1 IH]; intros dst rows2.
  - cbn [app length]. rewrite Z.mul_0_l, Z.add_0_r. reflexivity.
  - cbn [app]. rewrite !region_stores_cons, IH, <- app_assoc.
    do 3 f_equal. cbn [length]. lia.
Qed.

Lemma emitted_rows_skip h d_y row rows :
  0 < d_y → Spec.emitted_rows h d_y (row :: rows) = Spec.emitted_rows h (d_y - 1) rows.
Proof.
  intros H. unfold Spec.emitted_rows.
  replace (Z.to_nat d_y) with (S (Z.to_nat (d_y - 1))) by lia. reflexivity.
Qed.

Lemma emitted_rows_take h row rows :
  0 < h → Spec.emitted_rows h 0 (row :: rows) = row :: Spec.emitted_rows (h - 1) 0 rows.
Proof.
  intros H. unfold Spec.emitted_rows. cbn [Z.to_nat drop].
  replace (Z.to_nat h) with (S (Z.to_nat (h - 1))) by lia. reflexivity.
Qed.

Lemma emitted_rows_none h d_y rows : h ≤ 0 → Spec.emitted_rows h d_y rows = [].
Proof.
  intros H. unfold Spec.emitted_rows.
  replace (Z.to_nat h) with O by lia. reflexivity.
Qed.

Lemma emitted_rows_app h d_y rows1 rows2 :
  0 ≤ d_y →
  Spec.emitted_rows h d_y (rows1 ++ rows2)
  = Spec.emitted_rows h d_y rows1
    ++ Spec.emitted_rows
         (h - Z.of_nat (length (Spec.emitted_rows h d_y rows1)))
         (Z.max 0 (d_y - Z.of_nat (length rows1))) rows2.
Proof.
  intros Hd. unfold Spec.emitted_rows.
  rewrite drop_app, take_app. f_equal. f_equal.
  - rewrite length_take, length_drop. lia.
  - f_equal. lia.
Qed.

(** The loop over the scanlines of one group. *)
Lemma copy_rows_stores w ow d_x stride group : ∀ c,
  0 ≤ d_x → 0 ≤ ow < 2 ^ 31 → scanlines_ok ow group →
  0 ≤ c.(rows_to_skip) →
  ∃ c',
    copy_rows w ow d_x stride group c
    = Ok (Spec.region_stores w ow d_x stride c.(dest)
            (Spec.emitted_rows c.(rows_left) c.(rows_to_skip) group), c')
    ∧ c'.(dest)
      = c.(dest)
        + Z.of_nat (length (Spec.emitted_rows c.(rows_left) c.(rows_to_skip) group))
          * stride
    ∧ c'.(rows_left)
      = c.(rows_left)
        - Z.of_nat (length (Spec.emitted_rows c.(rows_left) c.(rows_to_skip) group))
    ∧ 0 ≤ c'.(rows_to_skip)
    ∧ (0 < c'.(rows_left) →
       c'.(rows_to_skip)
       = Z.max 0 (c.(rows_to_skip) - Z.of_nat (length group))).
Proof.
  induction group as [|row rest IH]; intros c Hdx How Hok Hskip.
  { exists c. unfold Spec.emitted_rows. rewrite drop_nil, take_nil.
    cbn. repeat split; lia. }
  apply Forall_cons in Hok as [[Hlen Hbytes] Hok].
  cbn [copy_rows]. destruct (Z.gtb_spec c.(rows_left) 0) as [Hleft|Hleft].
  2:{ exists c. rewrite emitted_rows_none by lia. cbn. repeat split; lia. }
  destruct (Z.eqb_spec c.(rows_to_skip) 0) as [Hz|Hnz].
  - rewrite copy_row_stores by assumption. cbn [mbind res_bind].
    destruct (Z.gtb_spec c.(rows_to_skip) 0) as [|_]; [lia | ].
    destruct (IH {| dest := dest c + stride; rows_left := rows_left c - 1;
                    rows_to_skip := rows_to_skip c |} Hdx How Hok Hskip)
      as (c' & -> & Hd & Hl & Hs & Hs').
    cbn [dest rows_left rows_to_skip mbind res_bind] in *.
    exists c'. rewrite Hz in *. rewrite emitted_rows_take by lia.
    rewrite region_stores_cons. cbn [length].
    repeat split; try lia; intros Hp; rewrite Hs' by exact Hp; lia.
  - cbn [mbind res_bind].
    destruct (Z.gtb_spec c.(rows_to_skip) 0) as [_|]; [ | lia].
    destruct (IH {| dest := dest c; rows_left := rows_left c;
                    rows_to_skip := rows_to_skip c - 1 |} Hdx How Hok
                ltac:(cbn; lia))
      as (c' & -> & Hd & Hl & Hs & Hs').
    cbn [dest rows_left rows_to_skip mbind res_bind] in *.
    exists c'. rewrite emitted_rows_skip by lia. cbn [app length].
    repeat split; try lia; intros Hp; rewrite Hs' by exact Hp; lia.
Qed.

(** The loop over the groups of scanlines. *)
Lemma read_scanlines_loop_stores w ow d_x stride groups : ∀ c,
  0 ≤ d_x → 0 ≤ ow < 2 ^ 31 → scanlines_ok ow (concat groups) →
  0 ≤ c.(rows_to_skip) →
  read_scanlines_loop w ow d_x stride groups c
  = Ok (Spec.region_stores w ow d_x stride c.(dest)
          (Spec.emitted_rows c.(rows_left) c.(rows_to_skip) (concat groups))).
Proof.
  induction groups as [|group rest IH]; intros c Hdx How Hok Hskip.
  { cbn. unfold Spec.emitted_rows. rewrite drop_nil, take_nil. reflexivity. }
  cbn [concat] in *. unfold scanlines_ok in Hok. apply Forall_app in Hok as [Hg Hr].
  cbn [read_scanlines_loop].
  destruct (Z.gtb_spec c.(rows_left) 0) as [Hleft|Hleft].
  2:{ rewrite emitted_rows_none by lia. reflexivity. }
  destruct (copy_rows_stores w ow d_x stride group c Hdx How Hg Hskip)
    as (c' & -> & Hd & Hl & Hs & Hs').
  cbn [mbind res_bind]. rewrite (IH c' Hdx How Hr Hs). cbn [mbind res_bind].
  rewrite emitted_rows_app by exact Hskip. rewrite region_stores_app.
  rewrite Hd, Hl. do 3 f_equal.
  destruct (Z.lt_ge_cases 0 c'.(rows_left)) as [Hp|Hp].
  - rewrite Hs' by exact Hp. reflexivity.
  - rewrite !emitted_rows_none by lia. reflexivity.
Qed.

End reader.

Section reader_stores.
Import Ops Inv.
Variable jpeg_decompress : one_jpeg -> Z -> Z -> Z -> Z -> Z -> Z -> decoded.

Lemma row_stores_length w ow d_x dst row :
  length (Spec.row_stores w ow d_x dst row) = Z.to_nat (Z.min w (ow - d_x)).
Proof. unfold Spec.row_stores. rewrite length_fmap, length_seqZ. reflexivity. Qed.

(** C8.  [read_from_one_jpeg] skips the first [d_y] scanlines that the
    decoder returns and emits at most [h] of the following ones.  For each
    emitted scanline it stores exactly [min(w, output_width − d_x)] words,
    the pixels from column [d_x] of the scanline on, each as
    [0xFF000000 | (R << 16) | (G << 8) | B] of its three samples, and the
    destination advances by [stride] words from one emitted scanline to the
    next.  Here [d_x = (x % tile_width) / scale_denom],
    [d_y = (y % tile_height) / scale_denom], the request is at a
    non-negative offset and the decoder returns scanlines of
    [3 × output_width] samples of 8 bits. *)
Theorem read_from_one_jpeg_stores jpeg dst x y scale_denom w h stride cinfo :
  0 ≤ x → 0 ≤ y → 0 < scale_denom →
  start_decompress jpeg_decompress jpeg x y scale_denom w h = Ok cinfo →
  0 ≤ cinfo.(output_width) < 2 ^ 31 →
  scanlines_ok cinfo.(output_width) (concat cinfo.(scanlines)) →
  let d_x := Z.quot (Z.rem x jpeg.(tile_width)) scale_denom in
  let d_y := Z.quot (Z.rem y jpeg.(tile_height)) scale_denom in
  let rows := Spec.emitted_rows h d_y (concat cinfo.(scanlines)) in
  read_from_one_jpeg jpeg_decompress jpeg dst x y scale_denom w h stride
  = Ok (Spec.region_stores w cinfo.(output_width) d_x stride dst rows)
  ∧ Spec.region_stores w cinfo.(output_width) d_x stride dst rows
    = concat (imap (fun k row =>
                      Spec.row_stores w cinfo.(output_width) d_x
                        (dst + Z.of_nat k * stride) row) rows)
  ∧ ∀ dst' row,
      length (Spec.row_stores w cinfo.(output_width) d_x dst' row)
      = Z.to_nat (Z.min w (cinfo.(output_width) - d_x)).
Proof.
  intros Hx Hy Hs Hstart How Hok. cbv zeta.
  split; [ | split; [reflexivity | intros; apply row_stores_length]].
  unfold read_from_one_jpeg. rewrite Hstart. cbn [mbind res_bind].
  unfold start_decompress in Hstart.
  inv_res Hstart as tile_y Hty. inv_res Hstart as tile_x Htx. clear Hstart.
  unfold CInt.cdiv in Hty, Htx. unfold CInt.cmod, CInt.cdiv.
  destruct (Z.eqb_spec (tile_height jpeg) 0); [discriminate | ].
  destruct (Z.eqb_spec (tile_width jpeg) 0); [discriminate | ].
  destruct (Z.eqb_spec scale_denom 0); [lia | ].
  cbn [mbind res_bind].
  apply read_scanlines_loop_stores; try assumption.
  - apply Z.quot_pos; [ | lia]. apply Z.rem_nonneg; lia.
  - cbn [rows_to_skip]. apply Z.quot_pos; [ | lia]. apply Z.rem_nonneg; lia.
Qed.

End reader_stores.

(** A read at offset [(1, 1)] of [Examples.tiny_jpeg]: the first scanline is
    skipped and one pixel of each of the next two is stored. *)
Lemma read_from_one_jpeg_stores_witness :
  Ops.read_from_one_jpeg Examples.tiny_decompress Examples.tiny_jpeg 100 1 1 1 2 2 10
  = Ok (Spec.region_stores 2 2 1 10 100
          (Spec.emitted_rows 2 1 (concat Examples.tiny_decoded.(Ops.scanlines))))
  ∧ Spec.region_stores 2 2 1 10 100
      (Spec.emitted_rows 2 1 (concat Examples.tiny_decoded.(Ops.scanlines)))
    = [(100, 0xFF0A0B0C); (110, 0xFF101112)].
Proof.
  destruct (read_from_one_jpeg_stores Examples.tiny_decompress
              Examples.tiny_jpeg 100 1 1 1 2 2 10 Examples.tiny_decoded)
    as (Hread & _ & _).
  - lia.
  - lia.
  - lia.
  - vm_compute. reflexivity.
  - vm_compute. split; [discriminate | reflexivity].
  - unfold Inv.scanlines_ok, Examples.tiny_decoded. cbn [Ops.scanlines concat app].
    repeat (constructor;
            [split; [reflexivity | repeat (constructor; [lia | ]); constructor] | ]).
    constructor.
  - split; [exact Hread | vm_compute; reflexivity].
Defined.

(** ** The region router *)

Section router.
Import Ops.

(** [get_dimensions] answers [(0, 0)] for a level at or above
    [layer_count]. *)
Lemma get_dimensions_above osr layer :
  osr.(layer_count) ≤ layer → get_dimensions osr layer = Ok (0, 0).
Proof.
  intros H. unfold get_dimensions.
  destruct (Z.geb_spec layer osr.(layer_count)); [reflexivity | lia].
Qed.

(** [get_dimensions] compares the level with [layer_count] only: a
    negative level is read from the array. *)
Lemma get_dimensions_below osr layer :
  layer < 0 → 0 ≤ osr.(layer_count) → get_dimensions osr layer = Err OutOfBounds.
Proof.
  intros H Hc. unfold get_dimensions, array_get.
  destruct (Z.geb_spec layer osr.(layer_count)); [lia | ].
  destruct (Z.leb_spec 0 layer); [lia | ]. reflexivity.
Qed.

(** [read_region] reads [data->layers + layer] whatever the level is. *)
Lemma read_region_out_of_range jpeg_decompress osr x y layer w h :
  ¬ (0 ≤ layer < Z.of_nat (length osr.(layers))) →
  read_region jpeg_decompress osr x y layer w h = Err OutOfBounds.
Proof.
  intros H. unfold read_region, array_get.
  destruct (Z.leb_spec 0 layer); [ | reflexivity].
  destruct (Z.ltb_spec layer (Z.of_nat (length osr.(layers)))); [lia | ].
  reflexivity.
Qed.

(** C1 (the code on the failing input).  On the slide of six levels,
    [get_dimensions] returns [(0, 0)] for level 6, but [read_region] for
    level 6 has no check of the level: it reads the seventh element of an
    array of six, whatever the decoder and the region are; and
    [get_dimensions] for level -1 reads before the array. *)
Theorem read_region_reads_past_layers :
  ∀ jpeg_decompress x y w h,
    length Examples.two_depths_osr.(layers) = 6%nat
    ∧ get_dimensions Examples.two_depths_osr 6 = Ok (0, 0)
    ∧ read_region jpeg_decompress Examples.two_depths_osr x y 6 w h
      = Err OutOfBounds
    ∧ get_dimensions Examples.two_depths_osr (-1) = Err OutOfBounds.
Proof.
  intros jd x y w h.
  assert (Hlen : length Examples.two_depths_osr.(layers) = 6%nat)
    by (vm_compute; reflexivity).
  split; [exact Hlen | ]. split; [vm_compute; reflexivity | ].
  split; [ | vm_compute; reflexivity].
  apply read_region_out_of_range. rewrite Hlen. lia.
Qed.

Lemma src_start_multiple v d s sv :
  src_start v d s = Ok sv →
  ∃ q, Double.to_int64 (Double.div (Double.of_int64 v) d) = Ok q
    ∧ s ≠ 0 ∧ sv = Z.quot q s * s.
Proof.
  unfold src_start. intros H. inv_res H as q Hq. inv_res H as q' Hq'.
  unfold CInt.cdiv in Hq'. destruct (Z.eqb_spec s 0); [discriminate | ].
  apply Ok_inj in Hq'. apply Ok_inj in H. subst. eauto.
Qed.

(** The first call of a row of files. *)
Lemma route_row_first fuel l w file_y start_y dest_h dest_y src_x end_src_x dest_x row :
  route_row fuel l w file_y start_y dest_h dest_y src_x end_src_x dest_x = Ok row →
  src_x < end_src_x →
  ∃ c rest, row = c :: rest
    ∧ c.(c_file_x) = CInt.int32 (Z.quot src_x l.(image00_w))
    ∧ c.(c_x) = CInt.int32 (src_x - CInt.int32 (Z.quot src_x l.(image00_w))
                                    * l.(image00_w))
    ∧ c.(c_file_y) = file_y ∧ c.(c_y) = start_y
    ∧ c.(c_scale_denom) = l.(scale_denom)
    ∧ l.(image00_w) ≠ 0.
Proof.
  intros H Hlt. destruct fuel as [|fuel]; cbn [route_row] in H;
    destruct (Z.ltb_spec src_x end_src_x); try lia; [discriminate | ].
  inv_res H as q Hq. unfold CInt.cdiv in Hq.
  destruct (Z.eqb_spec l.(image00_w) 0); [discriminate | ].
  apply Ok_inj in Hq. subst q.
  inv_res H as dw Hdw. inv_res H as jpeg Hjpeg. inv_res H as rest Hrest.
  apply Ok_inj in H. subst row. eexists _, _. split; [reflexivity | ].
  cbn. repeat split; auto.
Qed.

(** When the first row of files has no call, no row has one. *)
Lemma route_rows_no_call fuel l x w sx : ∀ src_y end_src_y dest_y calls,
  src_start x l.(no_scale_denom_downsample) l.(scale_denom) = Ok sx →
  ¬ sx < Z.min (sx + w * l.(scale_denom)) l.(pixel_w) →
  route_rows fuel l x w src_y end_src_y dest_y = Ok calls →
  calls = [].
Proof.
  induction fuel as [|fuel IH]; intros src_y end_src_y dest_y calls Hsx Hge H;
    cbn [route_rows] in H; destruct (src_y <? end_src_y);
    try discriminate; try (apply Ok_inj in H; congruence).
  inv_res H as q Hq. inv_res H as dh Hdh. rewrite Hsx in H. cbn [mbind res_bind] in H.
  inv_res H as row Hrow. inv_res H as rest Hrest. apply Ok_inj in H. subst calls.
  apply IH in Hrest; [ | assumption ..]. subst rest.
  destruct (Z.to_nat _) in Hrow; cbn [route_row] in Hrow;
    destruct (Z.ltb_spec sx (Z.min (sx + w * scale_denom l) (pixel_w l)));
    try lia; apply Ok_inj in Hrow; subst row; reflexivity.
Qed.

(** C2, as stated, fails: on the level of width 32 cut from the depth that
    is a quarter of the full width 128 ([d = 4], [s = 1]), a request at
    [(8, 8)] starts at source [(2, 2)], not at
    [floor(8 × 4 / 1) × 1 = 32]. *)
Lemma source_start_not_claimed :
  ∃ l0 l c,
    Examples.two_depths_osr.(layers) !! 0%nat = Some l0
    ∧ Examples.two_depths_osr.(layers) !! 2%nat = Some l
    ∧ l0.(pixel_w) / l.(pixel_w) = 4 ∧ l.(scale_denom) = 1
    ∧ route_region l 8 8 4 4 = Ok [c]
    ∧ c.(c_file_x) * l.(image00_w) + c.(c_x) = 2
    ∧ c.(c_file_y) * l.(image00_h) + c.(c_y) = 2
    ∧ Spec.claimed_src_start 8 l0.(pixel_w) l.(pixel_w) l.(scale_denom) = 32.
Proof.
  eexists _, _, _. split; [vm_compute; reflexivity | ].
  split; [vm_compute; reflexivity | ]. split; [reflexivity | ].
  split; [reflexivity | ]. split; [vm_compute; reflexivity | ]. repeat split.
Qed.

(** C2, amended.  The coordinates [x], [y] of a request are divided by the
    level's [no_scale_denom_downsample] [d] (as doubles, the quotient cut
    to an integer) and then rounded down to a multiple of [scale_denom]
    [s]: the first file that the router reads is read from the source
    position [((x / d) / s) × s], [((y / d) / s) × s].  The quotients are
    taken to be non-negative and below [2^31], and the files of the level
    to have [image00_w], [image00_h] in [1 .. 2^31 − 1]. *)
Theorem route_region_source_start l x y w h c calls qx qy :
  route_region l x y w h = Ok (c :: calls) →
  Double.to_int64 (Double.div (Double.of_int64 x) l.(no_scale_denom_downsample))
    = Ok qx →
  Double.to_int64 (Double.div (Double.of_int64 y) l.(no_scale_denom_downsample))
    = Ok qy →
  0 ≤ qx < 2 ^ 31 → 0 ≤ qy < 2 ^ 31 →
  0 < l.(scale_denom) →
  0 < l.(image00_w) < 2 ^ 31 → 0 < l.(image00_h) < 2 ^ 31 →
  c.(c_file_x) * l.(image00_w) + c.(c_x) = Z.quot qx l.(scale_denom) * l.(scale_denom)
  ∧ c.(c_file_y) * l.(image00_h) + c.(c_y)
    = Z.quot qy l.(scale_denom) * l.(scale_denom)
  ∧ c.(c_scale_denom) = l.(scale_denom).
Proof.
  intros H Hqx Hqy Hrx Hry Hs Hw Hh.
  assert (Hsx : src_start x l.(no_scale_denom_downsample) l.(scale_denom)
                = Ok (Z.quot qx l.(scale_denom) * l.(scale_denom))).
  { unfold src_start, CInt.cdiv. rewrite Hqx. cbn [mbind res_bind].
    destruct (Z.eqb_spec l.(scale_denom) 0); [lia | ]. reflexivity. }
  assert (Hsy : src_start y l.(no_scale_denom_downsample) l.(scale_denom)
                = Ok (Z.quot qy l.(scale_denom) * l.(scale_denom))).
  { unfold src_start, CInt.cdiv. rewrite Hqy. cbn [mbind res_bind].
    destruct (Z.eqb_spec l.(scale_denom) 0); [lia | ]. reflexivity. }
  assert (Hround : ∀ q, 0 ≤ q < 2 ^ 31 →
            0 ≤ Z.quot q l.(scale_denom) * l.(scale_denom) < 2 ^ 31).
  { intros q Hq. rewrite Z.quot_div_nonneg by lia.
    pose proof (Z.mul_div_le q l.(scale_denom) Hs).
    assert (0 ≤ q / l.(scale_denom)) by (apply Z.div_pos; lia). nia. }
  set (sx := Z.quot qx l.(scale_denom) * l.(scale_denom)) in *.
  set (sy := Z.quot qy l.(scale_denom) * l.(scale_denom)) in *.
  pose proof (Hround qx Hrx) as Hsxr. pose proof (Hround qy Hry) as Hsyr.
  fold sx in Hsxr. fold sy in Hsyr.
  assert (Hsplit : ∀ v p, 0 ≤ v < 2 ^ 31 → 0 < p < 2 ^ 31 →
            CInt.int32 (Z.quot v p) * p
            + CInt.int32 (v - CInt.int32 (Z.quot v p) * p) = v).
  { intros v p Hv Hp. rewrite Z.quot_div_nonneg by lia.
    assert (0 ≤ v / p ≤ v) by (split; [apply Z.div_pos; lia | apply Z.div_le_upper_bound; nia]).
    pose proof (Z.mod_pos_bound v p ltac:(lia)).
    pose proof (Z.div_mod v p ltac:(lia)).
    rewrite (int32_small (v / p)) by lia.
    rewrite int32_small by nia. lia. }
  unfold route_region in H. rewrite Hsy in H. cbn [mbind res_bind] in H.
  destruct (Z.to_nat _) as [|fuel] in H; cbn [route_rows] in H;
    destruct (Z.ltb_spec sy (Z.min (sy + h * scale_denom l) (pixel_h l)));
    try discriminate.
  inv_res H as q Hq. unfold CInt.cdiv in Hq.
  destruct (Z.eqb_spec l.(image00_h) 0); [lia | ]. apply Ok_inj in Hq. subst q.
  inv_res H as dh Hdh. rewrite Hsx in H. cbn [mbind res_bind] in H.
  inv_res H as row Hrow. inv_res H as rest Hrest. apply Ok_inj in H.
  destruct (Z.lt_ge_cases sx (Z.min (sx + w * scale_denom l) (pixel_w l)))
    as [Hlt|Hge].
  - apply route_row_first in Hrow
      as (c' & row' & -> & Hfx & Hcx & Hfy & Hcy & Hsd & _); [ | exact Hlt].
    injection H as -> _. rewrite Hfx, Hcx, Hfy, Hcy, Hsd.
    rewrite !Hsplit by lia. auto.
  - apply (route_rows_no_call _ _ _ _ sx) in Hrest; [ | exact Hsx | lia].
    subst rest. rewrite app_nil_r in H. subst row.
    destruct (Z.to_nat _) in Hrow; cbn [route_row] in Hrow;
      destruct (Z.ltb_spec sx (Z.min (sx + w * scale_denom l) (pixel_w l)));
      try lia; discriminate.
Qed.

End router.

(** The request at [(8, 8)] on the level of width 32 of
    [Examples.two_depths_osr]. *)
Lemma route_region_source_start_witness :
  Examples.quarter_call.(Ops.c_file_x) * Examples.quarter_level.(image00_w)
  + Examples.quarter_call.(Ops.c_x)
  = Z.quot 2 Examples.quarter_level.(scale_denom) * Examples.quarter_level.(scale_denom)
  ∧ Examples.quarter_call.(Ops.c_file_y) * Examples.quarter_level.(image00_h)
    + Examples.quarter_call.(Ops.c_y)
    = Z.quot 2 Examples.quarter_level.(scale_denom)
      * Examples.quarter_level.(scale_denom)
  ∧ Examples.quarter_call.(Ops.c_scale_denom) = Examples.quarter_level.(scale_denom).
Proof.
  apply (route_region_source_start Examples.quarter_level 8 8 4 4
           Examples.quarter_call [] 2 2).
  - vm_compute. reflexivity.
  - vm_compute. reflexivity.
  - vm_compute. reflexivity.
  - lia.
  - lia.
  - vm_compute. reflexivity.
  - vm_compute. split; reflexivity.
  - vm_compute. split; reflexivity.
Defined.

(** * Further properties of the code *)

(** ** The order of the fragments *)

Section fragment_sequence.
Import Pyramid.

Lemma zyx_lt_trans a b c : Spec.zyx_lt a b → Spec.zyx_lt b c → Spec.zyx_lt a c.
Proof. unfold Spec.zyx_lt. lia. Qed.

Lemma zyx_lt_irrefl a : ¬ Spec.zyx_lt a a.
Proof. unfold Spec.zyx_lt. lia. Qed.

Lemma zxy_chain_sorted fragments : ∀ pz px py,
  Spec.zxy_chain pz px py fragments →
  Sorted Spec.zyx_lt fragments
  ∧ HdRel Spec.zyx_lt {| fr_f := []; fr_x := px; fr_y := py; fr_z := pz |} fragments.
Proof.
  induction fragments as [|fr rest IH]; intros pz px py H; [split; constructor | ].
  destruct H as [Hs Hc]. apply IH in Hc as [Hsorted Hhd]. split.
  - constructor; [exact Hsorted | ].
    destruct rest as [|fr' rest']; constructor.
    inversion Hhd; subst. assumption.
  - constructor. unfold Spec.zxy_successor in Hs. unfold Spec.zyx_lt. cbn. lia.
Qed.

Lemma StronglySorted_irrefl_NoDup {A} (R : relation A) (l : list A) :
  (∀ a, ¬ R a a) → StronglySorted R l → NoDup l.
Proof.
  intros Hirr. induction 1 as [|x l Hs IH Hall]; constructor; [ | exact IH].
  intros Hin. rewrite Forall_forall in Hall. exact (Hirr x (Hall x Hin)).
Qed.

(** X1.  A list of fragments that [create_width_to_layer_map] takes is in
    strictly ascending order by depth, then row, then column (the assertion
    walks each row of a depth from left to right), so no position occurs
    twice in it. *)
Theorem accepted_fragments_strictly_ordered fragments jpegs m :
  create_width_to_layer_map fragments jpegs = Ok m →
  StronglySorted Spec.zyx_lt fragments
  ∧ NoDup ((fun fr => (fr.(fr_z), fr.(fr_x), fr.(fr_y))) <$> fragments).
Proof.
  intros H. unfold create_width_to_layer_map in H. inv_res H as b Hb.
  apply builder_loop_chain in Hb. cbn in Hb.
  apply zxy_chain_sorted in Hb as [Hs _].
  apply Sorted_StronglySorted in Hs; [ | exact zyx_lt_trans].
  split; [exact Hs | ]. clear -Hs.
  induction Hs as [|fr rest Hs IH Hall]; cbn; constructor; [ | exact IH].
  intros Hin. apply list_elem_of_fmap in Hin as (fr' & Heq & Hin').
  rewrite Forall_forall in Hall. specialize (Hall fr' Hin').
  injection Heq as Hz Hx Hy. unfold Spec.zyx_lt in Hall. lia.
Qed.

Lemma accepted_fragments_strictly_ordered_witness :
  StronglySorted Spec.zyx_lt Examples.two_depths
  ∧ NoDup ((fun fr => (fr.(fr_z), fr.(fr_x), fr.(fr_y))) <$> Examples.two_depths).
Proof.
  destruct (create_width_to_layer_map Examples.two_depths Examples.two_depths_jpegs)
    as [m|e] eqn:E; [ | vm_compute in E; discriminate].
  exact (accepted_fragments_strictly_ordered _ _ _ E).
Defined.

(** X2.  When the first fragment of a list that [create_width_to_layer_map]
    takes has a depth that is not negative, it is the fragment
    [(z, x, y) = (0, 0, 0)]. *)
Theorem accepted_fragments_start_at_origin fr rest jpegs m :
  create_width_to_layer_map (fr :: rest) jpegs = Ok m →
  0 ≤ fr.(fr_z) →
  fr.(fr_z) = 0 ∧ fr.(fr_x) = 0 ∧ fr.(fr_y) = 0.
Proof.
  intros H Hz. unfold create_width_to_layer_map in H. inv_res H as b Hb.
  apply builder_loop_chain in Hb. destruct Hb as [Hs _]. cbn in Hs.
  unfold Spec.zxy_successor in Hs. lia.
Qed.

Lemma accepted_fragments_start_at_origin_witness :
  (Examples.fragment_at 0 0 0).(fr_z) = 0
  ∧ (Examples.fragment_at 0 0 0).(fr_x) = 0
  ∧ (Examples.fragment_at 0 0 0).(fr_y) = 0.
Proof.
  destruct (create_width_to_layer_map Examples.two_depths Examples.two_depths_jpegs)
    as [m|e] eqn:E; [ | vm_compute in E; discriminate].
  apply (accepted_fragments_start_at_origin _ _ _ _ E). cbn. lia.
Defined.

End fragment_sequence.

(** ** What the pyramid builder leaves in the map and in the level array *)

Section built_levels.
Import Pyramid Inv.

Lemma copy_layer_jpegs_Ok n jj lj :
  copy_layer_jpegs n jj = Ok lj → lj = take n jj ∧ (n ≤ length jj)%nat.
Proof.
  intros H. destruct (le_lt_dec n (length jj)) as [Hle|Hlt].
  - rewrite copy_layer_jpegs_take in H by exact Hle. apply Ok_inj in H. auto.
  - rewrite copy_layer_jpegs_short in H by exact Hlt. discriminate.
Qed.

Lemma built_map_insert count m k l :
  built_map count m → built_layer count l → built_map count (<[k := l]> m).
Proof.
  intros Hm Hl k' l' H. destruct (decide (k = k')) as [<-|Hne].
  - rewrite lookup_insert_eq in H. apply (inj Some) in H. subst l'. exact Hl.
  - rewrite lookup_insert_ne in H by exact Hne. eapply Hm, H.
Qed.

Lemma built_map_insert_all count kls : ∀ m,
  built_map count m → Forall (fun kl => built_layer count kl.2) kls →
  built_map count (Spec.insert_all m kls).
Proof.
  unfold Spec.insert_all.
  induction kls as [|kl kls IH]; intros m Hm Hk; cbn [foldl]; [exact Hm | ].
  inversion Hk; subst. apply IH; [ | assumption]. apply built_map_insert; assumption.
Qed.

Lemma generate_layers_into_map_built count jpegs across down pw ph iw ih l0w m m' :
  built_map count m → Forall (fun i => (i < count)%nat) jpegs →
  generate_layers_into_map jpegs across down pw ph iw ih l0w m = Ok m' →
  built_map count m'.
Proof.
  intros Hm Hj H. rewrite generate_layers_into_map_eq in H.
  destruct (copy_layer_jpegs (Z.to_nat (across * down)) jpegs) as [lj|e] eqn:Ec;
    [ | discriminate].
  apply Ok_inj in H. subst m'. apply copy_layer_jpegs_Ok in Ec as [-> Hn].
  apply built_map_insert_all; [exact Hm | ].
  assert (Hl : ∀ sd, sd ∈ [1; 2; 4; 8] →
            built_layer count
              {| layer_jpegs := take (Z.to_nat (across * down)) jpegs;
                 pixel_w := pw; pixel_h := ph;
                 jpegs_across := across; jpegs_down := down;
                 image00_w := iw; image00_h := ih; scale_denom := sd;
                 no_scale_denom_downsample :=
                   Double.div (Double.of_int64 l0w) (Double.of_int64 pw) |}).
  { intros sd Hsd. split; [exact Hsd | ]. cbn. split.
    - rewrite length_take. lia.
    - apply Forall_take, Hj. }
  unfold Spec.emitted_levels. cbn [fmap list_fmap].
  repeat (constructor; [apply Hl; set_solver | ]). constructor.
Qed.

Lemma builder_step_built jpegs i fr next b b' :
  built_map (length jpegs) b.(width_to_layer_map) →
  Forall (fun i => (i < length jpegs)%nat) b.(layer_jpegs_tmp) →
  builder_step jpegs i fr next b = Ok b' →
  built_map (length jpegs) b'.(width_to_layer_map)
  ∧ Forall (fun i => (i < length jpegs)%nat) b'.(layer_jpegs_tmp).
Proof.
  unfold builder_step. intros Hm Ht H.
  inv_res H as u Hu. clear Hu. inv_res H as oj Hoj.
  assert (Hi : (i < length jpegs)%nat).
  { unfold array_get in Hoj.
    destruct ((0 <=? Z.of_nat i) && (Z.of_nat i <? Z.of_nat (length jpegs))) eqn:E;
      [ | discriminate].
    apply andb_true_iff in E as [_ E]. apply Z.ltb_lt in E. lia. }
  assert (Ht' : Forall (fun i => (i < length jpegs)%nat) (i :: layer_jpegs_tmp b))
    by (constructor; assumption).
  destruct ((fr_x fr =? 0) && (fr_y fr =? 0)).
  all: destruct (match next with None => true | Some nx => _ end).
  all: try (inv_res H as m' Hgen;
            apply generate_layers_into_map_built with (count := length jpegs) in Hgen;
            [ | exact Hm | apply Forall_reverse; exact Ht']).
  all: apply Ok_inj in H; subst b'; cbn; split; first [assumption | constructor].
Qed.

Lemma builder_loop_built jpegs fragments : ∀ i b b',
  built_map (length jpegs) b.(width_to_layer_map) →
  Forall (fun i => (i < length jpegs)%nat) b.(layer_jpegs_tmp) →
  builder_loop jpegs i fragments b = Ok b' →
  built_map (length jpegs) b'.(width_to_layer_map).
Proof.
  induction fragments as [|fr rest IH]; intros i b b' Hm Ht H; cbn [builder_loop] in H.
  - apply Ok_inj in H. subst b'. exact Hm.
  - inv_res H as b1 Hb1. apply builder_step_built in Hb1 as [Hm1 Ht1]; try assumption.
    eapply IH; eauto.
Qed.

Lemma create_width_to_layer_map_built fragments jpegs m :
  create_width_to_layer_map fragments jpegs = Ok m → built_map (length jpegs) m.
Proof.
  unfold create_width_to_layer_map. intros H. inv_res H as b Hb.
  apply Ok_inj in H. subst m.
  eapply builder_loop_built; [ | | exact Hb].
  - intros k l Hl. change ((∅ : gmap Z layer) !! k = Some l) in Hl.
    rewrite lookup_empty in Hl. discriminate.
  - constructor.
Qed.

Lemma load_layers_from_map keys : ∀ m ls l,
  load_layers m keys = Ok ls → l ∈ ls → ∃ k, m !! k = Some l.
Proof.
  induction keys as [|k keys IH]; intros m ls l H Hin; cbn [load_layers] in H.
  - apply Ok_inj in H. subst ls. set_solver.
  - destruct (m !! k) as [l0|] eqn:E; [ | discriminate].
    inv_res H as rest Hrest. apply Ok_inj in H. subst ls.
    apply elem_of_cons in Hin as [->|Hin]; [eauto | ].
    destruct (IH _ _ _ Hrest Hin) as [k' Hk'].
    exists k'. apply lookup_delete_Some in Hk' as [_ Hk']. exact Hk'.
Qed.

Lemma get_keys_reverse m : get_keys m = reverse (map_to_list m).*1.
Proof.
  unfold get_keys. generalize (map_to_list m). intros l.
  rewrite <- (app_nil_r (reverse l.*1)). generalize (@nil Z) as acc.
  induction l as [|kv l IH]; intros acc; cbn [foldl fmap list_fmap]; [reflexivity | ].
  rewrite IH, reverse_cons, <- app_assoc. reflexivity.
Qed.

Lemma add_jpeg_ops_layer_count fragments jpegs osr :
  _openslide_add_jpeg_ops fragments jpegs = Ok osr →
  osr.(layer_count) = Z.of_nat (length osr.(layers)).
Proof.
  unfold _openslide_add_jpeg_ops. intros H.
  inv_res H as m Hm. apply create_width_to_layer_map_keyed in Hm.
  inv_res H as keys Hkeys. apply sorted_keys_descending in Hkeys as [Hp _].
  inv_res H as ls Hls. apply Ok_inj in H. subst osr. cbn [layer_count layers].
  rewrite <- (Forall2_length _ _ _ (load_layers_keyed _ _ _ Hm Hls)), Hp,
    get_keys_reverse, length_reverse, length_fmap, length_map_to_list.
  reflexivity.
Qed.

Lemma add_jpeg_ops_built fragments jpegs osr l :
  _openslide_add_jpeg_ops fragments jpegs = Ok osr →
  l ∈ osr.(layers) → built_layer (length osr.(all_jpegs)) l.
Proof.
  unfold _openslide_add_jpeg_ops. intros H Hl.
  inv_res H as m Hm. apply create_width_to_layer_map_built in Hm.
  inv_res H as keys Hkeys. inv_res H as ls Hls. apply Ok_inj in H. subst osr.
  cbn [all_jpegs layers] in *.
  destruct (load_layers_from_map _ _ _ _ Hls Hl) as [k Hk]. eapply Hm, Hk.
Qed.

(** X3.  The level array that [_openslide_add_jpeg_ops] builds has
    [layer_count] entries, and no two of them have the same published
    width: the widths strictly decrease along the array. *)
Theorem levels_strictly_descending fragments jpegs osr :
  _openslide_add_jpeg_ops fragments jpegs = Ok osr →
  osr.(layer_count) = Z.of_nat (length osr.(layers))
  ∧ ∀ (i j : nat) li lj, (i < j)%nat →
      osr.(layers) !! i = Some li → osr.(layers) !! j = Some lj →
      published_width lj < published_width li.
Proof.
  intros H. split; [exact (add_jpeg_ops_layer_count _ _ _ H) | ].
  unfold _openslide_add_jpeg_ops in H.
  inv_res H as m Hm. apply create_width_to_layer_map_keyed in Hm.
  inv_res H as keys Hkeys. apply sorted_keys_descending in Hkeys as [Hp Hs].
  inv_res H as ls Hls. apply Ok_inj in H. subst osr. cbn [layer_count layers].
  pose proof (load_layers_keyed _ _ _ Hm Hls) as Hk.
  assert (Hnd : NoDup keys).
  { rewrite Hp, get_keys_reverse, reverse_Permutation.
    apply NoDup_fst_map_to_list. }
  - intros i j li lj Hij Hi Hj.
    destruct (Forall2_lookup_r _ _ _ _ _ Hk Hi) as (ki & Hki & Hwi).
    destruct (Forall2_lookup_r _ _ _ _ _ Hk Hj) as (kj & Hkj & Hwj).
    rewrite Hwi, Hwj.
    pose proof (StronglySorted_lookup _ _ Hs i j ki kj Hij Hki Hkj) as Hle.
    assert (ki ≠ kj).
    { intros ->. pose proof (NoDup_lookup _ _ _ _ Hnd Hki Hkj). lia. }
    cbv beta in Hle. lia.
Qed.

Lemma levels_strictly_descending_witness :
  Examples.two_depths_osr.(layer_count)
  = Z.of_nat (length Examples.two_depths_osr.(layers))
  ∧ published_width (Examples.level 1) < published_width (Examples.level 0).
Proof.
  destruct (levels_strictly_descending Examples.two_depths
              Examples.two_depths_jpegs Examples.two_depths_osr) as [Hc Hd].
  - vm_compute. reflexivity.
  - split; [exact Hc | ].
    apply (Hd 0%nat 1%nat); [lia | vm_compute; reflexivity ..].
Defined.

(** X4.  Every level of the array that [_openslide_add_jpeg_ops] builds has a
    [scale_denom] of 1, 2, 4 or 8, holds one file reference for each cell of
    its grid of [jpegs_across × jpegs_down] files, and each reference points
    into [all_jpegs]. *)
Theorem levels_are_built fragments jpegs osr :
  _openslide_add_jpeg_ops fragments jpegs = Ok osr →
  Forall (built_layer (length osr.(all_jpegs))) osr.(layers).
Proof.
  intros H. apply Forall_forall. intros l Hl.
  exact (add_jpeg_ops_built _ _ _ _ H Hl).
Qed.

Lemma levels_are_built_witness :
  Forall (built_layer (length Examples.two_depths_osr.(all_jpegs)))
    Examples.two_depths_osr.(layers).
Proof.
  apply (levels_are_built Examples.two_depths Examples.two_depths_jpegs).
  vm_compute. reflexivity.
Defined.

(** X5.  On a slide that [_openslide_add_jpeg_ops] has built,
    [get_dimensions] answers for every level from 0 up to [layer_count - 1]
    with the published width and height of that level: the level is in the
    array and its [scale_denom] is not zero. *)
Theorem get_dimensions_after_setup fragments jpegs osr level :
  _openslide_add_jpeg_ops fragments jpegs = Ok osr →
  0 ≤ level < osr.(layer_count) →
  ∃ l, osr.(layers) !! Z.to_nat level = Some l
    ∧ Ops.get_dimensions osr level = Ok (published_width l, published_height l).
Proof.
  intros H Hlevel.
  pose proof (add_jpeg_ops_layer_count _ _ _ H) as Hcount.
  destruct (osr.(layers) !! Z.to_nat level) as [l|] eqn:El.
  2:{ apply lookup_ge_None in El. lia. }
  exists l. split; [reflexivity | ].
  destruct (add_jpeg_ops_built _ _ _ _ H (list_elem_of_lookup_2 _ _ _ El))
    as (Hsd & _).
  unfold Ops.get_dimensions, array_get.
  destruct (Z.geb_spec level osr.(layer_count)); [lia | ].
  destruct (Z.leb_spec 0 level); [ | lia].
  destruct (Z.ltb_spec level (Z.of_nat (length osr.(layers)))); [ | lia].
  cbn [andb]. rewrite El. cbn [mbind res_bind]. unfold CInt.cdiv.
  destruct (Z.eqb_spec l.(scale_denom) 0) as [E0|_].
  { rewrite E0, !elem_of_cons, elem_of_nil in Hsd. lia. }
  reflexivity.
Qed.

Lemma get_dimensions_after_setup_witness :
  ∃ l, Examples.two_depths_osr.(layers) !! Z.to_nat 5 = Some l
    ∧ Ops.get_dimensions Examples.two_depths_osr 5
      = Ok (published_width l, published_height l).
Proof.
  apply (get_dimensions_after_setup Examples.two_depths Examples.two_depths_jpegs).
  - vm_compute. reflexivity.
  - vm_compute. split; [discriminate | reflexivity].
Defined.

End built_levels.

(** ** Sorting the keys *)

Section sort_total.
Import Pyramid.
Context {A : Type} (compare_func : A -> A -> res Z) (P : A -> Prop).
Hypothesis compare_defined : ∀ a b, P a → P b → ∃ c, compare_func a b = Ok c.

Lemma g_list_sort_merge_total l1 : ∀ l2,
  Forall P l1 → Forall P l2 → ∃ r, g_list_sort_merge compare_func l1 l2 = Ok r.
Proof.
  induction l1 as [|x1 l1 IH1]; intros l2 H1 H2.
  { exists l2. destruct l2; reflexivity. }
  induction l2 as [|x2 l2 IH2].
  { exists (x1 :: l1). reflexivity. }
  rewrite g_list_sort_merge_cons.
  apply Forall_cons in H1 as [Hx1 H1']. apply Forall_cons in H2 as [Hx2 H2'].
  destruct (compare_defined x1 x2 Hx1 Hx2) as [c ->]. cbn [mbind res_bind].
  destruct (c <=? 0).
  - destruct (IH1 (x2 :: l2) H1' ltac:(constructor; assumption)) as [r ->].
    cbn [mbind res_bind]. eauto.
  - destruct (IH2 H2') as [r ->]. cbn [mbind res_bind]. eauto.
Qed.

Lemma g_list_sort_real_total fuel : ∀ l,
  Forall P l → (length l ≤ S fuel)%nat →
  ∃ r, g_list_sort_real compare_func fuel l = Ok r.
Proof.
  induction fuel as [|fuel IH]; intros l Hl Hlen.
  - destruct l as [|a [|b l]]; cbn in *; [eauto .. | lia].
  - destruct l as [|a [|b l]]; [cbn; eauto .. | ].
    remember (a :: b :: l) as l0 eqn:El0.
    assert (Hlen0 : (2 ≤ length l0)%nat) by (subst l0; cbn; lia).
    assert (Hstep : g_list_sort_real compare_func (S fuel) l0
              = (s1 ← g_list_sort_real compare_func fuel (take (length l0 / 2) l0);
                 s2 ← g_list_sort_real compare_func fuel (drop (length l0 / 2) l0);
                 g_list_sort_merge compare_func s1 s2))
      by (subst l0; reflexivity).
    rewrite Hstep. clear Hstep El0.
    assert (Hhalf : (1 ≤ length l0 / 2 ∧ length l0 / 2 < length l0)%nat).
    { split; [apply Nat.div_le_lower_bound; lia | apply Nat.div_lt; lia]. }
    destruct (IH (take (length l0 / 2) l0)) as [s1 Hs1];
      [apply Forall_take, Hl | rewrite length_take; lia | ].
    destruct (IH (drop (length l0 / 2) l0)) as [s2 Hs2];
      [apply Forall_drop, Hl | rewrite length_drop; lia | ].
    rewrite Hs1, Hs2. cbn [mbind res_bind].
    apply (g_list_sort_real_sorted compare_func (fun _ _ => True)) in Hs1 as [Hp1 _];
      [ | auto ..].
    apply (g_list_sort_real_sorted compare_func (fun _ _ => True)) in Hs2 as [Hp2 _];
      [ | auto ..].
    apply g_list_sort_merge_total.
    + rewrite Hp1. apply Forall_take, Hl.
    + rewrite Hp2. apply Forall_drop, Hl.
Qed.

End sort_total.

Section sorted_keys.
Import Pyramid.

(** X6.  [g_list_sort] with [width_compare] on keys none of which is
    negative returns: no assertion of [width_compare] fails, and the result
    holds the same keys, each as often as before, in descending order. *)
Theorem g_list_sort_width_compare_sorts keys :
  Forall (fun k => 0 ≤ k) keys →
  ∃ sorted, g_list_sort width_compare keys = Ok sorted
    ∧ sorted ≡ₚ keys
    ∧ StronglySorted (fun a b => b ≤ a) sorted.
Proof.
  intros Hk.
  destruct (g_list_sort_real_total width_compare (fun k => 0 ≤ k)) with
    (fuel := length keys) (l := keys) as [sorted Hs]; [ | exact Hk | lia | ].
  - intros a b Ha Hb. unfold width_compare, g_assert.
    destruct (Z.leb_spec 0 a); [ | lia]. destruct (Z.leb_spec 0 b); [ | lia].
    cbn. eauto.
  - exists sorted. split; [exact Hs | ]. apply sorted_keys_descending. exact Hs.
Qed.

Lemma g_list_sort_width_compare_sorts_witness :
  ∃ sorted, g_list_sort width_compare [16; 128; 32; 64; 8; 4] = Ok sorted
    ∧ sorted ≡ₚ [16; 128; 32; 64; 8; 4]
    ∧ StronglySorted (fun a b => b ≤ a) sorted.
Proof.
  apply g_list_sort_width_compare_sorts.
  repeat (constructor; [lia | ]). constructor.
Defined.

(** X7.  A flush of the pyramid builder fails, on [g_assert(jj)], exactly
    when the depth has fewer files than its grid of
    [jpegs_across × jpegs_down] has cells; otherwise it returns a map. *)
Theorem generate_layers_into_map_density jpegs across down pw ph iw ih l0w m :
  ((Z.to_nat (across * down) ≤ length jpegs)%nat →
   ∃ m', generate_layers_into_map jpegs across down pw ph iw ih l0w m = Ok m')
  ∧ ((length jpegs < Z.to_nat (across * down))%nat →
     generate_layers_into_map jpegs across down pw ph iw ih l0w m
     = Err (AssertFailed assert_jj)).
Proof.
  rewrite generate_layers_into_map_eq. split; intros H.
  - rewrite copy_layer_jpegs_take by exact H. cbn [mbind res_bind]. eauto.
  - rewrite copy_layer_jpegs_short by exact H. reflexivity.
Qed.

(** X8.  After a flush the map holds the layer of scale 8 under the key
    [pixel_w / 8]; when [pixel_w] is at least 8 the four keys differ and each
    of the four scales is found under its key [pixel_w / scale_denom]; every
    other key of the map is as it was. *)
Theorem generate_layers_into_map_lookup jpegs across down pw ph iw ih l0w m m' :
  generate_layers_into_map jpegs across down pw ph iw ih l0w m = Ok m' →
  (∃ l, m' !! Z.quot pw 8 = Some l ∧ l.(scale_denom) = 8 ∧ l.(pixel_w) = pw)
  ∧ (8 ≤ pw → ∀ sd, sd ∈ [1; 2; 4; 8] →
       ∃ l, m' !! Z.quot pw sd = Some l ∧ l.(scale_denom) = sd ∧ l.(pixel_w) = pw)
  ∧ (∀ k, k ∉ [Z.quot pw 1; Z.quot pw 2; Z.quot pw 4; Z.quot pw 8] →
       m' !! k = m !! k).
Proof.
  intros H. rewrite generate_layers_into_map_eq in H.
  destruct (copy_layer_jpegs (Z.to_nat (across * down)) jpegs) as [lj|e];
    [ | discriminate].
  apply Ok_inj in H. subst m'.
  unfold Spec.insert_all, Spec.emitted_levels. cbn [fmap list_fmap foldl fst snd].
  split; [ | split].
  - eexists. rewrite lookup_insert_eq. split; [reflexivity | auto].
  - intros Hpw sd Hsd.
    assert (Hq : Z.quot pw 1 = pw ∧ Z.quot pw 2 = pw / 2
                 ∧ Z.quot pw 4 = pw / 4 ∧ Z.quot pw 8 = pw / 8).
    { rewrite !Z.quot_div_nonneg by lia. rewrite Z.div_1_r. auto. }
    destruct Hq as (Hq1 & Hq2 & Hq4 & Hq8).
    assert (Hd : pw / 8 < pw / 4 < pw / 2 ∧ pw / 2 < pw).
    { pose proof (Z.div_mod pw 8 ltac:(lia)). pose proof (Z.mod_pos_bound pw 8 ltac:(lia)).
      pose proof (Z.div_mod pw 4 ltac:(lia)). pose proof (Z.mod_pos_bound pw 4 ltac:(lia)).
      pose proof (Z.div_mod pw 2 ltac:(lia)). pose proof (Z.mod_pos_bound pw 2 ltac:(lia)).
      lia. }
    rewrite !elem_of_cons, elem_of_nil in Hsd.
    destruct Hsd as [->|[->|[->|[->|[]]]]]; eexists.
    + rewrite !lookup_insert_ne by lia. rewrite lookup_insert_eq. auto.
    + rewrite !lookup_insert_ne by lia. rewrite lookup_insert_eq. auto.
    + rewrite !lookup_insert_ne by lia. rewrite lookup_insert_eq. auto.
    + rewrite lookup_insert_eq. auto.
  - intros k Hk. rewrite !not_elem_of_cons in Hk. destruct Hk as (? & ? & ? & ? & _).
    rewrite !lookup_insert_ne by auto. reflexivity.
Qed.

Lemma generate_layers_into_map_lookup_witness :
  (∃ l, Spec.insert_all ∅ (Spec.emitted_levels [0%nat] 1 1 64 64 64 64 64)
          !! Z.quot 64 8 = Some l ∧ l.(scale_denom) = 8 ∧ l.(pixel_w) = 64)
  ∧ (8 ≤ 64 → ∀ sd, sd ∈ [1; 2; 4; 8] →
       ∃ l, Spec.insert_all ∅ (Spec.emitted_levels [0%nat] 1 1 64 64 64 64 64)
              !! Z.quot 64 sd = Some l ∧ l.(scale_denom) = sd ∧ l.(pixel_w) = 64)
  ∧ (∀ k, k ∉ [Z.quot 64 1; Z.quot 64 2; Z.quot 64 4; Z.quot 64 8] →
       Spec.insert_all ∅ (Spec.emitted_levels [0%nat] 1 1 64 64 64 64 64) !! k
       = (∅ : gmap Z layer) !! k).
Proof.
  apply (generate_layers_into_map_lookup [0%nat] 1 1 64 64 64 64 64 ∅).
  rewrite generate_layers_into_map_eq. reflexivity.
Defined.

End sorted_keys.

(** ** Where the reader stores *)

Section reader_extent.
Import Ops Inv.

Lemma land_le a b : 0 ≤ b → Z.land a b ≤ b.
Proof.
  intros Hb.
  assert (H0 : Z.land (Z.ldiff b a) (Z.land a b) = 0).
  { rewrite Z.land_assoc, Z.land_ldiff. apply Z.land_0_l. }
  pose proof (Z.add_lor_land (Z.ldiff b a) (Z.land a b)) as Hadd.
  rewrite H0, Z.add_0_r in Hadd.
  rewrite (Z.land_comm a b), Z.lor_ldiff_and in Hadd.
  assert (0 ≤ Z.ldiff b a) by (apply Z.ldiff_nonneg; auto).
  rewrite (Z.land_comm a b). lia.
Qed.

Lemma lor_ge a b : 0 ≤ b → a ≤ Z.lor a b.
Proof.
  intros Hb. pose proof (Z.add_lor_land a b). pose proof (land_le a b Hb). lia.
Qed.

Lemma sample_below row k v : sample row k = Ok v → 0 ≤ v < 256.
Proof.
  unfold sample. intros H. inv_res H as b Hb. apply Ok_inj in H. subst v.
  unfold CInt.uint8, CInt.wrap_unsigned. change (2 ^ 8) with 256.
  apply Z.mod_pos_bound. lia.
Qed.

(** Every word that [pixel] makes has the alpha byte FF. *)
Lemma pixel_opaque row col p : pixel row col = Ok p → 0xFF000000 ≤ p < 2 ^ 32.
Proof.
  unfold pixel. intros H.
  inv_res H as r Hr. inv_res H as g Hg. inv_res H as b Hb. apply Ok_inj in H.
  apply sample_below in Hr, Hg, Hb. subst p.
  change (Z.lor (Z.lor (Z.lor 4278190080 (Z.shiftl r 16)) (Z.shiftl g 8)) b)
    with (Spec.argb r g b).
  pose proof (argb_below r g b Hr Hg Hb) as Hup.
  unfold CInt.uint32, CInt.wrap_unsigned. rewrite Z.mod_small by exact Hup.
  split; [ | apply Hup]. unfold Spec.argb.
  rewrite <- !Z.lor_assoc. apply lor_ge.
  apply Z.lor_nonneg. split; [apply Z.shiftl_nonneg; lia | ].
  apply Z.lor_nonneg. split; [apply Z.shiftl_nonneg; lia | lia].
Qed.

Lemma copy_row_within w ow d_x dst row fuel : ∀ i out,
  0 ≤ i → copy_row fuel i w ow d_x dst row = Ok out →
  Forall (fun s => (∃ j, 0 ≤ j < w ∧ s.1 = dst + j) ∧ opaque_word s) out.
Proof.
  induction fuel as [|fuel IH]; intros i out Hi H; cbn [copy_row] in H.
  { apply Ok_inj in H. subst out. constructor. }
  destruct (Z.ltb_spec i w) as [Hiw|Hiw]; cbn [andb] in H.
  2:{ apply Ok_inj in H. subst out. constructor. }
  destruct (i <? CInt.int32 ow - d_x).
  2:{ apply Ok_inj in H. subst out. constructor. }
  inv_res H as p Hp. inv_res H as rest Hrest. apply Ok_inj in H. subst out.
  constructor.
  - split; [exists i; cbn; split; [lia | reflexivity] | ].
    apply pixel_opaque in Hp. exact Hp.
  - apply (IH (i + 1)); [lia | exact Hrest].
Qed.

Lemma copy_rows_within w ow d_x stride group : ∀ c out c',
  copy_rows w ow d_x stride group c = Ok (out, c') →
  Forall (fun s => in_rectangle c.(dest) w c.(rows_left) stride s ∧ opaque_word s) out
  ∧ c'.(dest) = c.(dest) + (c.(rows_left) - c'.(rows_left)) * stride
  ∧ c'.(rows_left) ≤ c.(rows_left).
Proof.
  induction group as [|row rest IH]; intros c out c' H; cbn [copy_rows] in H.
  { apply Ok_inj in H. injection H as <- <-. split; [constructor | lia]. }
  destruct (Z.gtb_spec c.(rows_left) 0) as [Hleft|Hleft].
  2:{ apply Ok_inj in H. injection H as <- <-. split; [constructor | lia]. }
  inv_res H as out1 Hout1. inv_res H as oc Hoc. destruct oc as [out2 c2].
  apply Ok_inj in H. injection H as <- <-.
  apply IH in Hoc as (Hin2 & Hd2 & Hl2).
  assert (Hin1 : Forall (fun s => in_rectangle c.(dest) w c.(rows_left) stride s
                                  ∧ opaque_word s) out1).
  { destruct (rows_to_skip c =? 0).
    - apply copy_row_within in Hout1; [ | lia].
      eapply Forall_impl; [exact Hout1 | ].
      intros s [(j & Hj & Hs) Ho]. split; [ | exact Ho].
      exists 0, j. split; [lia | ]. split; [exact Hj | lia].
    - apply Ok_inj in Hout1. subst out1. constructor. }
  destruct (rows_to_skip c >? 0); cbn [dest rows_left rows_to_skip] in *.
  - split; [ | lia]. apply Forall_app. split; [exact Hin1 | exact Hin2].
  - split; [ | lia]. apply Forall_app. split; [exact Hin1 | ].
    eapply Forall_impl; [exact Hin2 | ].
    intros s [(k & j & Hk & Hj & Hs) Ho]. split; [ | exact Ho].
    exists (k + 1), j. split; [lia | ]. split; [exact Hj | lia].
Qed.

Lemma read_scanlines_loop_within w ow d_x stride groups : ∀ c out,
  read_scanlines_loop w ow d_x stride groups c = Ok out →
  Forall (fun s => in_rectangle c.(dest) w c.(rows_left) stride s ∧ opaque_word s) out.
Proof.
  induction groups as [|group rest IH]; intros c out H;
    cbn [read_scanlines_loop] in H.
  { apply Ok_inj in H. subst out. constructor. }
  destruct (rows_left c >? 0).
  2:{ apply Ok_inj in H. subst out. constructor. }
  inv_res H as oc Hoc. destruct oc as [out1 c1]. inv_res H as out2 Hout2.
  apply Ok_inj in H. subst out.
  apply copy_rows_within in Hoc as (Hin1 & Hd & Hl). apply IH in Hout2.
  apply Forall_app. split; [exact Hin1 | ].
  eapply Forall_impl; [exact Hout2 | ].
  intros s [(k & j & Hk & Hj & Hs) Ho]. split; [ | exact Ho].
  exists (k + (rows_left c - rows_left c1)), j.
  split; [lia | ]. split; [exact Hj | ]. rewrite Hs, Hd. lia.
Qed.

Lemma read_from_one_jpeg_extent jpeg_decompress jpeg dst x y scale_denom w h stride out :
  read_from_one_jpeg jpeg_decompress jpeg dst x y scale_denom w h stride = Ok out →
  Forall (fun s => in_rectangle dst w h stride s ∧ opaque_word s) out.
Proof.
  unfold read_from_one_jpeg. intros H.
  inv_res H as cinfo Hc. inv_res H as xt Hxt. inv_res H as d_x Hdx.
  inv_res H as yt Hyt. inv_res H as d_y Hdy.
  apply read_scanlines_loop_within in H. exact H.
Qed.

(** X9.  Whatever the decoder returns, every store of a
    [read_from_one_jpeg] that returns goes to [dest + k * stride + i] for a
    row [0 ≤ k < h] and a column [0 ≤ i < w], and the stored word has the
    top byte FF: the reader writes nowhere outside the rectangle it was
    asked to fill, and nothing when [w] or [h] is not positive. *)
Theorem read_from_one_jpeg_within_rectangle
    jpeg_decompress jpeg dst x y scale_denom w h stride out :
  read_from_one_jpeg jpeg_decompress jpeg dst x y scale_denom w h stride = Ok out →
  Forall (fun s => in_rectangle dst w h stride s ∧ opaque_word s) out
  ∧ (w ≤ 0 ∨ h ≤ 0 → out = []).
Proof.
  intros H. apply read_from_one_jpeg_extent in H. split; [exact H | ].
  intros Hwh. destruct out as [|s out]; [reflexivity | ].
  apply Forall_cons in H as [[(k & i & Hk & Hi & _) _] _]. lia.
Qed.

End reader_extent.

Lemma read_from_one_jpeg_within_rectangle_witness :
  Forall (fun s => Inv.in_rectangle 100 2 2 10 s ∧ Inv.opaque_word s)
    [(100, 0xFF0A0B0C); (110, 0xFF101112)]
  ∧ (2 ≤ 0 ∨ 2 ≤ 0 → [(100, 0xFF0A0B0C); (110, 0xFF101112)] = @nil (Z * Z)).
Proof.
  apply (read_from_one_jpeg_within_rectangle Examples.tiny_decompress
           Examples.tiny_jpeg 100 1 1 1 2 2 10).
  vm_compute. reflexivity.
Defined.

(** ** Where the router sends the files *)

Section router_extent.
Import Ops Inv.







End router_extent.





(** ** The fancy source and its stop position *)

Section fill_bounds.
Import FancySrc Inv.

Lemma position_at_lookup src i p :
  position_at src i = Ok p → 0 ≤ i ∧ src.(start_positions) !! Z.to_nat i = Some p.
Proof.
  unfold position_at, array_get. intros H.
  destruct (Z.leb_spec 0 i); cbn [andb] in H; [ | discriminate].
  destruct (i <? _); [ | discriminate].
  destruct (_ !! _) as [v|]; [ | discriminate]. apply Ok_inj in H. subst. auto.
Qed.

Lemma ascending_lookup positions i p :
  ascending positions → positions !! i = Some p → 0 ≤ p ≤ CInt.INT64_MAX.
Proof.
  intros [Hr _] H. rewrite Forall_forall in Hr. apply Hr.
  eapply list_elem_of_lookup_2, H.
Qed.

Lemma ascending_mono positions (i j : nat) a b :
  ascending positions → (i ≤ j)%nat →
  positions !! i = Some a → positions !! j = Some b → a ≤ b.
Proof.
  intros [_ Hs] Hij Hi Hj. destruct (decide (i = j)) as [->|Hne].
  - rewrite Hi in Hj. injection Hj as ->. lia.
  - eapply (StronglySorted_lookup Z.le); [exact Hs | | exact Hi | exact Hj]. lia.
Qed.

Lemma MIN_int64_size_t_le a :
  0 ≤ a ≤ CInt.INT64_MAX →
  0 ≤ CInt.MIN_int64_size_t a INPUT_BUF_SIZE ≤ a
  ∧ CInt.MIN_int64_size_t a INPUT_BUF_SIZE ≤ INPUT_BUF_SIZE.
Proof.
  intros Ha. unfold CInt.MIN_int64_size_t, CInt.uint64, CInt.wrap_unsigned, INPUT_BUF_SIZE.
  unfold CInt.INT64_MAX in Ha.
  rewrite Z.mod_small by lia.
  destruct (Z.ltb_spec a 4096); lia.
Qed.

Lemma compute_next_positions_not_stop src e :
  compute_next_positions src = Err e → e ≠ AssertFailed assert_pos_le_stop.
Proof.
  unfold compute_next_positions, position_at, array_get, g_assert. intros H.
  repeat match type of H with
         | context [if ?b then _ else _] => destruct b; cbn [mbind res_bind] in H
         | context [match ?o with Some _ => _ | None => _ end] =>
             destruct o; cbn [mbind res_bind] in H
         end;
    try discriminate; injection H as <-; discriminate.
Qed.

Lemma compute_next_positions_ascending src src' :
  ascending src.(start_positions) → 0 ≤ src.(width) →
  compute_next_positions src = Ok src' →
  0 ≤ src'.(next_start_position) ≤ src'.(stop_position)
  ∧ src'.(stop_position) ≤ CInt.INT64_MAX.
Proof.
  intros Hasc Hw H. unfold compute_next_positions in H.
  destruct (start_positions_count src =? 0).
  { apply Ok_inj in H. subst src'. cbn. unfold CInt.INT64_MAX. lia. }
  destruct (start_of_file src).
  { inv_res H as stop Hstop. inv_res H as u Hu. apply Ok_inj in H. subst src'. cbn.
    apply position_at_lookup in Hstop as [_ Hstop].
    pose proof (ascending_lookup _ _ _ Hasc Hstop). lia. }
  inv_res H as u Hu. inv_res H as position Hpos. inv_res H as stop Hstop.
  apply Ok_inj in H. subst src'. cbn.
  apply position_at_lookup in Hpos as [Ho Hpos].
  pose proof (ascending_lookup _ _ _ Hasc Hpos) as Hp.
  destruct (next_start_offset src + stride src + width src
            <? start_positions_count src).
  - apply position_at_lookup in Hstop as [_ Hstop].
    pose proof (ascending_lookup _ _ _ Hasc Hstop).
    pose proof (ascending_mono _ (Z.to_nat (next_start_offset src + stride src))
                  (Z.to_nat (next_start_offset src + stride src + width src))
                  _ _ Hasc ltac:(lia) Hpos Hstop).
    lia.
  - apply Ok_inj in Hstop. subst stop. lia.
Qed.

Lemma fill_seek_within src :
  within_stop src →
  fill_seek src ≠ Err (AssertFailed assert_pos_le_stop)
  ∧ ∀ rw src1 n, fill_seek src = Ok (rw, src1, n) →
      0 ≤ n ≤ INPUT_BUF_SIZE
      ∧ 0 ≤ src1.(infile).(fpos)
      ∧ src1.(infile).(fpos) + n ≤ src1.(stop_position)
      ∧ src1.(stop_position) ≤ CInt.INT64_MAX.
Proof.
  intros (Hpos & Hstop & Hasc & Hw & Hbuf). unfold fill_seek, ftello.
  destruct (if start_positions_count src =? 0 then Ok false
            else p0 ← position_at src 0; Ok (negb (fpos (infile src) <? p0)))
    as [rw|e] eqn:Erw.
  2:{ cbn [mbind res_bind]. split; [ | discriminate].
      destruct (start_positions_count src =? 0); [discriminate | ].
      unfold position_at, array_get in Erw.
      repeat match type of Erw with
         | context [if ?b then _ else _] => destruct b; cbn [mbind res_bind] in Erw
         | context [match ?o with Some _ => _ | None => _ end] =>
             destruct o; cbn [mbind res_bind] in Erw
         end; try discriminate; injection Erw as <-; discriminate. }
  cbn [mbind res_bind]. unfold g_assert.
  destruct (Z.leb_spec (fpos (infile src)) (stop_position src)) as [_|]; [ | lia].
  cbn [mbind res_bind].
  destruct (Z.ltb_spec (fpos (infile src)) (stop_position src)) as [Hlt|Hge].
  { split; [discriminate | ]. intros rw' src1 n H. injection H as _ <- <-.
    pose proof (MIN_int64_size_t_le (stop_position src - fpos (infile src))
                  ltac:(unfold CInt.INT64_MAX in *; lia)).
    lia. }
  destruct (Z.eqb_spec (fpos (infile src)) (stop_position src)) as [Heq|]; [ | lia].
  destruct (compute_next_positions src) as [src'|e] eqn:Ec; cbn [mbind res_bind].
  2:{ split; [ | discriminate]. intros H. injection H as ->.
      eapply compute_next_positions_not_stop; [exact Ec | reflexivity]. }
  split; [discriminate | ]. intros rw' src1 n H. injection H as _ <- <-.
  pose proof (compute_next_positions_ascending _ _ Hasc Hw Ec) as (Hn & Hs).
  pose proof (MIN_int64_size_t_le (stop_position src' - next_start_position src')
                ltac:(unfold CInt.INT64_MAX in *; lia)).
  cbn [infile stop_position set_infile]. unfold fseeko.
  destruct (Z.ltb_spec (next_start_position src') 0); [lia | ]. cbn [fpos]. lia.
Qed.

Lemma fread_length n file :
  Z.of_nat (length (fread n file).1) ≤ Z.max 0 n
  ∧ (fread n file).2.(fpos) = file.(fpos) + Z.of_nat (length (fread n file).1).
Proof.
  unfold fread. cbn [fst snd fpos]. split; [ | reflexivity].
  rewrite length_take. lia.
Qed.

Lemma rewrite_markers_loop_length n : ∀ i buf lwf marker,
  length (rewrite_markers_loop n i buf lwf marker).1.1 = length buf.
Proof.
  induction n as [|n IH]; intros i buf lwf marker; cbn [rewrite_markers_loop].
  { reflexivity. }
  destruct (lwf && _); rewrite IH; [apply length_insert | reflexivity].
Qed.

Lemma fill_store_within rw src got file src' :
  Z.of_nat (length got) ≤ INPUT_BUF_SIZE →
  INPUT_BUF_SIZE ≤ Z.of_nat (length src.(buffer)) →
  0 ≤ file.(fpos) →
  fill_store rw src got file = Ok src' →
  1 ≤ src'.(bytes_in_buffer) ≤ INPUT_BUF_SIZE
  ∧ src'.(next_input_byte) = 0
  ∧ length src'.(buffer) = length src.(buffer)
  ∧ 0 ≤ src'.(infile).(fpos) ≤ file.(fpos).
Proof.
  unfold INPUT_BUF_SIZE. intros Hgot Hbuf Hpos H. unfold fill_store in H.
  assert (Hlen : length (got ++ drop (length got) src.(buffer)) = length src.(buffer)).
  { rewrite length_app, length_drop. lia. }
  destruct (Z.leb_spec (Z.of_nat (length got)) 0) as [Hz|Hnz].
  { destruct (start_of_file src); [discriminate | ].
    apply Ok_inj in H. subst src'. cbn. rewrite length_drop, Hlen. lia. }
  destruct rw.
  2:{ apply Ok_inj in H. subst src'. cbn [bytes_in_buffer next_input_byte buffer infile set_filled].
      rewrite Hlen. lia. }
  pose proof (rewrite_markers_loop_length (length got) 0
                (got ++ drop (length got) src.(buffer)) false
                src.(next_restart_marker)) as Hl.
  destruct (rewrite_markers_loop _ _ _ _ _) as [[buf' lwf'] marker'].
  cbn [fst] in Hl.
  destruct lwf'; cbn [andb] in H; [destruct (Z.gtb_spec (Z.of_nat (length got)) 1) | ];
    apply Ok_inj in H; subst src';
    cbn [bytes_in_buffer next_input_byte buffer infile set_filled];
    rewrite Hl, Hlen; try lia.
  unfold fseek_cur, fseeko. destruct (Z.ltb_spec (fpos file + -1) 0); cbn [fpos]; lia.
Qed.

Lemma fill_input_buffer_within src :
  within_stop src →
  fill_input_buffer src ≠ Err (AssertFailed assert_pos_le_stop)
  ∧ ∀ src', fill_input_buffer src = Ok src' →
      within_stop src'
      ∧ 1 ≤ src'.(bytes_in_buffer) ≤ INPUT_BUF_SIZE
      ∧ src'.(next_input_byte) = 0
      ∧ length src'.(buffer) = length src.(buffer).
Proof.
  intros Hin. pose proof Hin as (Hpos & Hstop & Hasc & Hw & Hbuf).
  destruct (fill_seek_within src Hin) as [Hne Hseek].
  unfold fill_input_buffer.
  destruct (fill_seek src) as [[[rw src1] n]|e] eqn:Es; cbn [mbind res_bind].
  2:{ split; [ | discriminate].
      intros H. injection H as ->. apply Hne. reflexivity. }
  destruct (Hseek rw src1 n eq_refl) as (Hn & Hp1 & Hp2 & Hs1).
  pose proof (fill_seek_keeps _ _ _ _ Es) as ((_ & Htab & _ & _ & Hwd & _) & Hb & _).
  pose proof (fread_length n (infile src1)) as [Hgl Hgp].
  destruct (fread n (infile src1)) as [got file]. cbn [fst snd] in Hgl, Hgp.
  split.
  { intros H. apply fill_store_error in H. discriminate. }
  intros src' H.
  pose proof (fill_store_keeps _ _ _ _ _ H)
    as (H1 & _ & _ & H4 & _ & _ & _ & H8 & _).
  apply fill_store_within in H as (Hb1 & Hb2 & Hb3 & Hb4); [ | lia | congruence | lia].
  split; [ | rewrite Hb3, Hb; auto].
  unfold within_stop. rewrite H8, H1, H4, Htab, Hwd, Hb3, Hb.
  split; [lia | ]. split; [lia | ]. split; [assumption | ].
  split; [assumption | lia].
Qed.

Lemma fill_n_within n : ∀ src,
  within_stop src →
  fill_n n src ≠ Err (AssertFailed assert_pos_le_stop)
  ∧ ∀ src', fill_n n src = Ok src' →
      within_stop src'
      ∧ length src'.(buffer) = length src.(buffer)
      ∧ ((0 < n)%nat →
         1 ≤ src'.(bytes_in_buffer) ≤ INPUT_BUF_SIZE ∧ src'.(next_input_byte) = 0).
Proof.
  induction n as [|n IH]; intros src Hin; cbn [fill_n].
  { split; [discriminate | ]. intros src' H. apply Ok_inj in H. subst src'.
    split; [exact Hin | ]. split; [reflexivity | lia]. }
  destruct (fill_input_buffer_within src Hin) as [Hne Hstep].
  destruct (fill_input_buffer src) as [src1|e]; cbn [mbind res_bind].
  2:{ split; [exact Hne | discriminate]. }
  destruct (Hstep src1 eq_refl) as (Hin1 & Hb & Hnext & Hlen).
  destruct (IH src1 Hin1) as [Hne1 Hrest]. split; [exact Hne1 | ].
  intros src' H. destruct (Hrest src' H) as (Hin' & Hlen' & Hb').
  split; [exact Hin' | ]. split; [congruence | ]. intros _.
  destruct n as [|n]; [ | apply Hb'; lia].
  cbn [fill_n] in H. apply Ok_inj in H. subst src'. auto.
Qed.

Lemma init_source_within file buf positions count tl w st s1 :
  ascending positions → 0 ≤ w → INPUT_BUF_SIZE ≤ Z.of_nat (length buf) →
  init_source (_openslide_jpeg_fancy_src (rewind file) buf positions count tl w st)
    = Ok s1 →
  within_stop s1 ∧ s1.(buffer) = buf.
Proof.
  intros Hasc Hw Hbuf H. unfold init_source in H.
  pose proof (compute_next_positions_keeps _ _ H)
    as ((_ & Htab & _ & _ & Hwd & _) & Hf & Hb & _).
  apply compute_next_positions_ascending in H as (Hn & Hs); [ | exact Hasc | exact Hw].
  cbn in Htab, Hwd, Hf, Hb. split; [ | exact Hb].
  unfold within_stop. rewrite Hf, Htab, Hwd, Hb. unfold rewind. cbn [fpos].
  split; [lia | ]. split; [lia | ]. split; [assumption | ]. split; assumption.
Qed.

(** X12.  With a table of positions in ascending order and a window that
    is not of negative width, the file never gets past [stop_position]: in
    no run of fills from [init_source] does the assertion
    [pos <= stop_position] of [fill_input_buffer] fail. *)
Theorem fancy_src_never_past_stop file buf positions count tl w st s1 n :
  ascending positions → 0 ≤ w → INPUT_BUF_SIZE ≤ Z.of_nat (length buf) →
  init_source (_openslide_jpeg_fancy_src (rewind file) buf positions count tl w st)
    = Ok s1 →
  fill_n n s1 ≠ Err (AssertFailed assert_pos_le_stop)
  ∧ ∀ src, fill_n n s1 = Ok src →
      0 ≤ ftello src.(infile) ≤ src.(stop_position).
Proof.
  intros Hasc Hw Hbuf Hinit.
  apply init_source_within in Hinit as [Hin _]; try assumption.
  destruct (fill_n_within n s1 Hin) as [Hne Hrest]. split; [exact Hne | ].
  intros src H. destruct (Hrest src H) as ((Hpos & _) & _). exact Hpos.
Qed.

(** X13.  With a table of positions in ascending order, a window that is
    not of negative width and a buffer of [INPUT_BUF_SIZE] bytes, every
    fill leaves between 1 and [INPUT_BUF_SIZE] bytes to take, from the
    start of the buffer, and the buffer keeps its length: no fill stores
    past the end of the buffer and none hands the decoder an empty one. *)
Theorem fancy_src_buffer_bounds file buf positions count tl w st s1 n src :
  ascending positions → 0 ≤ w → INPUT_BUF_SIZE ≤ Z.of_nat (length buf) →
  init_source (_openslide_jpeg_fancy_src (rewind file) buf positions count tl w st)
    = Ok s1 →
  fill_n (S n) s1 = Ok src →
  1 ≤ src.(bytes_in_buffer) ≤ INPUT_BUF_SIZE
  ∧ src.(next_input_byte) = 0
  ∧ length src.(buffer) = length buf.
Proof.
  intros Hasc Hw Hbuf Hinit H.
  apply init_source_within in Hinit as [Hin Hb]; try assumption.
  destruct (fill_n_within (S n) s1 Hin) as [_ Hrest].
  destruct (Hrest src H) as (_ & Hlen & Hbytes).
  destruct (Hbytes ltac:(lia)) as [Hb1 Hb2].
  split; [exact Hb1 | ]. split; [exact Hb2 | ]. rewrite Hlen, Hb. reflexivity.
Qed.

End fill_bounds.

Lemma marked_positions_ascending : Inv.ascending Examples.marked_positions.
Proof.
  unfold Inv.ascending, Examples.marked_positions, CInt.INT64_MAX.
  split; repeat constructor; lia.
Qed.

Lemma fancy_src_never_past_stop_witness :
  FancySrc.fill_n 3 (Examples.after_fills 0 Examples.marked_src_full)
  ≠ Err (AssertFailed assert_pos_le_stop)
  ∧ ∀ src, FancySrc.fill_n 3 (Examples.after_fills 0 Examples.marked_src_full) = Ok src →
      0 ≤ FancySrc.ftello src.(FancySrc.infile) ≤ src.(FancySrc.stop_position).
Proof.
  apply (fancy_src_never_past_stop Examples.marked_file (replicate 4096 0)
           Examples.marked_positions 3 0 3 3).
  - exact marked_positions_ascending.
  - lia.
  - vm_compute. discriminate.
  - vm_compute. reflexivity.
Defined.

Lemma fancy_src_buffer_bounds_witness :
  1 ≤ (Examples.after_fills 2 Examples.marked_src_full).(FancySrc.bytes_in_buffer)
    ≤ FancySrc.INPUT_BUF_SIZE
  ∧ (Examples.after_fills 2 Examples.marked_src_full).(FancySrc.next_input_byte) = 0
  ∧ length (Examples.after_fills 2 Examples.marked_src_full).(FancySrc.buffer)
    = length (replicate 4096 0).
Proof.
  apply (fancy_src_buffer_bounds Examples.marked_file (replicate 4096 0)
           Examples.marked_positions 3 0 3 3
           (Examples.after_fills 0 Examples.marked_src_full) 1).
  - exact marked_positions_ascending.
  - lia.
  - vm_compute. discriminate.
  - vm_compute. reflexivity.
  - vm_compute. reflexivity.
Defined.

(** ** The table of the index pass *)

Section index_table.
Import FancySrc Index Inv.

Lemma MIN_int64_size_t_pos a :
  1 ≤ a ≤ CInt.INT64_MAX → 1 ≤ CInt.MIN_int64_size_t a INPUT_BUF_SIZE.
Proof.
  intros Ha. unfold CInt.MIN_int64_size_t, CInt.uint64, CInt.wrap_unsigned, INPUT_BUF_SIZE.
  unfold CInt.INT64_MAX in Ha. rewrite Z.mod_small by lia.
  destruct (Z.ltb_spec a 4096); lia.
Qed.

Lemma fill_seek_passthrough src :
  passthrough src →
  fill_seek src
  = Ok (false, src,
        CInt.MIN_int64_size_t (CInt.INT64_MAX - src.(infile).(fpos)) INPUT_BUF_SIZE).
Proof.
  intros (Hc & Hstop & Hsof & Hlen & Hnib & Hbib & Hpos & Hsync).
  unfold fill_seek, ftello, g_assert. rewrite Hc, Hstop. cbn [Z.eqb mbind res_bind].
  destruct (Z.leb_spec (fpos (infile src)) CInt.INT64_MAX); [ | lia].
  cbn [mbind res_bind].
  destruct (Z.ltb_spec (fpos (infile src)) CInt.INT64_MAX); [ | lia].
  reflexivity.
Qed.

(** A fill of a source without a table, the buffer used up and the file
    not at its end: the buffer is filled with the next bytes of the file. *)
Lemma fill_passthrough_more src :
  passthrough src →
  src.(infile).(fpos) < Z.of_nat (length src.(infile).(contents)) →
  ∃ src', fill_input_buffer src = Ok src'
    ∧ passthrough src'
    ∧ src'.(infile).(contents) = src.(infile).(contents)
    ∧ 1 ≤ src'.(bytes_in_buffer)
    ∧ src'.(infile).(fpos) - src'.(bytes_in_buffer) = src.(infile).(fpos).
Proof.
  intros Hp Hmore. pose proof Hp as (Hc & Hstop & Hsof & Hlen & Hnib & Hbib & Hpos & Hsync).
  unfold fill_input_buffer. rewrite (fill_seek_passthrough src Hp). cbn [mbind res_bind].
  pose proof (MIN_int64_size_t_pos (CInt.INT64_MAX - fpos (infile src)) ltac:(lia)) as Hn.
  set (n := CInt.MIN_int64_size_t _ _) in *.
  unfold fread.
  set (got := take (Z.to_nat n) (drop (Z.to_nat (fpos (infile src))) (contents (infile src)))).
  assert (Hgot : (1 ≤ length got)%nat
                 ∧ Z.of_nat (length got)
                   ≤ Z.of_nat (length (contents (infile src))) - fpos (infile src)).
  { unfold got. rewrite length_take, length_drop. lia. }
  unfold fill_store.
  destruct (Z.leb_spec (Z.of_nat (length got)) 0); [lia | ].
  eexists. split; [reflexivity | ].
  cbn [set_filled infile contents fpos bytes_in_buffer].
  split; [ | split; [reflexivity | split; lia]].
  unfold passthrough.
  cbn [set_filled infile contents fpos bytes_in_buffer next_input_byte buffer
       start_positions_count stop_position start_of_file].
  repeat (split; [first [assumption | reflexivity | lia] | ]).
  intros k Hk. cbn [Z.to_nat Nat.add].
  rewrite !nth_lookup. rewrite lookup_app_l by lia.
  assert (Hkn : (k < Z.to_nat n)%nat).
  { unfold got in Hk. rewrite length_take in Hk. lia. }
  unfold got. rewrite lookup_take_lt by exact Hkn. rewrite lookup_drop.
  do 2 f_equal. lia.
Qed.

(** A fill at the end of the file: the source hands out an EOI. *)
Lemma fill_passthrough_eof src :
  passthrough src →
  src.(infile).(fpos) = Z.of_nat (length src.(infile).(contents)) →
  ∃ src', fill_input_buffer src = Ok src'
    ∧ src'.(next_input_byte) = 0 ∧ src'.(bytes_in_buffer) = 2
    ∧ nth 0 src'.(buffer) 0 = 0xFF ∧ nth 1 src'.(buffer) 0 = JPEG_EOI.
Proof.
  intros Hp Heof. pose proof Hp as (Hc & Hstop & Hsof & Hlen & Hnib & Hbib & Hpos & Hsync).
  unfold fill_input_buffer. rewrite (fill_seek_passthrough src Hp). cbn [mbind res_bind].
  unfold fread. rewrite drop_ge by lia. rewrite take_nil.
  unfold fill_store. cbn [length Z.of_nat Z.leb Z.compare]. rewrite Hsof.
  eexists. split; [reflexivity | ]. cbn. auto.
Qed.


(** The decoder takes a byte: it is the byte of the file at
    [_openslide_jpeg_fancy_src_get_filepos], which moves on by one. *)
Lemma set_consumed_passthrough src :
  passthrough src → 1 ≤ src.(bytes_in_buffer) →
  passthrough (set_consumed src)
  ∧ nth (Z.to_nat src.(next_input_byte)) src.(buffer) 0
    = nth (Z.to_nat (_openslide_jpeg_fancy_src_get_filepos src))
        src.(infile).(contents) 0
  ∧ _openslide_jpeg_fancy_src_get_filepos (set_consumed src)
    = _openslide_jpeg_fancy_src_get_filepos src + 1.
Proof.
  intros (Hc & Hstop & Hsof & Hlen & Hnib & Hbib & Hpos & Hsync) Hb.
  unfold _openslide_jpeg_fancy_src_get_filepos, ftello.
  split; [ | split].
  - unfold passthrough.
    cbn [set_consumed infile contents fpos bytes_in_buffer next_input_byte buffer
         start_positions_count stop_position start_of_file].
    repeat (split; [first [assumption | lia] | ]).
    intros k Hk. specialize (Hsync (S k) ltac:(lia)).
    replace (Z.to_nat (next_input_byte src + 1) + k)%nat
      with (Z.to_nat (next_input_byte src) + S k)%nat by lia.
    rewrite Hsync. f_equal. lia.
  - specialize (Hsync O ltac:(lia)). rewrite !Nat.add_0_r in Hsync. exact Hsync.
  - cbn [set_consumed infile bytes_in_buffer]. lia.
Qed.

Lemma drop_nth_cons (l : list Z) (i : nat) :
  (i < length l)%nat → drop i l = nth i l 0 :: drop (S i) l.
Proof.
  intros Hi. destruct (lookup_lt_is_Some_2 l i Hi) as [x Hx].
  rewrite (nth_lookup_Some _ _ _ _ Hx). apply drop_S in Hx. exact Hx.
Qed.

Lemma written_step (starts : list Z) (m : nat) v offs :
  (m < length starts)%nat →
  take (S m) (<[m := v]> starts) ++ offs
    ++ drop (S m + length offs) (<[m := v]> starts)
  = take m starts ++ (v :: offs) ++ drop (m + length (v :: offs)) starts.
Proof.
  intros Hm. rewrite insert_take_drop by exact Hm.
  assert (Hl : length (take m starts) = m) by (rewrite length_take; lia).
  rewrite take_app_ge by lia. rewrite Hl.
  replace (S m - m)%nat with 1%nat by lia. cbn [take].
  rewrite drop_app_ge by lia. rewrite Hl.
  replace (S m + length offs - m)%nat with (S (length offs)) by lia.
  cbn [drop length]. rewrite drop_drop.
  rewrite <- app_assoc. cbn [app].
  rewrite take_0. cbn [app]. do 4 f_equal. lia.
Qed.

(** The scan of [compute_optimization] over a source without a table, in
    terms of the bytes of the file from the position of the source on. *)
Lemma scan_loop_offsets count fuel : ∀ src starts marker lwf,
  passthrough src →
  Z.of_nat (length src.(infile).(contents))
    - _openslide_jpeg_fancy_src_get_filepos src + 2 ≤ Z.of_nat fuel →
  0 ≤ marker < count → Z.of_nat (length starts) = count →
  scan_loop fuel count src starts marker lwf
  = let offs :=
      Spec.restart_offsets
        (drop (Z.to_nat (_openslide_jpeg_fancy_src_get_filepos src))
           src.(infile).(contents))
        (_openslide_jpeg_fancy_src_get_filepos src) lwf in
    if marker + Z.of_nat (length offs) <? count
    then Ok (take (Z.to_nat (marker + 1)) starts ++ offs
             ++ drop (Z.to_nat (marker + 1) + length offs) starts)
    else Err OutOfBounds.
Proof.
  induction fuel as [|fuel IH]; intros src starts marker lwf Hp Hfuel Hm Hlen.
  { destruct Hp as (_ & _ & _ & _ & _ & ? & ? & _).
    unfold _openslide_jpeg_fancy_src_get_filepos, ftello in Hfuel. lia. }
  pose proof Hp as (Hc & Hstop & Hsof & Hcl & Hnib & Hbib & Hpos & Hsync).
  cbn [scan_loop]. destruct (Z.ltb_spec marker count) as [_|]; [ | lia].
  destruct (Z.eq_dec (_openslide_jpeg_fancy_src_get_filepos src)
              (Z.of_nat (length src.(infile).(contents)))) as [Heof|Hmore].
  - (* the end of the file *)
    unfold _openslide_jpeg_fancy_src_get_filepos, ftello in Heof, Hfuel.
    assert (Hb0 : bytes_in_buffer src = 0) by lia.
    unfold _openslide_jpeg_fancy_src_get_filepos, ftello.
    rewrite Hb0, Z.sub_0_r. rewrite drop_ge by lia.
    cbn [Spec.restart_offsets length Z.of_nat app]. cbv zeta.
    rewrite Z.add_0_r, Nat.add_0_r, take_drop.
    destruct (Z.ltb_spec marker count) as [_|]; [ | lia].
    cbn [Z.eqb].
    destruct (fill_passthrough_eof src Hp ltac:(lia))
      as (src' & -> & Hn' & Hb' & Hff & Heoi).
    cbn [mbind res_bind]. rewrite Hn'. change (Z.to_nat 0) with O. rewrite Hff.
    change (255 =? JPEG_EOI) with false. change (is_restart_marker 255) with false.
    change (255 =? 255) with true. cbv iota.
    destruct fuel as [|fuel]; [lia | ].
    assert (Hnext : scan_loop (S fuel) count (set_consumed src') starts marker true
                    = Ok starts).
    { cbn [scan_loop].
      destruct (Z.ltb_spec marker count) as [_|]; [ | lia].
      cbn [set_consumed bytes_in_buffer next_input_byte buffer].
      rewrite Hb'. change (2 - 1 =? 0) with false. cbn [mbind res_bind].
      cbn [set_consumed next_input_byte buffer]. rewrite Hn'.
      change (Z.to_nat (0 + 1)) with 1%nat. rewrite Heoi, Z.eqb_refl.
      reflexivity. }
    destruct lwf; exact Hnext.
  - (* a byte of the file *)
    assert (Hlt : _openslide_jpeg_fancy_src_get_filepos src
                  < Z.of_nat (length src.(infile).(contents)))
      by (unfold _openslide_jpeg_fancy_src_get_filepos, ftello in *; lia).
    assert (Hsrc1 : ∃ src1,
              (if bytes_in_buffer src =? 0 then fill_input_buffer src else Ok src)
              = Ok src1
              ∧ passthrough src1 ∧ 1 ≤ src1.(bytes_in_buffer)
              ∧ src1.(infile).(contents) = src.(infile).(contents)
              ∧ _openslide_jpeg_fancy_src_get_filepos src1
                = _openslide_jpeg_fancy_src_get_filepos src).
    { destruct (Z.eqb_spec (bytes_in_buffer src) 0) as [Hb0|Hb1].
      - unfold _openslide_jpeg_fancy_src_get_filepos, ftello in *.
        destruct (fill_passthrough_more src Hp ltac:(lia))
          as (src1 & Hfill & Hp1 & Hc1 & Hb1 & Hpos1).
        exists src1. split; [exact Hfill | ]. split; [exact Hp1 | ].
        split; [exact Hb1 | ]. split; [exact Hc1 | ]. lia.
      - exists src. split; [reflexivity | ]. split; [exact Hp | ].
        split; [lia | ]. split; reflexivity. }
    destruct Hsrc1 as (src1 & -> & Hp1 & Hb1 & Hc1 & Hpos1). cbn [mbind res_bind].
    destruct (set_consumed_passthrough src1 Hp1 Hb1) as (Hp2 & Hbyte & Hpos2).
    rewrite Hbyte, Hc1, Hpos1. rewrite Hpos1 in Hpos2.
    assert (Hc2 : (set_consumed src1).(infile).(contents) = src.(infile).(contents))
      by exact Hc1.
    set (p := _openslide_jpeg_fancy_src_get_filepos src) in *.
    assert (Hp0 : 0 ≤ p)
      by (unfold p, _openslide_jpeg_fancy_src_get_filepos, ftello; lia).
    rewrite (drop_nth_cons _ (Z.to_nat p)) by lia.
    set (b := nth (Z.to_nat p) (contents (infile src)) 0).
    cbn [Spec.restart_offsets]. cbv zeta.
    assert (HIH : ∀ starts' marker' lwf',
              0 ≤ marker' < count → Z.of_nat (length starts') = count →
              scan_loop fuel count (set_consumed src1) starts' marker' lwf'
              = let offs := Spec.restart_offsets
                              (drop (S (Z.to_nat p)) (contents (infile src)))
                              (p + 1) lwf' in
                if marker' + Z.of_nat (length offs) <? count
                then Ok (take (Z.to_nat (marker' + 1)) starts' ++ offs
                         ++ drop (Z.to_nat (marker' + 1) + length offs) starts')
                else Err OutOfBounds).
    { intros starts' marker' lwf' Hm' Hlen'.
      rewrite IH; [ | exact Hp2 | rewrite Hc2, Hpos2; lia | exact Hm' | exact Hlen'].
      rewrite Hc2, Hpos2. replace (Z.to_nat (p + 1)) with (S (Z.to_nat p)) by lia.
      reflexivity. }
    destruct lwf; cbn [andb].
    2:{ apply HIH; assumption. }
    destruct (Z.eqb_spec b JPEG_EOI) as [_|_].
    { cbn [length Z.of_nat app]. rewrite Z.add_0_r, Nat.add_0_r, take_drop.
      destruct (Z.ltb_spec marker count) as [_|]; [reflexivity | lia]. }
    destruct (is_restart_marker b).
    2:{ apply HIH; assumption. }
    unfold array_set.
    destruct (Z.leb_spec 0 (1 + marker)) as [_|]; [ | lia].
    destruct (Z.ltb_spec (1 + marker) count) as [Hroom|Hfull]; cbn [andb].
    2:{ cbn [length]. destruct (Z.ltb_spec (marker + Z.of_nat (S (length
          (Spec.restart_offsets (drop (S (Z.to_nat p)) (contents (infile src)))
             (p + 1) (b =? 255))))) count); [lia | reflexivity]. }
    destruct (Z.ltb_spec (1 + marker) (Z.of_nat (length starts))) as [_|]; [ | lia].
    cbn [mbind res_bind]. rewrite Hpos2.
    rewrite HIH; [ | lia | rewrite length_insert; exact Hlen]. cbv zeta.
    set (offs := Spec.restart_offsets _ _ _).
    cbn [length].
    replace (marker + 1 + Z.of_nat (length offs) <? count)
      with (marker + Z.of_nat (S (length offs)) <? count) by (f_equal; lia).
    destruct (marker + Z.of_nat (S (length offs)) <? count); [ | reflexivity].
    f_equal.
    replace (Z.to_nat (marker + 1 + 1)) with (S (Z.to_nat (1 + marker))) by lia.
    replace (Z.to_nat (marker + 1)) with (Z.to_nat (1 + marker)) by lia.
    apply (written_step starts (Z.to_nat (1 + marker)) (p + 1) offs). lia.
Qed.


Lemma restart_offsets_marks bytes : ∀ pos lwf o,
  o ∈ Spec.restart_offsets bytes pos lwf →
  ∃ k : nat, o = pos + Z.of_nat k + 1 ∧ (k < length bytes)%nat
    ∧ is_restart_marker (nth k bytes 0) = true
    ∧ match k with O => lwf = true | S j => nth j bytes 0 = 0xFF end.
Proof.
  induction bytes as [|b rest IH]; intros pos lwf o Ho; cbn [Spec.restart_offsets] in Ho.
  { apply elem_of_nil in Ho. contradiction. }
  assert (Hrest : o ∈ Spec.restart_offsets rest (pos + 1) (b =? 255) →
            ∃ k : nat, o = pos + Z.of_nat k + 1 ∧ (k < length (b :: rest))%nat
              ∧ is_restart_marker (nth k (b :: rest) 0) = true
              ∧ match k with O => lwf = true | S j => nth j (b :: rest) 0 = 0xFF end).
  { intros H. apply IH in H as (k & -> & Hk & Hm & Hprev).
    exists (S k). split; [lia | ]. split; [cbn [length]; lia | ].
    split; [exact Hm | ].
    destruct k as [|j]; [apply Z.eqb_eq in Hprev; exact Hprev | exact Hprev]. }
  destruct lwf; cbn [andb] in Ho; [ | auto].
  destruct (b =? JPEG_EOI); [apply elem_of_nil in Ho; contradiction | ].
  destruct (is_restart_marker b) eqn:Eb; [ | auto].
  apply elem_of_cons in Ho as [->|Ho]; [ | auto].
  exists O. split; [lia | ]. split; [cbn [length]; lia | ]. auto.
Qed.

Lemma restart_offsets_sorted bytes : ∀ pos lwf,
  StronglySorted Z.lt (Spec.restart_offsets bytes pos lwf)
  ∧ Forall (fun o => pos < o ≤ pos + Z.of_nat (length bytes))
      (Spec.restart_offsets bytes pos lwf).
Proof.
  induction bytes as [|b rest IH]; intros pos lwf; cbn [Spec.restart_offsets].
  { split; constructor. }
  destruct (IH (pos + 1) (b =? 255)) as [Hs Hf].
  assert (Hf' : Forall (fun o => pos < o ≤ pos + Z.of_nat (length (b :: rest)))
                  (Spec.restart_offsets rest (pos + 1) (b =? 255))).
  { eapply Forall_impl; [exact Hf | ]. cbn [length]. intros o Ho. cbv beta in Ho. lia. }
  destruct (lwf && (b =? JPEG_EOI)); [split; constructor | ].
  destruct (lwf && is_restart_marker b); [ | split; assumption].
  split.
  - constructor; [exact Hs | ].
    eapply Forall_impl; [exact Hf | ]. intros o Ho. cbv beta in Ho. lia.
  - constructor; [cbn [length]; lia | exact Hf'].
Qed.

Lemma StronglySorted_lt_le (l : list Z) : StronglySorted Z.lt l → StronglySorted Z.le l.
Proof.
  induction 1 as [|x l Hs IH Hall]; constructor; [exact IH | ].
  eapply Forall_impl; [exact Hall | ]. intros y Hy. cbv beta in Hy. lia.
Qed.

Lemma compute_optimization_offsets cinfo src count :
  passthrough src →
  CInt.cdiv (CInt.uint32 (cinfo.(MCUs_per_row) * cinfo.(MCU_rows_in_scan)))
    cinfo.(restart_interval) = Ok count →
  compute_optimization cinfo src
  = let p0 := _openslide_jpeg_fancy_src_get_filepos src in
    let offs := Spec.restart_offsets (drop (Z.to_nat p0) src.(infile).(contents))
                  p0 false in
    if Z.of_nat (length offs) <? count
    then Ok (count, p0 :: offs ++ replicate (Z.to_nat count - 1 - length offs) 0)
    else Err OutOfBounds.
Proof.
  intros Hp Hcount. unfold compute_optimization. rewrite Hcount. cbn [mbind res_bind].
  cbv zeta. set (p0 := _openslide_jpeg_fancy_src_get_filepos src).
  set (offs := Spec.restart_offsets _ _ _).
  unfold array_set. rewrite length_replicate. cbn [Z.leb Z.compare andb].
  destruct (Z.ltb_spec 0 count) as [Hpos|Hneg].
  2:{ cbn [andb mbind res_bind].
      destruct (Z.ltb_spec (Z.of_nat (length offs)) count); [lia | reflexivity]. }
  destruct (Z.ltb_spec 0 (Z.of_nat (Z.to_nat count))) as [_|]; [ | lia].
  cbn [andb mbind res_bind].
  pose proof Hp as (_ & _ & _ & _ & _ & Hbib & Hfpos & _).
  rewrite (scan_loop_offsets count); [ | exact Hp | | lia | ].
  - cbv zeta. fold p0. fold offs. rewrite Z.add_0_l.
    destruct (Z.of_nat (length offs) <? count); [ | reflexivity].
    cbn [mbind res_bind]. do 2 f_equal.
    change (Z.to_nat (0 + 1)) with 1%nat.
    destruct (Z.to_nat count) as [|c] eqn:Ec; [lia | ].
    cbn [replicate Z.to_nat]. change (Z.to_nat 0) with O.
    cbn [list_insert insert take Nat.add drop app].
    rewrite take_0. cbn [app]. rewrite drop_replicate.
    do 3 f_equal. lia.
  - unfold scan_fuel, _openslide_jpeg_fancy_src_get_filepos, ftello. lia.
  - rewrite length_insert, length_replicate. lia.
Qed.


(** X14.  The table that [compute_optimization] builds, read off the bytes
    of the file: with a source without a table of positions that stands at
    offset [p0] of the file, the table of [count] entries holds [p0], then
    the offsets of the bytes that follow the restart markers [FF Dn] up to
    the first EOI (or the end of the file), then zeros, as long as there
    are fewer than [count] such markers; with [count] markers or more, or
    with [count ≤ 0], a store goes outside the table. *)
Theorem compute_optimization_table cinfo src count :
  passthrough src →
  CInt.cdiv (CInt.uint32 (cinfo.(MCUs_per_row) * cinfo.(MCU_rows_in_scan)))
    cinfo.(restart_interval) = Ok count →
  (Z.of_nat (length (Spec.restart_offsets
                       (drop (Z.to_nat (_openslide_jpeg_fancy_src_get_filepos src))
                          src.(infile).(contents))
                       (_openslide_jpeg_fancy_src_get_filepos src) false)) < count →
   compute_optimization cinfo src
   = Ok (count,
         _openslide_jpeg_fancy_src_get_filepos src
         :: Spec.restart_offsets
              (drop (Z.to_nat (_openslide_jpeg_fancy_src_get_filepos src))
                 src.(infile).(contents))
              (_openslide_jpeg_fancy_src_get_filepos src) false
         ++ replicate
              (Z.to_nat count - 1
               - length (Spec.restart_offsets
                           (drop (Z.to_nat (_openslide_jpeg_fancy_src_get_filepos src))
                              src.(infile).(contents))
                           (_openslide_jpeg_fancy_src_get_filepos src) false))
              0))
  ∧ (count ≤ Z.of_nat (length (Spec.restart_offsets
                       (drop (Z.to_nat (_openslide_jpeg_fancy_src_get_filepos src))
                          src.(infile).(contents))
                       (_openslide_jpeg_fancy_src_get_filepos src) false)) →
     compute_optimization cinfo src = Err OutOfBounds).
Proof.
  intros Hp Hcount. rewrite (compute_optimization_offsets cinfo src count Hp Hcount).
  cbv zeta. split; intros H.
  - destruct (Z.ltb_spec (Z.of_nat (length (Spec.restart_offsets
             (drop (Z.to_nat (_openslide_jpeg_fancy_src_get_filepos src))
                (contents (infile src)))
             (_openslide_jpeg_fancy_src_get_filepos src) false))) count);
      [reflexivity | lia].
  - destruct (Z.ltb_spec (Z.of_nat (length (Spec.restart_offsets
             (drop (Z.to_nat (_openslide_jpeg_fancy_src_get_filepos src))
                (contents (infile src)))
             (_openslide_jpeg_fancy_src_get_filepos src) false))) count);
      [lia | reflexivity].
Qed.

Lemma compute_optimization_count cinfo src count starts :
  compute_optimization cinfo src = Ok (count, starts) →
  CInt.cdiv (CInt.uint32 (cinfo.(MCUs_per_row) * cinfo.(MCU_rows_in_scan)))
    cinfo.(restart_interval) = Ok count.
Proof.
  unfold compute_optimization. intros H.
  inv_res H as c Hc. inv_res H as s0 Hs0. inv_res H as s1 Hs1.
  injection H as <- _. exact Hc.
Qed.

Lemma compute_optimization_starts cinfo src count starts :
  passthrough src →
  compute_optimization cinfo src = Ok (count, starts) →
  ∃ offs,
    offs = Spec.restart_offsets
             (drop (Z.to_nat (_openslide_jpeg_fancy_src_get_filepos src))
                src.(infile).(contents))
             (_openslide_jpeg_fancy_src_get_filepos src) false
    ∧ Z.of_nat (length offs) < count
    ∧ starts = _openslide_jpeg_fancy_src_get_filepos src
               :: offs ++ replicate (Z.to_nat count - 1 - length offs) 0.
Proof.
  intros Hp H. pose proof (compute_optimization_count _ _ _ _ H) as Hcount.
  rewrite (compute_optimization_offsets cinfo src count Hp Hcount) in H.
  cbv zeta in H. eexists. split; [reflexivity | ].
  destruct (Z.ltb_spec (Z.of_nat (length (Spec.restart_offsets
             (drop (Z.to_nat (_openslide_jpeg_fancy_src_get_filepos src))
                (contents (infile src)))
             (_openslide_jpeg_fancy_src_get_filepos src) false))) count);
    [ | discriminate].
  injection H as <-. auto.
Qed.

(** X15.  In the table that [compute_optimization] returns, entry 0 is the
    position of the source, and every later entry that is not a zero left
    by the allocation is the offset of a byte of the file that follows an
    [FF Dn], [n] in 0..7; these entries increase strictly with the index. *)
Theorem mcu_starts_follow_markers cinfo src count starts :
  passthrough src →
  compute_optimization cinfo src = Ok (count, starts) →
  starts !! O = Some (_openslide_jpeg_fancy_src_get_filepos src)
  ∧ Z.of_nat (length starts) = count
  ∧ (∀ (i : nat) o, (1 ≤ i)%nat → starts !! i = Some o → o ≠ 0 →
       _openslide_jpeg_fancy_src_get_filepos src + 2 ≤ o
       ∧ o ≤ Z.of_nat (length src.(infile).(contents))
       ∧ nth (Z.to_nat (o - 2)) src.(infile).(contents) 0 = 0xFF
       ∧ is_restart_marker (nth (Z.to_nat (o - 1)) src.(infile).(contents) 0) = true)
  ∧ (∀ (i j : nat) a b, (i < j)%nat →
       starts !! i = Some a → starts !! j = Some b → b ≠ 0 → a < b).
Proof.
  intros Hp H.
  destruct (compute_optimization_starts _ _ _ _ Hp H) as (offs & Eoffs & Hlt & ->).
  pose proof Hp as (_ & _ & _ & _ & _ & Hbib & Hfpos & _).
  set (p0 := _openslide_jpeg_fancy_src_get_filepos src) in *.
  assert (Hp0 : 0 ≤ p0 ≤ Z.of_nat (length src.(infile).(contents)))
    by (unfold p0, _openslide_jpeg_fancy_src_get_filepos, ftello; lia).
  destruct (restart_offsets_sorted (drop (Z.to_nat p0) src.(infile).(contents)) p0 false)
    as [Hsorted Hrange].
  rewrite <- Eoffs in Hsorted, Hrange. rewrite length_drop in Hrange.
  assert (Hin : ∀ (i : nat) o, (1 ≤ i)%nat →
            (p0 :: offs ++ replicate (Z.to_nat count - 1 - length offs) 0) !! i = Some o →
            o ≠ 0 → offs !! (i - 1)%nat = Some o).
  { intros i o Hi Ho Hne. destruct i as [|i]; [lia | ]. cbn [lookup list_lookup] in Ho.
    replace (S i - 1)%nat with i by lia.
    apply lookup_app_Some in Ho as [Ho|[_ Ho]]; [exact Ho | ].
    apply lookup_replicate in Ho as [-> _]. contradiction. }
  split; [reflexivity | ]. split.
  { cbn [length]. rewrite length_app, length_replicate. lia. }
  split.
  - intros i o Hi Ho Hne. apply Hin in Ho; [ | exact Hi | exact Hne].
    apply list_elem_of_lookup_2 in Ho. rewrite Eoffs in Ho.
    apply restart_offsets_marks in Ho as (k & -> & Hk & Hm & Hprev).
    rewrite length_drop in Hk.
    destruct k as [|j]; [discriminate | ].
    rewrite !nth_lookup, !lookup_drop in *.
    replace (Z.to_nat (p0 + Z.of_nat (S j) + 1 - 2)) with (Z.to_nat p0 + j)%nat by lia.
    replace (Z.to_nat (p0 + Z.of_nat (S j) + 1 - 1)) with (Z.to_nat p0 + S j)%nat by lia.
    repeat split; try assumption; lia.
  - intros i j a b Hij Ha Hb Hne.
    apply Hin in Hb; [ | lia | exact Hne].
    destruct i as [|i].
    + injection Ha as <-. rewrite Forall_forall in Hrange.
      apply list_elem_of_lookup_2, Hrange in Hb. lia.
    + cbn [lookup list_lookup] in Ha.
      assert (Hi : (i < length offs)%nat).
      { apply lookup_lt_Some in Hb. lia. }
      apply lookup_app_Some in Ha as [Ha|[Hge _]]; [ | lia].
      eapply (StronglySorted_lookup Z.lt offs Hsorted i (j - 1)); [lia | exact Ha | exact Hb].
Qed.


(** X16.  The index pass feeds the decoder: when the scan holds exactly
    [count − 1] restart markers, the table that [compute_optimization]
    returns is in ascending order with no entry past the end of the file,
    and a source set on the same file with this table, for any window that
    is not of negative width, never trips the assertion
    [pos <= stop_position]. *)
Theorem indexed_table_is_ascending cinfo src count starts :
  passthrough src →
  compute_optimization cinfo src = Ok (count, starts) →
  Z.of_nat (length (Spec.restart_offsets
                      (drop (Z.to_nat (_openslide_jpeg_fancy_src_get_filepos src))
                         src.(infile).(contents))
                      (_openslide_jpeg_fancy_src_get_filepos src) false))
  = count - 1 →
  ascending starts
  ∧ Forall (fun p => p ≤ Z.of_nat (length src.(infile).(contents))) starts
  ∧ ∀ buf tl w st s1 n,
      0 ≤ w → INPUT_BUF_SIZE ≤ Z.of_nat (length buf) →
      init_source (_openslide_jpeg_fancy_src (rewind src.(infile)) buf starts count
                     tl w st) = Ok s1 →
      fill_n n s1 ≠ Err (AssertFailed assert_pos_le_stop).
Proof.
  intros Hp H Hexact.
  destruct (compute_optimization_starts _ _ _ _ Hp H) as (offs & Eoffs & Hlt & ->).
  rewrite <- Eoffs in Hexact.
  pose proof Hp as (_ & _ & _ & Hcl & _ & Hbib & Hfpos & _).
  set (p0 := _openslide_jpeg_fancy_src_get_filepos src) in *.
  assert (Hp0 : 0 ≤ p0 ≤ Z.of_nat (length src.(infile).(contents)))
    by (unfold p0, _openslide_jpeg_fancy_src_get_filepos, ftello; lia).
  destruct (restart_offsets_sorted (drop (Z.to_nat p0) src.(infile).(contents)) p0 false)
    as [Hsorted Hrange].
  rewrite <- Eoffs in Hsorted, Hrange. rewrite length_drop in Hrange.
  replace (Z.to_nat count - 1 - length offs)%nat with O by lia.
  cbn [replicate]. rewrite app_nil_r.
  assert (Hasc : ascending (p0 :: offs)).
  { split.
    - constructor; [lia | ]. eapply Forall_impl; [exact Hrange | ].
      intros o Ho. cbv beta in Ho. lia.
    - constructor; [apply StronglySorted_lt_le, Hsorted | ].
      eapply Forall_impl; [exact Hrange | ]. intros o Ho. cbv beta in Ho. lia. }
  split; [exact Hasc | ]. split.
  { constructor; [lia | ]. eapply Forall_impl; [exact Hrange | ].
    intros o Ho. cbv beta in Ho. lia. }
  intros buf tl w st s1 n Hw Hbuf Hinit.
  apply init_source_within in Hinit as [Hin _]; try assumption.
  apply (fill_n_within n s1 Hin).
Qed.

End index_table.

Lemma regular_src_passthrough : Inv.passthrough Examples.regular_src.
Proof.
  unfold Inv.passthrough.
  repeat (split; [vm_compute; repeat split; first [reflexivity | discriminate] | ]).
  intros k Hk.
  change (FancySrc.bytes_in_buffer Examples.regular_src) with 12 in Hk.
  do 12 (destruct k as [|k]; [vm_compute; reflexivity | ]). lia.
Qed.

(** [Examples.regular_file]: the header of two bytes is read, and the scan
    holds the markers RST0, RST1 and RST2 before the EOI. *)
Lemma compute_optimization_table_witness :
  (Z.of_nat (length [5; 8; 11]) < 4 →
   Index.compute_optimization Examples.regular_cinfo Examples.regular_src
   = Ok (4, 2 :: [5; 8; 11] ++ replicate (Z.to_nat 4 - 1 - length [5; 8; 11]) 0))
  ∧ (4 ≤ Z.of_nat (length [5; 8; 11]) →
     Index.compute_optimization Examples.regular_cinfo Examples.regular_src
     = Err OutOfBounds).
Proof.
  apply (compute_optimization_table Examples.regular_cinfo Examples.regular_src 4).
  - exact regular_src_passthrough.
  - vm_compute. reflexivity.
Defined.

Lemma mcu_starts_follow_markers_witness :
  [2; 5; 8; 11] !! O
  = Some (FancySrc._openslide_jpeg_fancy_src_get_filepos Examples.regular_src)
  ∧ Z.of_nat (length [2; 5; 8; 11]) = 4
  ∧ (∀ (i : nat) o, (1 ≤ i)%nat → [2; 5; 8; 11] !! i = Some o → o ≠ 0 →
       FancySrc._openslide_jpeg_fancy_src_get_filepos Examples.regular_src + 2 ≤ o
       ∧ o ≤ Z.of_nat (length Examples.regular_src.(FancySrc.infile).(contents))
       ∧ nth (Z.to_nat (o - 2)) Examples.regular_src.(FancySrc.infile).(contents) 0
         = 0xFF
       ∧ FancySrc.is_restart_marker
           (nth (Z.to_nat (o - 1)) Examples.regular_src.(FancySrc.infile).(contents) 0)
         = true)
  ∧ (∀ (i j : nat) a b, (i < j)%nat →
       [2; 5; 8; 11] !! i = Some a → [2; 5; 8; 11] !! j = Some b → b ≠ 0 → a < b).
Proof.
  apply (mcu_starts_follow_markers Examples.regular_cinfo Examples.regular_src 4).
  - exact regular_src_passthrough.
  - vm_compute. reflexivity.
Defined.

Lemma indexed_table_is_ascending_witness :
  Inv.ascending [2; 5; 8; 11]
  ∧ Forall (fun p => p ≤ Z.of_nat (length Examples.regular_src.(FancySrc.infile).(contents)))
      [2; 5; 8; 11]
  ∧ ∀ buf tl w st s1 n,
      0 ≤ w → FancySrc.INPUT_BUF_SIZE ≤ Z.of_nat (length buf) →
      FancySrc.init_source
        (FancySrc._openslide_jpeg_fancy_src
           (FancySrc.rewind Examples.regular_src.(FancySrc.infile)) buf
           [2; 5; 8; 11] 4 tl w st) = Ok s1 →
      FancySrc.fill_n n s1 ≠ Err (AssertFailed assert_pos_le_stop).
Proof.
  apply (indexed_table_is_ascending Examples.regular_cinfo Examples.regular_src 4).
  - exact regular_src_passthrough.
  - vm_compute. reflexivity.
  - vm_compute. reflexivity.
Defined.

(** ** Skipping input *)

Section skip.
Import FancySrc Inv.

Lemma set_skipped_passthrough src n :
  passthrough src → 0 ≤ n ≤ src.(bytes_in_buffer) →
  passthrough (set_skipped src n)
  ∧ _openslide_jpeg_fancy_src_get_filepos (set_skipped src n)
    = _openslide_jpeg_fancy_src_get_filepos src + n.
Proof.
  intros (Hc & Hstop & Hsof & Hlen & Hnib & Hbib & Hpos & Hsync) Hn.
  unfold _openslide_jpeg_fancy_src_get_filepos, ftello.
  split.
  - unfold passthrough.
    cbn [set_skipped infile contents fpos bytes_in_buffer next_input_byte buffer
         start_positions_count stop_position start_of_file].
    repeat (split; [first [assumption | lia] | ]).
    intros k Hk. specialize (Hsync (Z.to_nat n + k)%nat ltac:(lia)).
    replace (Z.to_nat (next_input_byte src + n) + k)%nat
      with (Z.to_nat (next_input_byte src) + (Z.to_nat n + k))%nat by lia.
    rewrite Hsync. f_equal. lia.
  - cbn [set_skipped infile bytes_in_buffer]. lia.
Qed.

Lemma skip_loop_passthrough fuel : ∀ n src,
  passthrough src → 0 < n →
  _openslide_jpeg_fancy_src_get_filepos src + n
    ≤ Z.of_nat (length src.(infile).(contents)) →
  n - src.(bytes_in_buffer) ≤ Z.of_nat fuel →
  ∃ n' src', skip_loop fuel n src = Ok (n', src')
    ∧ passthrough src'
    ∧ src'.(infile).(contents) = src.(infile).(contents)
    ∧ 0 < n' ≤ src'.(bytes_in_buffer)
    ∧ _openslide_jpeg_fancy_src_get_filepos src' + n'
      = _openslide_jpeg_fancy_src_get_filepos src + n.
Proof.
  induction fuel as [|fuel IH]; intros n src Hp Hn Hroom Hfuel;
    cbn [skip_loop]; destruct (Z.gtb_spec n src.(bytes_in_buffer)) as [Hgt|Hle];
    try (exists n, src; split; [reflexivity | ]; split; [exact Hp | ];
         split; [reflexivity | ]; split; lia); [lia | ].
  pose proof Hp as (_ & _ & _ & _ & _ & Hbib & Hfpos & _).
  unfold _openslide_jpeg_fancy_src_get_filepos, ftello in Hroom.
  destruct (fill_passthrough_more src Hp ltac:(lia))
    as (src1 & -> & Hp1 & Hc1 & Hb1 & Hpos1).
  cbn [mbind res_bind].
  destruct (IH (n - src.(bytes_in_buffer)) src1 Hp1 ltac:(lia))
    as (n' & src' & -> & Hp' & Hc' & Hn' & Hpos').
  - unfold _openslide_jpeg_fancy_src_get_filepos, ftello. rewrite Hc1. lia.
  - lia.
  - exists n', src'. split; [reflexivity | ]. split; [exact Hp' | ].
    split; [congruence | ]. split; [exact Hn' | ].
    unfold _openslide_jpeg_fancy_src_get_filepos, ftello in *. lia.
Qed.

(** X17.  On a source without a table of positions, [skip_input_data]
    moves the position that [_openslide_jpeg_fancy_src_get_filepos] reports
    on by [num_bytes], through as many fills as it takes, when the file
    holds that many more bytes; it does nothing when [num_bytes] is not
    positive.  The bytes that the decoder takes next are those of the file
    from the new position on. *)
Theorem skip_input_data_advances src num_bytes :
  passthrough src →
  _openslide_jpeg_fancy_src_get_filepos src + Z.max 0 num_bytes
    ≤ Z.of_nat (length src.(infile).(contents)) →
  ∃ src', skip_input_data src num_bytes = Ok src'
    ∧ passthrough src'
    ∧ src'.(infile).(contents) = src.(infile).(contents)
    ∧ _openslide_jpeg_fancy_src_get_filepos src'
      = _openslide_jpeg_fancy_src_get_filepos src + Z.max 0 num_bytes.
Proof.
  intros Hp Hroom. unfold skip_input_data.
  destruct (Z.gtb_spec num_bytes 0) as [Hpos|Hneg].
  2:{ exists src. split; [reflexivity | ]. split; [exact Hp | ].
      split; [reflexivity | lia]. }
  pose proof Hp as (_ & _ & _ & _ & _ & Hbib & _).
  destruct (skip_loop_passthrough (Z.to_nat num_bytes) num_bytes src Hp Hpos
              ltac:(lia) ltac:(lia))
    as (n' & src' & -> & Hp' & Hc' & Hn' & Hpos').
  cbn [mbind res_bind].
  destruct (set_skipped_passthrough src' n' Hp' ltac:(lia)) as [Hp2 Hpos2].
  exists (set_skipped src' n'). split; [reflexivity | ]. split; [exact Hp2 | ].
  split; [exact Hc' | ]. lia.
Qed.

End skip.

Lemma skip_input_data_advances_witness :
  ∃ src', FancySrc.skip_input_data Examples.regular_src 5 = Ok src'
    ∧ Inv.passthrough src'
    ∧ src'.(FancySrc.infile).(contents) = Examples.regular_src.(FancySrc.infile).(contents)
    ∧ FancySrc._openslide_jpeg_fancy_src_get_filepos src'
      = FancySrc._openslide_jpeg_fancy_src_get_filepos Examples.regular_src + Z.max 0 5.
Proof.
  apply (skip_input_data_advances Examples.regular_src 5).
  - exact regular_src_passthrough.
  - vm_compute. discriminate.
Defined.

(** ** How the setup can fail *)

Section sort_errors.
Import Pyramid.
Context {A : Type} (compare_func : A -> A -> res Z) (E : fault -> Prop).
Hypothesis compare_error : ∀ a b e, compare_func a b = Err e → E e.



End sort_errors.

Section setup_failures.
Import Pyramid Inv.









End setup_failures.


(** ** The window of tiles of a read *)

Section tile_window.
Import Ops Inv.

Lemma ceil_tiles a p :
  0 < a → 0 < p →
  let n := Z.quot a p + (if Z.rem a p =? 0 then 0 else 1) in
  0 < n ∧ a ≤ n * p ∧ (n - 1) * p < a.
Proof.
  intros Ha Hp. cbv zeta.
  rewrite Z.quot_div_nonneg, Z.rem_mod_nonneg by lia.
  pose proof (Z.div_mod a p ltac:(lia)). pose proof (Z.mod_pos_bound a p Hp).
  assert (0 ≤ a / p) by (apply Z.div_pos; lia).
  destruct (Z.eqb_spec (a mod p) 0); nia.
Qed.

(** X19.  The window of tiles that [read_from_one_jpeg] sets the source to:
    for a request of [w × h] pixels of scale [scale_denom] at an offset
    [(x, y)] inside the tiles of the file, the window starts at the tile of
    [(x, y)], is not empty, lies in the grid of [width / tile_width] by
    [height / tile_height] tiles, and covers the pixels asked for as far as
    the file has them; so a table of positions with an entry per tile makes
    the source's window a window of its grid. *)
Theorem start_decompress_window jpeg x y scale_denom w h :
  0 < jpeg.(tile_width) → 0 < jpeg.(tile_height) →
  0 ≤ x < Z.quot jpeg.(width) jpeg.(tile_width) * jpeg.(tile_width) →
  0 ≤ y < Z.quot jpeg.(height) jpeg.(tile_height) * jpeg.(tile_height) →
  0 < w → 0 < h → 0 < scale_denom →
  w * scale_denom + jpeg.(tile_width) < 2 ^ 31 →
  h * scale_denom + jpeg.(tile_height) < 2 ^ 31 →
  let stride_in_tiles := Z.quot jpeg.(width) jpeg.(tile_width) in
  let rows := Z.quot jpeg.(height) jpeg.(tile_height) in
  let tile_x := Z.quot x jpeg.(tile_width) in
  let tile_y := Z.quot y jpeg.(tile_height) in
  ∃ width_in_tiles height_in_tiles,
    (∀ jpeg_decompress,
       start_decompress jpeg_decompress jpeg x y scale_denom w h
       = Ok (jpeg_decompress jpeg (tile_y * stride_in_tiles + tile_x)
               width_in_tiles stride_in_tiles scale_denom
               (width_in_tiles * jpeg.(tile_width))
               (height_in_tiles * jpeg.(tile_height))))
    ∧ (tile_x * jpeg.(tile_width) ≤ x ∧ tile_y * jpeg.(tile_height) ≤ y)
    ∧ (x + w * scale_denom ≤ stride_in_tiles * jpeg.(tile_width) →
       x + w * scale_denom ≤ (tile_x + width_in_tiles) * jpeg.(tile_width))
    ∧ (y + h * scale_denom ≤ rows * jpeg.(tile_height) →
       y + h * scale_denom ≤ (tile_y + height_in_tiles) * jpeg.(tile_height))
    ∧ ∀ file buf,
        jpeg.(mcu_starts_count) = rows * stride_in_tiles →
        Z.of_nat (length jpeg.(mcu_starts)) = jpeg.(mcu_starts_count) →
        window_in_grid
          (FancySrc._openslide_jpeg_fancy_src file buf jpeg.(mcu_starts)
             jpeg.(mcu_starts_count) (tile_y * stride_in_tiles + tile_x)
             width_in_tiles stride_in_tiles)
          tile_x tile_y height_in_tiles rows.
Proof.
  intros Htw Hth Hx Hy Hw Hh Hs Hwb Hhb. cbv zeta.
  set (tw := jpeg.(tile_width)) in *. set (th := jpeg.(tile_height)) in *.
  set (st := Z.quot jpeg.(width) tw) in *. set (rows := Z.quot jpeg.(height) th) in *.
  assert (Hxq : 0 ≤ Z.quot x tw ∧ Z.quot x tw * tw ≤ x < (Z.quot x tw + 1) * tw
                ∧ Z.rem x tw = x - Z.quot x tw * tw ∧ 0 ≤ Z.rem x tw < tw).
  { rewrite Z.quot_div_nonneg, Z.rem_mod_nonneg by lia.
    pose proof (Z.div_mod x tw ltac:(lia)). pose proof (Z.mod_pos_bound x tw Htw).
    assert (0 ≤ x / tw) by (apply Z.div_pos; lia). lia. }
  assert (Hyq : 0 ≤ Z.quot y th ∧ Z.quot y th * th ≤ y < (Z.quot y th + 1) * th
                ∧ Z.rem y th = y - Z.quot y th * th ∧ 0 ≤ Z.rem y th < th).
  { rewrite Z.quot_div_nonneg, Z.rem_mod_nonneg by lia.
    pose proof (Z.div_mod y th ltac:(lia)). pose proof (Z.mod_pos_bound y th Hth).
    assert (0 ≤ y / th) by (apply Z.div_pos; lia). lia. }
  set (tx := Z.quot x tw) in *. set (ty := Z.quot y th) in *.
  destruct Hxq as (Htx0 & Htx & Hxr & Hxr'). destruct Hyq as (Hty0 & Hty & Hyr & Hyr').
  assert (Htxs : tx < st) by nia. assert (Htys : ty < rows) by nia.
  assert (Hsw : 0 < w * scale_denom) by nia.
  assert (Hsh : 0 < h * scale_denom) by nia.
  destruct (ceil_tiles (w * scale_denom + Z.rem x tw) tw ltac:(lia) Htw)
    as (Hcw0 & Hcw1 & Hcw2).
  destruct (ceil_tiles (h * scale_denom + Z.rem y th) th ltac:(lia) Hth)
    as (Hch0 & Hch1 & Hch2).
  set (cw := Z.quot (w * scale_denom + Z.rem x tw) tw
             + (if Z.rem (w * scale_denom + Z.rem x tw) tw =? 0 then 0 else 1)) in *.
  set (ch := Z.quot (h * scale_denom + Z.rem y th) th
             + (if Z.rem (h * scale_denom + Z.rem y th) th =? 0 then 0 else 1)) in *.
  assert (Hcwb : cw < 2 ^ 31) by nia. assert (Hchb : ch < 2 ^ 31) by nia.
  exists (Z.min cw (st - tx)), (Z.min ch (rows - ty)).
  split; [ | split; [lia | split; [ | split]]].
  - intros jd. unfold start_decompress, CInt.cdiv, CInt.cmod.
    fold tw th.
    destruct (Z.eqb_spec th 0); [lia | ]. destruct (Z.eqb_spec tw 0); [lia | ].
    cbn [mbind res_bind]. fold tx ty st rows. fold cw ch.
    rewrite (int32_small cw), (int32_small ch) by lia. reflexivity.
  - intros Hin. destruct (Z.min_spec cw (st - tx)) as [[_ ->]|[_ ->]]; nia.
  - intros Hin. destruct (Z.min_spec ch (rows - ty)) as [[_ ->]|[_ ->]]; nia.
  - intros file buf Hcount Hlen. unfold window_in_grid.
    cbn [FancySrc._openslide_jpeg_fancy_src FancySrc.width FancySrc.stride
         FancySrc.topleft FancySrc.start_positions_count FancySrc.start_positions].
    repeat split; try lia; assumption.
Qed.

End tile_window.

Lemma start_decompress_window_witness :
  ∃ width_in_tiles height_in_tiles,
    (∀ jpeg_decompress,
       Ops.start_decompress jpeg_decompress Examples.tiled_jpeg 9 1 1 4 12
       = Ok (jpeg_decompress Examples.tiled_jpeg (0 * 2 + 1)
               width_in_tiles 2 1 (width_in_tiles * 8) (height_in_tiles * 8)))
    ∧ (1 * 8 ≤ 9 ∧ 0 * 8 ≤ 1)
    ∧ (9 + 4 * 1 ≤ 2 * 8 → 9 + 4 * 1 ≤ (1 + width_in_tiles) * 8)
    ∧ (1 + 12 * 1 ≤ 2 * 8 → 1 + 12 * 1 ≤ (0 + height_in_tiles) * 8)
    ∧ ∀ file buf,
        Examples.tiled_jpeg.(mcu_starts_count) = 2 * 2 →
        Z.of_nat (length Examples.tiled_jpeg.(mcu_starts))
        = Examples.tiled_jpeg.(mcu_starts_count) →
        Inv.window_in_grid
          (FancySrc._openslide_jpeg_fancy_src file buf
             Examples.tiled_jpeg.(mcu_starts)
             Examples.tiled_jpeg.(mcu_starts_count) (0 * 2 + 1)
             width_in_tiles 2)
          1 0 height_in_tiles 2.
Proof.
  apply (start_decompress_window Examples.tiled_jpeg 9 1 1 4 12);
    vm_compute; repeat split; first [reflexivity | discriminate].
Defined.

(** ** The tile of a file *)

Section tile_size.
Import Index.

Lemma udiv32_Ok a b q :
  0 ≤ a < 2 ^ 32 → 0 ≤ b < 2 ^ 32 → udiv32 a b = Ok q →
  0 < b ∧ q = a / b ∧ 0 ≤ q ≤ a.
Proof.
  intros Ha Hb. unfold udiv32. rewrite !uint32_small by lia.
  destruct (Z.eqb_spec b 0); [discriminate | ]. intros H. apply Ok_inj in H. subst q.
  split; [lia | ]. split; [reflexivity | ].
  split; [apply Z.div_pos; lia | ]. apply Z.div_le_upper_bound; nia.
Qed.

(** X20.  [init_one_jpeg] returns only for a file with restart markers
    (a [restart_interval] that is not 0) whose restart interval is at most
    a row of MCUs, and with a row of MCUs at least: its divisions are by
    these numbers.  The tile it records is then the image divided by the
    [MCUs_per_row / restart_interval] tiles of a row and the
    [MCU_rows_in_scan] rows, rounded down, and the table of positions has
    [mcu_starts_count] entries. *)
Theorem init_one_jpeg_tile_size file cinfo src oj :
  0 ≤ cinfo.(MCUs_per_row) < 2 ^ 32 → 0 ≤ cinfo.(MCU_rows_in_scan) < 2 ^ 32 →
  0 ≤ cinfo.(restart_interval) < 2 ^ 32 →
  0 ≤ cinfo.(output_width) < 2 ^ 31 → 0 ≤ cinfo.(output_height) < 2 ^ 31 →
  init_one_jpeg file cinfo src = Ok oj →
  1 ≤ cinfo.(restart_interval) ≤ cinfo.(MCUs_per_row)
  ∧ 1 ≤ cinfo.(MCU_rows_in_scan)
  ∧ oj.(f) = file
  ∧ oj.(width) = cinfo.(output_width) ∧ oj.(height) = cinfo.(output_height)
  ∧ oj.(tile_width)
    = cinfo.(output_width) / (cinfo.(MCUs_per_row) / cinfo.(restart_interval))
  ∧ oj.(tile_height) = cinfo.(output_height) / cinfo.(MCU_rows_in_scan)
  ∧ oj.(tile_width) * (cinfo.(MCUs_per_row) / cinfo.(restart_interval)) ≤ oj.(width)
  ∧ oj.(tile_height) * cinfo.(MCU_rows_in_scan) ≤ oj.(height)
  ∧ Z.of_nat (length oj.(mcu_starts)) = oj.(mcu_starts_count).
Proof.
  intros Hm Hr Hi Hw Hh H. unfold init_one_jpeg in H.
  inv_res H as cs Hcs. destruct cs as [count starts].
  assert (Hlen : Z.of_nat (length starts) = count).
  { pose proof (compute_optimization_count _ _ _ _ Hcs) as Hc.
    unfold CInt.cdiv in Hc.
    destruct (Z.eqb_spec cinfo.(restart_interval) 0); [discriminate | ].
    apply Ok_inj in Hc.
    apply (compute_optimization_length _ _ _ _ Hcs). subst count.
    apply Z.quot_pos; [ | lia].
    unfold CInt.uint32, CInt.wrap_unsigned. apply Z.mod_pos_bound. lia. }
  rewrite !int32_small in H by lia.
  inv_res H as per_row Hper. inv_res H as tw Htw. inv_res H as th Hth.
  apply Ok_inj in H. subst oj. cbn [f width height tile_width tile_height
                                    mcu_starts mcu_starts_count].
  apply udiv32_Ok in Hper as (Hi0 & -> & Hp); [ | lia | lia].
  apply udiv32_Ok in Htw as (Hp0 & -> & Htwb); [ | lia | lia].
  apply udiv32_Ok in Hth as (Hr0 & -> & Hthb); [ | lia | lia].
  rewrite !int32_small by lia.
  assert (Hle : cinfo.(restart_interval) ≤ cinfo.(MCUs_per_row)).
  { destruct (Z.lt_ge_cases cinfo.(MCUs_per_row) cinfo.(restart_interval)) as [Hlt|];
      [ | lia]. rewrite Z.div_small in Hp0 by lia. lia. }
  pose proof (Z.mul_div_le cinfo.(output_width)
                (cinfo.(MCUs_per_row) / cinfo.(restart_interval)) Hp0).
  pose proof (Z.mul_div_le cinfo.(output_height) cinfo.(MCU_rows_in_scan) Hr0).
  repeat split; try reflexivity; try lia.
Qed.

End tile_size.

Lemma init_one_jpeg_tile_size_witness :
  1 ≤ 2 ≤ 4 ∧ 1 ≤ 2
  ∧ Examples.regular_jpeg.(f) = []
  ∧ Examples.regular_jpeg.(width) = 32 ∧ Examples.regular_jpeg.(height) = 16
  ∧ Examples.regular_jpeg.(tile_width) = 32 / (4 / 2)
  ∧ Examples.regular_jpeg.(tile_height) = 16 / 2
  ∧ Examples.regular_jpeg.(tile_width) * (4 / 2) ≤ Examples.regular_jpeg.(width)
  ∧ Examples.regular_jpeg.(tile_height) * 2 ≤ Examples.regular_jpeg.(height)
  ∧ Z.of_nat (length Examples.regular_jpeg.(mcu_starts))
    = Examples.regular_jpeg.(mcu_starts_count).
Proof.
  apply (init_one_jpeg_tile_size [] Examples.regular_cinfo Examples.regular_src
           Examples.regular_jpeg);
    try (vm_compute; split; [discriminate | reflexivity]).
  vm_compute. reflexivity.
Defined.

(** ** The rows of the window *)

Section rows_in_order.
Import FancySrc Inv.

Lemma fill_store_fpos rw src got file src' :
  fill_store rw src got file = Ok src' →
  src'.(infile).(fpos) = file.(fpos)
  ∨ (src'.(infile).(fpos) = file.(fpos) - 1 ∧ 1 < Z.of_nat (length got)).
Proof.
  unfold fill_store. intros H.
  destruct (Z.of_nat (length got) <=? 0).
  { destruct (start_of_file src); [discriminate | ].
    apply Ok_inj in H. subst src'. left. reflexivity. }
  destruct rw.
  2:{ apply Ok_inj in H. subst src'. left. reflexivity. }
  destruct (rewrite_markers_loop _ _ _ _ _) as [[buf' lwf'] marker'].
  destruct lwf'; cbn [andb] in H;
    [destruct (Z.gtb_spec (Z.of_nat (length got)) 1) | ];
    apply Ok_inj in H; subst src'; cbn [infile set_filled]; [ | left; reflexivity ..].
  unfold fseek_cur, fseeko. destruct (Z.ltb_spec (fpos file + -1) 0); cbn [fpos].
  - left. reflexivity.
  - right. lia.
Qed.

Lemma compute_next_positions_on_row k src src' :
  src.(start_positions_count) ≠ 0 → on_row k src →
  compute_next_positions src = Ok src' →
  src'.(next_start_offset)
  = src'.(topleft)
    + (Z.of_nat ((if src.(start_of_file) then 0 else 1) + k) - 1) * src'.(stride)
  ∧ (((if src.(start_of_file) then 0 else 1) + k)%nat = O →
     src'.(next_start_position) = 0
     ∧ src'.(start_positions) !! O = Some src'.(stop_position))
  ∧ (((if src.(start_of_file) then 0 else 1) + k)%nat ≠ O →
     0 ≤ src'.(next_start_offset)
     ∧ src'.(start_positions) !! Z.to_nat src'.(next_start_offset)
       = Some src'.(next_start_position)
     ∧ if src'.(next_start_offset) + src'.(width) <? src'.(start_positions_count)
       then src'.(start_positions)
              !! Z.to_nat (src'.(next_start_offset) + src'.(width))
            = Some src'.(stop_position)
       else src'.(stop_position) = CInt.INT64_MAX).
Proof.
  intros Hcount (Hoff & H0 & Hk & _ & _ & Hsof) H. unfold compute_next_positions in H.
  destruct (Z.eqb_spec (start_positions_count src) 0); [contradiction | ].
  destruct (start_of_file src) eqn:Es.
  - specialize (Hsof eq_refl). subst k.
    inv_res H as stop Hstop. inv_res H as u Hu. apply Ok_inj in H. subst src'.
    cbn [set_positions next_start_offset topleft stride next_start_position
         start_positions stop_position Nat.add].
    apply position_at_lookup in Hstop as [_ Hstop].
    split; [lia | ]. split; [auto | ]. intros Hne. contradiction.
  - inv_res H as u Hu. inv_res H as position Hpos. inv_res H as stop Hstop.
    apply Ok_inj in H. subst src'.
    cbn [set_positions next_start_offset topleft stride next_start_position
         start_positions stop_position start_positions_count width].
    apply position_at_lookup in Hpos as [Ho Hpos].
    split; [rewrite Hoff; lia | ]. split; [intros Hz; cbn in Hz; lia | ].
    intros _. split; [exact Ho | ]. split; [exact Hpos | ].
    destruct (next_start_offset src + stride src + width src
              <? start_positions_count src).
    + apply position_at_lookup in Hstop as [_ Hstop]. exact Hstop.
    + apply Ok_inj in Hstop. auto.
Qed.

(** One fill: the source stays on its row, or moves to the next one. *)
Lemma fill_input_buffer_on_row k src src' :
  src.(start_positions_count) ≠ 0 → within_stop src → on_row k src →
  fill_input_buffer src = Ok src' →
  on_row ((if advances src then 1 else 0) + k) src'.
Proof.
  intros Hcount Hin Hrow H.
  pose proof Hin as (Hpos & Hstop & Hasc & Hw & Hbuf).
  destruct (fill_seek_within src Hin) as [_ Hseek].
  unfold fill_input_buffer in H.
  destruct (fill_seek src) as [[[rw src1] n]|e] eqn:Es; cbn [mbind res_bind] in H;
    [ | discriminate].
  destruct (Hseek rw src1 n eq_refl) as (Hn & Hp1 & Hp2 & Hs1).
  pose proof (fread_length n (infile src1)) as [Hgl Hgp].
  destruct (fread n (infile src1)) as [got file]. cbn [fst snd] in Hgl, Hgp.
  pose proof (fill_store_keeps _ _ _ _ _ H)
    as (H1 & H2 & H3 & H4 & H5 & H6 & H7 & H8 & H9 & _).
  pose proof (fill_store_fpos _ _ _ _ _ H) as Hfp.
  assert (Hgoal : ∀ k',
            src1.(next_start_offset)
            = src1.(topleft) + (Z.of_nat k' - 1) * src1.(stride) →
            (k' = O → src1.(next_start_position) = 0
                      ∧ src1.(start_positions) !! O = Some src1.(stop_position)) →
            (k' ≠ O →
               0 ≤ src1.(next_start_offset)
               ∧ src1.(start_positions) !! Z.to_nat src1.(next_start_offset)
                 = Some src1.(next_start_position)
               ∧ if src1.(next_start_offset) + src1.(width)
                    <? src1.(start_positions_count)
                 then src1.(start_positions)
                        !! Z.to_nat (src1.(next_start_offset) + src1.(width))
                      = Some src1.(stop_position)
                 else src1.(stop_position) = CInt.INT64_MAX) →
            src1.(next_start_position) ≤ src1.(infile).(fpos) →
            on_row k' src').
  { intros k' Ho Hz Hnz Hlow. unfold on_row.
    rewrite H1, H2, H3, H4, H5, H6, H7, H8, H9.
    split; [exact Ho | ]. split; [exact Hz | ]. split; [exact Hnz | ].
    split; [lia | ]. split; [lia | discriminate]. }
  clear H. unfold fill_seek, ftello in Es.
  destruct (Z.eqb_spec (start_positions_count src) 0); [contradiction | ].
  inv_res Es as rw' Hrw. unfold g_assert in Es.
  destruct (Z.leb_spec (fpos (infile src)) (stop_position src)); [ | lia].
  cbn [mbind res_bind] in Es. unfold advances, ftello.
  destruct (Z.eqb_spec (start_positions_count src) 0); [contradiction | ].
  cbn [negb andb].
  destruct (Z.ltb_spec (fpos (infile src)) (stop_position src)) as [Hlt|Hge].
  - injection Es as _ <- _.
    destruct (Z.eqb_spec (fpos (infile src)) (stop_position src)); [lia | ].
    rewrite andb_false_r. cbn [Nat.add].
    destruct Hrow as (Ho & Hz & Hnz & Hlow & _ & _). apply Hgoal; assumption.
  - destruct (Z.eqb_spec (fpos (infile src)) (stop_position src)) as [_|]; [ | lia].
    rewrite andb_true_r.
    inv_res Es as srcj Hj. injection Es as _ <- _.
    destruct (compute_next_positions_on_row k src srcj Hcount Hrow Hj)
      as (Ho & Hz & Hnz).
    pose proof (compute_next_positions_ascending _ _ Hasc Hw Hj) as (Hnsp & _).
    assert (Hk' : ((if negb (start_of_file src) then 1 else 0) + k)%nat
                  = ((if start_of_file src then 0 else 1) + k)%nat)
      by (destruct (start_of_file src); reflexivity).
    rewrite Hk'. apply Hgoal; cbn [set_infile next_start_offset topleft stride
      next_start_position start_positions stop_position start_positions_count
      width infile]; try assumption.
    unfold fseeko. destruct (Z.ltb_spec (next_start_position srcj) 0); [lia | ].
    cbn [fpos]. lia.
Qed.

Lemma fill_n_on_row n : ∀ k src src',
  src.(start_positions_count) ≠ 0 → within_stop src → on_row k src →
  fill_n n src = Ok src' →
  on_row (jumps n src + k) src'.
Proof.
  induction n as [|n IH]; intros k src src' Hcount Hin Hrow H; cbn [fill_n jumps] in *.
  { apply Ok_inj in H. subst src'. exact Hrow. }
  destruct (fill_input_buffer src) as [src1|e] eqn:E; cbn [mbind res_bind] in H;
    [ | discriminate].
  pose proof (fill_input_buffer_on_row k src src1 Hcount Hin Hrow E) as Hrow1.
  destruct (fill_input_buffer_within src Hin) as [_ Hin1].
  destruct (Hin1 src1 E) as (Hin1' & _).
  apply fill_input_buffer_keeps in E as [(_ & _ & Hc & _) _].
  replace ((if advances src then 1 else 0) + jumps n src1 + k)%nat
    with (jumps n src1 + ((if advances src then 1 else 0) + k))%nat by lia.
  apply IH; [congruence | exact Hin1' | exact Hrow1 | exact H].
Qed.

(** X21.  A source with a table of positions in ascending order reads the
    header and then the rows of its window in order: after a run of fills
    in which it has moved [k] times, [next_start_offset] is the first tile
    of row [k − 1] of the window, [topleft + (k − 1) × stride]; the file is
    between the position of that tile and the position of the tile
    [width] further on (or [INT64_MAX] past the table), which are
    [next_start_position] and [stop_position]; before the first move the
    file is at most at [start_positions[0]]. *)
Theorem fancy_src_rows_in_order file buf positions count tl w st s1 n src :
  count ≠ 0 → ascending positions → 0 ≤ w →
  INPUT_BUF_SIZE ≤ Z.of_nat (length buf) →
  init_source (_openslide_jpeg_fancy_src (rewind file) buf positions count tl w st)
    = Ok s1 →
  fill_n n s1 = Ok src →
  on_row (jumps n s1) src
  ∧ src.(start_positions) = positions ∧ src.(start_positions_count) = count
  ∧ src.(topleft) = tl ∧ src.(width) = w ∧ src.(stride) = st.
Proof.
  intros Hcount Hasc Hw Hbuf Hinit H.
  pose proof (init_source_within _ _ _ _ _ _ _ _ Hasc Hw Hbuf Hinit) as [Hin _].
  pose proof (fill_n_keeps _ _ _ H) as [(_ & Hc1 & Hc2 & Hc3 & Hc4 & Hc5) _].
  unfold init_source in Hinit.
  pose proof (compute_next_positions_keeps _ _ Hinit)
    as ((_ & Hi1 & Hi2 & Hi3 & Hi4 & Hi5) & Hf & _ & Hsof & _).
  cbn in Hi1, Hi2, Hi3, Hi4, Hi5, Hf, Hsof.
  split; [ | repeat split; congruence].
  rewrite <- (Nat.add_0_r (jumps n s1)).
  apply fill_n_on_row; [congruence | exact Hin | | exact H].
  unfold compute_next_positions, _openslide_jpeg_fancy_src in Hinit.
  cbn [start_positions_count start_of_file topleft stride] in Hinit.
  destruct (Z.eqb_spec count 0); [contradiction | ].
  inv_res Hinit as stop Hstop. inv_res Hinit as u Hu. apply Ok_inj in Hinit.
  subst s1. apply position_at_lookup in Hstop as [_ Hstop].
  pose proof (ascending_lookup _ _ _ Hasc Hstop) as Hrange.
  unfold on_row.
  cbn [set_positions next_start_offset topleft stride next_start_position
       start_positions stop_position start_positions_count width infile
       start_of_file rewind fpos Z.of_nat] in *.
  split; [lia | ]. split; [auto | ]. split; [intros Hne; contradiction | ].
  split; [lia | ]. split; [lia | reflexivity].
Qed.

End rows_in_order.

(** [Examples.marked_src_full] after the header pass and the fill that
    moves to the one row of the window. *)
Lemma fancy_src_rows_in_order_witness :
  Inv.on_row (FancySrc.jumps 2 (Examples.after_fills 0 Examples.marked_src_full))
    (Examples.after_fills 2 Examples.marked_src_full)
  ∧ (Examples.after_fills 2 Examples.marked_src_full).(FancySrc.start_positions)
    = Examples.marked_positions
  ∧ (Examples.after_fills 2 Examples.marked_src_full).(FancySrc.start_positions_count) = 3
  ∧ (Examples.after_fills 2 Examples.marked_src_full).(FancySrc.topleft) = 0
  ∧ (Examples.after_fills 2 Examples.marked_src_full).(FancySrc.width) = 3
  ∧ (Examples.after_fills 2 Examples.marked_src_full).(FancySrc.stride) = 3.
Proof.
  apply (fancy_src_rows_in_order Examples.marked_file (replicate 4096 0)
           Examples.marked_positions 3 0 3 3
           (Examples.after_fills 0 Examples.marked_src_full) 2).
  - discriminate.
  - exact marked_positions_ascending.
  - lia.
  - vm_compute. discriminate.
  - vm_compute. reflexivity.
  - vm_compute. reflexivity.
Defined.

(** ** The builder on a well-formed pyramid *)

Section well_formed_pyramid.
Import Pyramid Inv Spec.

Lemma array_get_lookup {A} (a : list A) (i : nat) v :
  a !! i = Some v → array_get a (Z.of_nat (length a)) (Z.of_nat i) = Ok v.
Proof.
  intros H. unfold array_get. pose proof (lookup_lt_Some _ _ _ H).
  destruct (Z.leb_spec 0 (Z.of_nat i)); [ | lia].
  destruct (Z.ltb_spec (Z.of_nat i) (Z.of_nat (length a))); [ | lia].
  cbn [andb]. rewrite Nat2Z.id, H. reflexivity.
Qed.

Lemma builder_loop_cons jpegs i fr rest b :
  builder_loop jpegs i (fr :: rest) b
  = (b' ← builder_step jpegs i fr (head rest) b; builder_loop jpegs (S i) rest b').
Proof. reflexivity. Qed.

(** The body of the loop for a file that is not the last of its depth. *)
Lemma builder_step_inside jpegs i fr nx b oj :
  is_zxy_successor b.(prev_z) b.(prev_x) b.(prev_y) fr.(fr_z) fr.(fr_x) fr.(fr_y)
    = true →
  jpegs !! i = Some oj → nx.(fr_z) = fr.(fr_z) →
  builder_step jpegs i fr (Some nx) b
  = Ok {| prev_z := fr.(fr_z); prev_x := fr.(fr_x); prev_y := fr.(fr_y);
          layer_jpegs_tmp := i :: b.(layer_jpegs_tmp);
          l_pw := if fr.(fr_y) =? 0 then b.(l_pw) + oj.(width) else b.(l_pw);
          l_ph := if fr.(fr_x) =? 0 then b.(l_ph) + oj.(height) else b.(l_ph);
          img00_w := if (fr.(fr_x) =? 0) && (fr.(fr_y) =? 0)
                     then oj.(width) else b.(img00_w);
          img00_h := if (fr.(fr_x) =? 0) && (fr.(fr_y) =? 0)
                     then oj.(height) else b.(img00_h);
          layer0_w := b.(layer0_w);
          width_to_layer_map := b.(width_to_layer_map) |}.
Proof.
  intros Hs Hoj Hz. unfold builder_step. rewrite Hs. cbn [g_assert mbind res_bind].
  rewrite (array_get_lookup _ _ _ Hoj). cbn [mbind res_bind].
  rewrite Hz, Z.eqb_refl. cbn [negb].
  destruct ((fr_x fr =? 0) && (fr_y fr =? 0)); reflexivity.
Qed.

(** The body of the loop for the last file of a depth. *)
Lemma builder_step_flush jpegs i fr next b oj :
  is_zxy_successor b.(prev_z) b.(prev_x) b.(prev_y) fr.(fr_z) fr.(fr_x) fr.(fr_y)
    = true →
  jpegs !! i = Some oj →
  match next with None => True | Some nx => nx.(fr_z) ≠ fr.(fr_z) end →
  builder_step jpegs i fr next b
  = (let pw := if fr.(fr_y) =? 0 then b.(l_pw) + oj.(width) else b.(l_pw) in
     let l0w := if fr.(fr_z) =? 0 then pw else b.(layer0_w) in
     m ← generate_layers_into_map (reverse (i :: b.(layer_jpegs_tmp)))
           (fr.(fr_x) + 1) (fr.(fr_y) + 1) pw
           (if fr.(fr_x) =? 0 then b.(l_ph) + oj.(height) else b.(l_ph))
           (if (fr.(fr_x) =? 0) && (fr.(fr_y) =? 0)
            then oj.(width) else b.(img00_w))
           (if (fr.(fr_x) =? 0) && (fr.(fr_y) =? 0)
            then oj.(height) else b.(img00_h))
           l0w b.(width_to_layer_map);
     Ok {| prev_z := fr.(fr_z); prev_x := fr.(fr_x); prev_y := fr.(fr_y);
           layer_jpegs_tmp := [];
           l_pw := 0; l_ph := 0; img00_w := 0; img00_h := 0;
           layer0_w := l0w;
           width_to_layer_map := m |}).
Proof.
  intros Hs Hoj Hz. unfold builder_step. rewrite Hs. cbn [g_assert mbind res_bind].
  rewrite (array_get_lookup _ _ _ Hoj). cbn [mbind res_bind].
  assert (Hlast : match next with
                  | None => true
                  | Some nx => negb (nx.(fr_z) =? fr.(fr_z))
                  end = true).
  { destruct next as [nx|]; [ | reflexivity].
    destruct (Z.eqb_spec nx.(fr_z) fr.(fr_z)); [contradiction | reflexivity]. }
  destruct ((fr_x fr =? 0) && (fr_y fr =? 0)); rewrite Hlast; reflexivity.
Qed.

(** File number [t] of a grid and the one before it. *)
Lemma grid_next a t :
  0 < a → 0 ≤ t →
  (if (t + 1) mod a =? 0
   then (t + 1) / a = t / a + 1 ∧ t mod a = a - 1
   else (t + 1) / a = t / a ∧ (t + 1) mod a = t mod a + 1)
  ∧ 0 ≤ t mod a < a ∧ 0 ≤ t / a.
Proof.
  intros Ha Ht.
  pose proof (Z.div_mod t a ltac:(lia)) as Ht'. pose proof (Z.mod_pos_bound t a Ha).
  assert (0 ≤ t / a) by (apply Z.div_pos; lia).
  split; [ | split; assumption].
  destruct (Z.eq_dec (t mod a) (a - 1)) as [E|E].
  - assert (Hd : (t + 1) / a = t / a + 1).
    { symmetry. apply (Z.div_unique (t + 1) a (t / a + 1) 0); lia. }
    assert (Hm : (t + 1) mod a = 0).
    { symmetry. apply (Z.mod_unique (t + 1) a (t / a + 1) 0); lia. }
    rewrite Hm. cbn [Z.eqb]. auto.
  - assert (Hd : (t + 1) / a = t / a).
    { symmetry. apply (Z.div_unique (t + 1) a (t / a) (t mod a + 1)); lia. }
    assert (Hm : (t + 1) mod a = t mod a + 1).
    { symmetry. apply (Z.mod_unique (t + 1) a (t / a) (t mod a + 1)); lia. }
    rewrite Hm. destruct (Z.eqb_spec (t mod a + 1) 0); [lia | ]. auto.
Qed.

Lemma is_zxy_successor_grid a z t :
  0 < a → 0 ≤ t →
  is_zxy_successor z (t mod a) (t / a) z ((t + 1) mod a) ((t + 1) / a) = true.
Proof.
  intros Ha Ht. destruct (grid_next a t Ha Ht) as (Hn & Hm & Hd).
  unfold is_zxy_successor.
  destruct (Z.eqb_spec z (z + 1)); [lia | ]. rewrite Z.eqb_refl. cbn [negb].
  destruct (Z.eqb_spec ((t + 1) mod a) 0) as [E|E].
  - destruct Hn as [-> _]. rewrite Z.eqb_refl. reflexivity.
  - destruct Hn as [-> ->].
    destruct (Z.eqb_spec (t / a) (t / a + 1)); [lia | ].
    rewrite !Z.eqb_refl. reflexivity.
Qed.


Section one_depth.
Variables (jpegs : list one_jpeg) (b : builder) (z : Z) (s : depth_shape)
  (off : nat) (rest : list fragment).
Hypothesis across_pos : 0 < s.(g_across).
Hypothesis down_pos : 0 < s.(g_down).
Hypothesis files : ∀ t : nat, (t < g_count s)%nat →
  ∃ oj, jpegs !! (off + t)%nat = Some oj
        ∧ oj.(width) = s.(g_width) ∧ oj.(height) = s.(g_height).
Hypothesis start :
  is_zxy_successor b.(prev_z) b.(prev_x) b.(prev_y) z 0 0 = true.
Hypothesis next_depth :
  match head rest with None => True | Some nx => nx.(fr_z) ≠ z end.

Lemma g_count_eq : Z.of_nat (g_count s) = s.(g_across) * s.(g_down).
Proof. unfold g_count. nia. Qed.

Lemma depth_state_successor t :
  is_zxy_successor (depth_state b z s off t).(prev_z)
    (depth_state b z s off t).(prev_x) (depth_state b z s off t).(prev_y)
    z (Z.of_nat t mod s.(g_across)) (Z.of_nat t / s.(g_across)) = true.
Proof.
  destruct t as [|t]; cbn [depth_state prev_z prev_x prev_y].
  - rewrite Z.mod_0_l, Z.div_0_l by lia. exact start.
  - replace (Z.of_nat (S t)) with (Z.of_nat t + 1) by lia.
    apply is_zxy_successor_grid; lia.
Qed.

Lemma depth_state_step t oj :
  oj.(width) = s.(g_width) → oj.(height) = s.(g_height) →
  {| prev_z := z;
     prev_x := Z.of_nat t mod s.(g_across);
     prev_y := Z.of_nat t / s.(g_across);
     layer_jpegs_tmp := (off + t)%nat :: (depth_state b z s off t).(layer_jpegs_tmp);
     l_pw := if Z.of_nat t / s.(g_across) =? 0
             then (depth_state b z s off t).(l_pw) + oj.(width)
             else (depth_state b z s off t).(l_pw);
     l_ph := if Z.of_nat t mod s.(g_across) =? 0
             then (depth_state b z s off t).(l_ph) + oj.(height)
             else (depth_state b z s off t).(l_ph);
     img00_w := if (Z.of_nat t mod s.(g_across) =? 0)
                   && (Z.of_nat t / s.(g_across) =? 0)
                then oj.(width) else (depth_state b z s off t).(img00_w);
     img00_h := if (Z.of_nat t mod s.(g_across) =? 0)
                   && (Z.of_nat t / s.(g_across) =? 0)
                then oj.(height) else (depth_state b z s off t).(img00_h);
     layer0_w := b.(layer0_w);
     width_to_layer_map := b.(width_to_layer_map) |}
  = depth_state b z s off (S t).
Proof.
  intros Hw Hh. rewrite Hw, Hh.
  destruct (grid_next s.(g_across) (Z.of_nat t) across_pos ltac:(lia))
    as (Hn & Hm & Hd).
  replace (Z.of_nat t + 1) with (Z.of_nat (S t)) in Hn by lia.
  unfold depth_state.
  cbn [layer_jpegs_tmp l_pw l_ph img00_w img00_h].
  f_equal.
  - rewrite seq_S, reverse_app. reflexivity.
  - destruct (Z.eqb_spec (Z.of_nat t / g_across s) 0) as [E|E].
    + assert (Z.of_nat t < g_across s).
      { apply Z.div_small_iff in E; lia. }
      rewrite !Z.min_l by lia. lia.
    + assert (g_across s ≤ Z.of_nat t).
      { destruct (Z.lt_ge_cases (Z.of_nat t) (g_across s)) as [Hlt|]; [ | lia].
        rewrite Z.div_small in E by lia. contradiction. }
      rewrite !Z.min_r by lia. reflexivity.
  - destruct (Z.eqb_spec (Z.of_nat (S t) mod g_across s) 0);
      destruct Hn as [Hq Hr]; rewrite Hq;
      destruct (Z.eqb_spec (Z.of_nat t mod g_across s) 0); lia.
  - destruct t as [|t]; [rewrite Z.mod_0_l, Z.div_0_l by lia; reflexivity | ].
    destruct (_ && _); reflexivity.
  - destruct t as [|t]; [rewrite Z.mod_0_l, Z.div_0_l by lia; reflexivity | ].
    destruct (_ && _); reflexivity.
Qed.

Lemma depth_loop m : ∀ t frs,
  (t + S m = g_count s)%nat →
  (fun fr => (fr.(fr_z), fr.(fr_x), fr.(fr_y))) <$> frs
  = (fun t : nat => (z, Z.of_nat t mod s.(g_across), Z.of_nat t / s.(g_across)))
    <$> seq t (S m) →
  builder_loop jpegs (off + t) (frs ++ rest) (depth_state b z s off t)
  = builder_loop jpegs (off + g_count s) rest
      {| prev_z := z; prev_x := s.(g_across) - 1; prev_y := s.(g_down) - 1;
         layer_jpegs_tmp := [];
         l_pw := 0; l_ph := 0; img00_w := 0; img00_h := 0;
         layer0_w := if z =? 0 then s.(g_across) * s.(g_width)
                     else b.(layer0_w);
         width_to_layer_map :=
           insert_all b.(width_to_layer_map)
             (emitted_levels (seq off (g_count s)) s.(g_across) s.(g_down)
                (s.(g_across) * s.(g_width)) (s.(g_down) * s.(g_height))
                s.(g_width) s.(g_height)
                (if z =? 0 then s.(g_across) * s.(g_width) else b.(layer0_w))) |}.
Proof.
  induction m as [|m IH]; intros t frs Ht Hfrs.
  - (* the last file of the depth *)
    destruct frs as [|fr [|fr2 frs]]; try discriminate.
    cbn [fmap list_fmap seq] in Hfrs. injection Hfrs as Hz Hx Hy.
    cbn [app]. rewrite builder_loop_cons.
    destruct (files t ltac:(lia)) as (oj & Hoj & Hw & Hh).
    assert (Hs : is_zxy_successor (depth_state b z s off t).(prev_z)
                   (depth_state b z s off t).(prev_x)
                   (depth_state b z s off t).(prev_y)
                   fr.(fr_z) fr.(fr_x) fr.(fr_y) = true)
      by (rewrite Hz, Hx, Hy; apply depth_state_successor).
    rewrite (builder_step_flush jpegs (off + t) fr (head rest) _ oj Hs Hoj)
      by (rewrite Hz; exact next_depth).
    cbv zeta. rewrite Hz, Hx, Hy.
    pose proof g_count_eq as Hn.
    assert (Ht' : Z.of_nat t = s.(g_across) * (s.(g_down) - 1) + (s.(g_across) - 1))
      by lia.
    assert (Hdiv : Z.of_nat t / s.(g_across) = s.(g_down) - 1).
    { symmetry. apply (Z.div_unique _ _ _ (s.(g_across) - 1)); lia. }
    assert (Hmod : Z.of_nat t mod s.(g_across) = s.(g_across) - 1).
    { symmetry. apply (Z.mod_unique _ _ (s.(g_down) - 1)); lia. }
    rewrite Hdiv, Hmod, Hw, Hh.
    assert (Hpw : (if g_down s - 1 =? 0
                   then (depth_state b z s off t).(l_pw) + g_width s
                   else (depth_state b z s off t).(l_pw))
                  = g_across s * g_width s).
    { cbn [depth_state l_pw].
      destruct (Z.eqb_spec (g_down s - 1) 0); [ | assert (g_across s ≤ Z.of_nat t) by nia];
        nia. }
    assert (Hph : (if g_across s - 1 =? 0
                   then (depth_state b z s off t).(l_ph) + g_height s
                   else (depth_state b z s off t).(l_ph))
                  = g_down s * g_height s).
    { cbn [depth_state l_ph]. rewrite Hdiv, Hmod.
      destruct (Z.eqb_spec (g_across s - 1) 0); lia. }
    assert (Hiw : (if (g_across s - 1 =? 0) && (g_down s - 1 =? 0)
                   then g_width s else (depth_state b z s off t).(img00_w))
                  = g_width s).
    { destruct t as [|t]; [ | destruct (_ && _); reflexivity].
      destruct (Z.eqb_spec (g_across s - 1) 0); [ | lia].
      destruct (Z.eqb_spec (g_down s - 1) 0); [reflexivity | nia]. }
    assert (Hih : (if (g_across s - 1 =? 0) && (g_down s - 1 =? 0)
                   then g_height s else (depth_state b z s off t).(img00_h))
                  = g_height s).
    { destruct t as [|t]; [ | destruct (_ && _); reflexivity].
      destruct (Z.eqb_spec (g_across s - 1) 0); [ | lia].
      destruct (Z.eqb_spec (g_down s - 1) 0); [reflexivity | nia]. }
    rewrite Hpw, Hph, Hiw, Hih.
    replace (g_across s - 1 + 1) with (g_across s) by lia.
    replace (g_down s - 1 + 1) with (g_down s) by lia.
    assert (Htmp : reverse ((off + t)%nat :: (depth_state b z s off t).(layer_jpegs_tmp))
                   = seq off (g_count s)).
    { cbn [depth_state layer_jpegs_tmp].
      rewrite reverse_cons, reverse_involutive. rewrite <- Ht.
      replace (t + 1)%nat with (S t) by lia. rewrite seq_S. reflexivity. }
    rewrite Htmp. rewrite generate_layers_into_map_eq.
    rewrite copy_layer_jpegs_take by (rewrite length_seq; unfold g_count; lia).
    rewrite take_ge by (rewrite length_seq; unfold g_count; lia).
    cbn [mbind res_bind depth_state layer0_w width_to_layer_map].
    replace (off + t + 1)%nat with (off + g_count s)%nat by lia.
    replace (S (off + t)) with (off + g_count s)%nat by lia.
    reflexivity.
  - (* a file with another of the depth after it *)
    destruct frs as [|fr [|fr2 frs]]; try discriminate.
    pose proof Hfrs as Hfrs'.
    cbn [fmap list_fmap seq] in Hfrs. injection Hfrs as Hz Hx Hy Hz2 _ _ _.
    change ((fr :: fr2 :: frs) ++ rest) with (fr :: (fr2 :: frs) ++ rest).
    rewrite builder_loop_cons. cbn [app head].
    destruct (files t ltac:(lia)) as (oj & Hoj & Hw & Hh).
    assert (Hs : is_zxy_successor (depth_state b z s off t).(prev_z)
                   (depth_state b z s off t).(prev_x)
                   (depth_state b z s off t).(prev_y)
                   fr.(fr_z) fr.(fr_x) fr.(fr_y) = true)
      by (rewrite Hz, Hx, Hy; apply depth_state_successor).
    rewrite (builder_step_inside jpegs (off + t) fr fr2 _ oj Hs Hoj) by congruence.
    cbn [mbind res_bind]. rewrite Hz, Hx, Hy.
    pose proof (depth_state_step t oj Hw Hh) as Hstep.
    cbn [depth_state layer0_w width_to_layer_map] in Hstep |- *.
    rewrite Hstep.
    change (fr2 :: frs ++ rest) with ((fr2 :: frs) ++ rest).
    replace (S (off + t)) with (off + S t)%nat by lia.
    apply (IH (S t) (fr2 :: frs)); [lia | ].
    apply (f_equal (drop 1)) in Hfrs'. exact Hfrs'.
Qed.

End one_depth.


Lemma pyramid_coords_head z shape c :
  Forall (fun s => 0 < s.(g_across) ∧ 0 < s.(g_down)) shape →
  head (pyramid_coords z shape) = Some c → c.1.1 = z.
Proof.
  intros Hshape. destruct shape as [|s shape]; [discriminate | ].
  apply Forall_cons in Hshape as [[Ha Hd] _].
  cbn [pyramid_coords]. unfold grid_coords.
  assert (Hn : (0 < g_count s)%nat) by (unfold g_count; nia).
  destruct (g_count s) as [|n]; [lia | ].
  cbn [seq fmap list_fmap app head]. intros H. injection H as <-. reflexivity.
Qed.

Lemma pyramid_loop jpegs shape : ∀ z off frs b,
  0 ≤ z →
  Forall (fun s => 0 < s.(g_across) ∧ 0 < s.(g_down)) shape →
  (fun fr => (fr.(fr_z), fr.(fr_x), fr.(fr_y))) <$> frs = pyramid_coords z shape →
  (∀ (i : nat) wh, pyramid_dims shape !! i = Some wh →
     ∃ oj, jpegs !! (off + i)%nat = Some oj
           ∧ oj.(width) = wh.1 ∧ oj.(height) = wh.2) →
  b.(layer_jpegs_tmp) = [] → b.(l_pw) = 0 → b.(l_ph) = 0 →
  (shape ≠ [] →
   is_zxy_successor b.(prev_z) b.(prev_x) b.(prev_y) z 0 0 = true) →
  ∃ b', builder_loop jpegs off frs b = Ok b'
    ∧ b'.(width_to_layer_map)
      = insert_all b.(width_to_layer_map)
          (pyramid_levels off
             (match shape with
              | s :: _ => if z =? 0 then s.(g_across) * s.(g_width)
                          else b.(layer0_w)
              | [] => b.(layer0_w)
              end) shape).
Proof.
  induction shape as [|s shape IH]; intros z off frs b Hz Hshape Hfrs Hfiles Ht Hpw Hph
    Hstart.
  { cbn [pyramid_coords] in Hfrs. apply fmap_nil_inv in Hfrs. subst frs.
    exists b. split; reflexivity. }
  apply Forall_cons in Hshape as [[Ha Hd] Hshape].
  cbn [pyramid_coords] in Hfrs. apply fmap_app_inv in Hfrs as (G & rest & HG & Hrest & ->).
  assert (Hn : (0 < g_count s)%nat) by (unfold g_count; nia).
  assert (Hdims : pyramid_dims (s :: shape)
                  = replicate (g_count s) (s.(g_width), s.(g_height))
                    ++ pyramid_dims shape) by reflexivity.
  destruct (g_count s) as [|m] eqn:Em; [lia | ].
  assert (Hb : depth_state b z s off 0 = b).
  { destruct b. cbn in Ht, Hpw, Hph. subst. unfold depth_state.
    cbn [prev_z prev_x prev_y img00_w img00_h layer0_w width_to_layer_map
         seq reverse Z.of_nat].
    rewrite Z.mod_0_l, Z.div_0_l by lia.
    change (Z.of_nat 0) with 0. rewrite Z.min_l by lia.
    change (0 =? 0) with true. cbv iota.
    rewrite Z.add_0_r, !Z.mul_0_l. reflexivity. }
  set (b1 := {| prev_z := z; prev_x := g_across s - 1; prev_y := g_down s - 1;
                layer_jpegs_tmp := []; l_pw := 0; l_ph := 0;
                img00_w := 0; img00_h := 0;
                layer0_w := if z =? 0 then g_across s * g_width s else layer0_w b;
                width_to_layer_map :=
                  insert_all b.(width_to_layer_map)
                    (emitted_levels (seq off (S m)) s.(g_across) s.(g_down)
                       (s.(g_across) * s.(g_width)) (s.(g_down) * s.(g_height))
                       s.(g_width) s.(g_height)
                       (if z =? 0 then s.(g_across) * s.(g_width)
                        else b.(layer0_w))) |}).
  assert (Hrun : builder_loop jpegs off (G ++ rest) b
                 = builder_loop jpegs (off + S m) rest b1).
  { transitivity (builder_loop jpegs (off + 0) (G ++ rest) (depth_state b z s off 0)).
    { rewrite Hb, Nat.add_0_r. reflexivity. }
    unfold b1. rewrite <- Em.
    apply (depth_loop jpegs b z s off rest Ha Hd) with (m := m).
    - intros t Ht'.
      destruct (Hfiles t (s.(g_width), s.(g_height))) as (oj & Hoj & Hwh).
      { rewrite Hdims, lookup_app_l by (rewrite length_replicate; lia).
        apply lookup_replicate. split; [reflexivity | lia]. }
      exists oj. split; [exact Hoj | exact Hwh].
    - apply Hstart. discriminate.
    - destruct rest as [|nx rest']; [exact I | ]. cbn [head].
      assert (Hh : head (pyramid_coords (z + 1) shape)
                   = Some (nx.(fr_z), nx.(fr_x), nx.(fr_y))).
      { rewrite Hrest. reflexivity. }
      apply pyramid_coords_head in Hh; [ | exact Hshape]. cbn [fst] in Hh. lia.
    - lia.
    - rewrite <- HG. unfold grid_coords. rewrite Em. reflexivity. }
  rewrite Hrun.
  destruct (IH (z + 1) (off + S m)%nat rest b1) as (b' & Hb' & Hmap);
    try reflexivity; try assumption; try lia.
  - symmetry. exact Hrest.
  - intros i wh Hi.
    destruct (Hfiles (S m + i)%nat wh) as (oj & Hoj & Hwh).
    { rewrite Hdims, lookup_app_r by (rewrite length_replicate; lia).
      rewrite length_replicate. replace (S m + i - S m)%nat with i by lia.
      exact Hi. }
    exists oj. split; [ | exact Hwh]. rewrite <- Hoj. f_equal. lia.
  - intros _. unfold b1. cbn [prev_z prev_x prev_y]. unfold is_zxy_successor.
    rewrite !Z.eqb_refl. reflexivity.
  - exists b'. split; [exact Hb' | ].
    rewrite Hmap. unfold b1. cbn [width_to_layer_map layer0_w pyramid_levels].
    unfold insert_all. rewrite foldl_app. rewrite Em. f_equal.
    destruct shape as [|s' shape']; [reflexivity | ].
    destruct (Z.eqb_spec (z + 1) 0); [lia | reflexivity].
Qed.

(** X22.  The builder on a well-formed pyramid: for depths 0, 1, ... each
    a grid of [g_across × g_down] files of [g_width × g_height] pixels,
    the fragments in the order of the depths and row by row in each,
    [create_width_to_layer_map] returns the map that holds, for each depth
    and each scale 1, 2, 4, 8, the level of
    [g_across × g_width] by [g_down × g_height] pixels with the files of
    the depth, the size of its first file, and the full width of depth 0
    over its own as the downsample; where two keys coincide the level put
    in later stays. *)
Theorem create_width_to_layer_map_pyramid shape fragments jpegs :
  Forall (fun s => 0 < s.(g_across) ∧ 0 < s.(g_down)) shape →
  (fun fr => (fr.(fr_z), fr.(fr_x), fr.(fr_y))) <$> fragments = pyramid_coords 0 shape →
  (fun j => (j.(width), j.(height))) <$> jpegs = pyramid_dims shape →
  create_width_to_layer_map fragments jpegs = Ok (pyramid_map shape).
Proof.
  intros Hshape Hfrs Hjpegs. unfold create_width_to_layer_map.
  destruct (pyramid_loop jpegs shape 0 0 fragments builder_init) as (b' & -> & Hmap);
    try reflexivity; try assumption; try lia.
  - intros i wh Hi. rewrite <- Hjpegs in Hi. rewrite list_lookup_fmap in Hi.
    destruct (jpegs !! i) as [oj|] eqn:Eoj; [ | discriminate].
    cbn in Hi. injection Hi as <-. exists oj. cbn. auto.
  - cbn [mbind res_bind]. f_equal. rewrite Hmap. cbn [builder_init width_to_layer_map].
    unfold pyramid_map. destruct shape as [|s shape]; reflexivity.
Qed.






End well_formed_pyramid.

Lemma create_width_to_layer_map_pyramid_witness :
  Pyramid.create_width_to_layer_map Examples.two_depths Examples.two_depths_jpegs
  = Ok (Spec.pyramid_map [Spec.mkShape 2 1 64 64; Spec.mkShape 1 1 32 32]).
Proof.
  apply create_width_to_layer_map_pyramid.
  - repeat constructor.
  - reflexivity.
  - reflexivity.
Defined.


(** ** The files that a read reaches *)

Section routed_files.
Import Pyramid Ops Inv.




End routed_files.

